(** * MusicMaker: the step sequencer of [App.tsx]

    A shallow embedding of the sequencing and playback engine of the
    application component, in its version with sampled voices and legato
    playback: the grid store (one track per instrument, keyed by strings of
    the form [<note><octave>-<step>]), the per-beat subdivision map, chord
    generation, the measure count and the tick handler [repeat] with its
    legato (run-length) inference.

    JavaScript numbers that the program only ever uses as integers are
    modelled in [Z]; the sixteenths field of the transport position, which
    is fractional, and audio times are modelled in [Q].  Objects used as
    dictionaries whose key order is observable ([Object.keys(track)]) are
    association lists in insertion order; the subdivision map, whose order
    is never observed, is a [gmap].

    The component is a function of its state: every handler is modelled as
    a function from the state of the render it belongs to.  The one handler
    that outlives its render is [repeat], which the transport keeps calling
    after it was scheduled; what it closes over is made explicit as a
    [Closure], while the refs it reads are read from the live state. *)

From Stdlib Require Import ZArith QArith Qround Ascii String DecimalString
  DecimalPos Sorted.
From stdpp Require Import gmap list strings.

Local Open Scope string_scope.
Local Open Scope list_scope.
Local Open Scope Z_scope.

(** ** Strings: template literals, [split] and [parseInt] *)

Module Js.

(** [`${n}`] for an integer-valued number [n]. *)
Definition string_of_Z (z : Z) : string := NilZero.string_of_int (Z.to_int z).

Definition dash : ascii := "-"%char.

(** [s.split(sep)] for a one-character separator: always a non-empty list. *)
Fixpoint split (sep : ascii) (s : string) : list string :=
  match s with
  | EmptyString => [EmptyString]
  | String c s' =>
      if Ascii.eqb c sep then EmptyString :: split sep s'
      else match split sep s' with
           | [] => [String c EmptyString]
           | h :: t => String c h :: t
           end
  end.

(** Value of a character as a digit in the given radix (10 or 16). *)
Definition digit_value (radix : Z) (c : ascii) : option Z :=
  let n := Z.of_N (N_of_ascii c) in
  let v :=
    if (48 <=? n) && (n <=? 57) then Some (n - 48)
    else if (97 <=? n) && (n <=? 122) then Some (n - 87)
    else if (65 <=? n) && (n <=? 90) then Some (n - 55)
    else None in
  match v with
  | Some d => if d <? radix then Some d else None
  | None => None
  end.

(** The longest prefix of digits, read left to right; [seen] records whether
    at least one digit was consumed. *)
Fixpoint parse_digits (radix : Z) (s : string) (seen : bool) (acc : Z)
  : option Z :=
  match s with
  | EmptyString => if seen then Some acc else None
  | String c s' =>
      match digit_value radix c with
      | Some d => parse_digits radix s' true (radix * acc + d)
      | None => if seen then Some acc else None
      end
  end.

Definition is_space (c : ascii) : bool :=
  let n := N_of_ascii c in
  ((n =? 32) || (n =? 9) || (n =? 10) || (n =? 11) || (n =? 12) || (n =? 13))%N.

Fixpoint skip_spaces (s : string) : string :=
  match s with
  | String c s' => if is_space c then skip_spaces s' else s
  | EmptyString => s
  end.

(** After white space and sign: an optional [0x]/[0X] prefix selects radix
    16, otherwise radix 10. *)
Definition parse_unsigned (s : string) : option Z :=
  match s with
  | String "0" (String "x" s') => parse_digits 16 s' false 0
  | String "0" (String "X" s') => parse_digits 16 s' false 0
  | _ => parse_digits 10 s false 0
  end.

(** [parseInt(s)] with no radix argument; [None] is [NaN]. *)
Definition parseInt (s : string) : option Z :=
  match skip_spaces s with
  | String "-" s' => Z.opp <$> parse_unsigned s'
  | String "+" s' => parse_unsigned s'
  | s' => parse_unsigned s'
  end.

(** [parseInt(x)] where [x] may be [undefined]: the argument is first
    converted to the string ["undefined"], which has no digits. *)
Definition parseInt_opt (o : option string) : option Z :=
  match o with
  | Some s => parseInt s
  | None => None
  end.

End Js.

(** ** Constants of the module *)

Definition NOTES : list string :=
  ["B"; "A#"; "A"; "G#"; "G"; "F#"; "F"; "E"; "D#"; "D"; "C#"; "C"].
Definition OCTAVES : list Z := [4; 3; 2; 1].
Definition MIN_MEASURES : Z := 1.
Definition MAX_MEASURES : Z := 16.
Definition BEATS_PER_MEASURE : Z := 4.
Definition DEFAULT_BPM : Z := 120.

(** The chord table: chord name and semitone offsets from the root. *)
Definition CHORDS : list (string * list Z) :=
  [ ("major", [0; 4; 7]);
    ("minor", [0; 3; 7]);
    ("major7", [0; 4; 7; 11]);
    ("minor7", [0; 3; 7; 10]);
    ("dominant7", [0; 4; 7; 10]) ].

Definition NOTE_NAMES : list string :=
  ["C"; "C#"; "D"; "D#"; "E"; "F"; "F#"; "G"; "G#"; "A"; "A#"; "B"].
Definition OCTAVE_RANGE : list Z := [1; 2; 3; 4; 5; 6].

(** [DRUM_MAPPING]: label, note and octave of each percussion row. *)
Definition DRUM_MAPPING : list (string * string * Z) :=
  [ ("Open Hat", "F#", 3); ("Closed Hat", "F", 3); ("Snare", "D", 3);
    ("High Tom", "C", 3); ("Low Tom", "A", 2); ("Kick", "C", 2) ].

(** The keys of [INSTRUMENT_SETTINGS]. *)
Inductive InstrumentType := piano | guitar | violin | drum.

Inductive SettingType := synth | sampler.

Definition settings_type (inst : InstrumentType) : SettingType :=
  match inst with
  | piano => synth
  | guitar => sampler
  | violin => synth
  | drum => sampler
  end.

(** [Object.keys(INSTRUMENT_SETTINGS)], in declaration order. *)
Definition instrument_keys : list InstrumentType := [piano; guitar; violin; drum].

Definition InstrumentType_eqb (a b : InstrumentType) : bool :=
  match a, b with
  | piano, piano | guitar, guitar | violin, violin | drum, drum => true
  | _, _ => false
  end.

Inductive PlaybackKind := all | current.

(** ['all' | 'current' | null] *)
Definition PlaybackType := option PlaybackKind.

Definition PlaybackType_eqb (a b : PlaybackType) : bool :=
  match a, b with
  | Some all, Some all | Some current, Some current | None, None => true
  | _, _ => false
  end.

(** ** The grid store *)

(** [TrackData = { [key: string]: boolean }]: the entries in insertion
    order, one per key. *)
Definition TrackData := list (string * bool).

Module Track.

(** [track[key]]; [None] is [undefined]. *)
Fixpoint get (t : TrackData) (key : string) : option bool :=
  match t with
  | [] => None
  | (k, v) :: t' => if String.eqb k key then Some v else get t' key
  end.

(** [track[key] = v]: an existing key keeps its place, a new key goes last. *)
Fixpoint set (t : TrackData) (key : string) (v : bool) : TrackData :=
  match t with
  | [] => [(key, v)]
  | (k, v') :: t' =>
      if String.eqb k key then (k, v) :: t' else (k, v') :: set t' key v
  end.

(** [Object.keys(track)] *)
Definition keys (t : TrackData) : list string := t.*1.

(** Truthiness of [track[key]]: [undefined] and [false] are falsy. *)
Definition truthy (o : option bool) : bool := default false o.

End Track.

(** [AllTracks = { [key in InstrumentType]: TrackData }] *)
Record AllTracks := mkAllTracks {
  track_piano : TrackData;
  track_guitar : TrackData;
  track_violin : TrackData;
  track_drum : TrackData
}.

(** [tracks[inst]] *)
Definition track_of (ts : AllTracks) (inst : InstrumentType) : TrackData :=
  match inst with
  | piano => track_piano ts
  | guitar => track_guitar ts
  | violin => track_violin ts
  | drum => track_drum ts
  end.

(** [{ ...prev, [inst]: t }] *)
Definition with_track (prev : AllTracks) (inst : InstrumentType) (t : TrackData)
  : AllTracks :=
  match inst with
  | piano => mkAllTracks t (track_guitar prev) (track_violin prev) (track_drum prev)
  | guitar => mkAllTracks (track_piano prev) t (track_violin prev) (track_drum prev)
  | violin => mkAllTracks (track_piano prev) (track_guitar prev) t (track_drum prev)
  | drum => mkAllTracks (track_piano prev) (track_guitar prev) (track_violin prev) t
  end.

(** The initial [tracks]: an empty object for every instrument. *)
Definition initialTracks : AllTracks := mkAllTracks [] [] [] [].

(** [`${noteWithOctave}-${step}`] *)
Definition noteKey (noteWithOctave : string) (step : Z) : string :=
  noteWithOctave ++ "-" ++ Js.string_of_Z step.

(** [`${note}${octave}`] *)
Definition noteName (note : string) (octave : Z) : string :=
  note ++ Js.string_of_Z octave.

(** [`${note}${octave}-${step}`] *)
Definition noteId (note : string) (octave : Z) (step : Z) : string :=
  noteKey (noteName note octave) step.

(** ** Transport, voices and application state *)

(** [Tone.Transport.position], [bars:beats:sixteenths], after
    [split(':').map(Number)]. *)
Record Position := mkPosition {
  bars : Z;
  beats : Z;
  sixteenths : Q
}.

Definition position0 : Position := mkPosition 0 0 0.

(** [Math.round]: the nearest integer, halves rounded up. *)
Definition Math_round (x : Q) : Z := Qfloor (x + (1 # 2)).

(** The duration argument of [triggerAttackRelease]: the notation ['16n'],
    or [Tone.Time('16n').toSeconds() * durationSteps]. *)
Inductive Duration :=
  | Dur16n
  | DurSteps (durationSteps : Z).

(** One call [synths.current[inst].triggerAttackRelease(note, duration, time)]. *)
Record Trigger := mkTrigger {
  tr_inst : InstrumentType;
  tr_note : string;
  tr_duration : Duration;
  tr_time : option Q
}.

(** What the scheduled callback [repeat] closes over: the [tracks],
    [measures] and [isSamplesLoaded] of the render in which playback was
    started. *)
Record Closure := mkClosure {
  cl_tracks : AllTracks;
  cl_measures : Z;
  cl_isSamplesLoaded : bool
}.

(** The component state ([useState]), the refs ([useRef]) and the part of
    [Tone.Transport] the component drives. *)
Record AppState := mkAppState {
  showChordSelector : bool;
  selectedChord : string;
  selectedRoot : string;
  selectedOctave : Z;
  chordDuration : Z;
  tracks : AllTracks;
  playbackType : PlaybackType;
  currentStep : Z;
  bpm : Z;
  measures : Z;
  lastToggled : option (string * Z * Z);
  beatDivisions : gmap Z Z;
  selectedInstrument : InstrumentType;
  isSamplesLoaded : bool;
  (* refs *)
  synthsCurrent : bool;
  playbackTypeRef : PlaybackType;
  selectedInstrumentRef : InstrumentType;
  lastPlayedStep : Z;
  (* Tone.Transport *)
  transportPosition : Position;
  transportStarted : bool;
  scheduled : option Closure
}.

Definition initialState : AppState :=
  {| showChordSelector := false;
     selectedChord := "major";
     selectedRoot := "C";
     selectedOctave := 4;
     chordDuration := 1;
     tracks := initialTracks;
     playbackType := None;
     currentStep := 0;
     bpm := DEFAULT_BPM;
     measures := 4;
     lastToggled := None;
     beatDivisions := ∅;
     selectedInstrument := piano;
     isSamplesLoaded := false;
     synthsCurrent := false;
     playbackTypeRef := None;
     selectedInstrumentRef := piano;
     lastPlayedStep := -1;
     transportPosition := position0;
     transportStarted := false;
     scheduled := None |}.

(** *** State setters *)

Definition setTracks (f : AllTracks -> AllTracks) (st : AppState) : AppState :=
  mkAppState (showChordSelector st) (selectedChord st) (selectedRoot st)
    (selectedOctave st) (chordDuration st) (f (tracks st)) (playbackType st)
    (currentStep st) (bpm st) (measures st) (lastToggled st) (beatDivisions st)
    (selectedInstrument st) (isSamplesLoaded st) (synthsCurrent st)
    (playbackTypeRef st) (selectedInstrumentRef st) (lastPlayedStep st)
    (transportPosition st) (transportStarted st) (scheduled st).

Definition setShowChordSelector (b : bool) (st : AppState) : AppState :=
  mkAppState b (selectedChord st) (selectedRoot st)
    (selectedOctave st) (chordDuration st) (tracks st) (playbackType st)
    (currentStep st) (bpm st) (measures st) (lastToggled st) (beatDivisions st)
    (selectedInstrument st) (isSamplesLoaded st) (synthsCurrent st)
    (playbackTypeRef st) (selectedInstrumentRef st) (lastPlayedStep st)
    (transportPosition st) (transportStarted st) (scheduled st).

Definition setMeasures (m : Z) (st : AppState) : AppState :=
  mkAppState (showChordSelector st) (selectedChord st) (selectedRoot st)
    (selectedOctave st) (chordDuration st) (tracks st) (playbackType st)
    (currentStep st) (bpm st) m (lastToggled st) (beatDivisions st)
    (selectedInstrument st) (isSamplesLoaded st) (synthsCurrent st)
    (playbackTypeRef st) (selectedInstrumentRef st) (lastPlayedStep st)
    (transportPosition st) (transportStarted st) (scheduled st).

Definition setCurrentStep (s : Z) (st : AppState) : AppState :=
  mkAppState (showChordSelector st) (selectedChord st) (selectedRoot st)
    (selectedOctave st) (chordDuration st) (tracks st) (playbackType st)
    s (bpm st) (measures st) (lastToggled st) (beatDivisions st)
    (selectedInstrument st) (isSamplesLoaded st) (synthsCurrent st)
    (playbackTypeRef st) (selectedInstrumentRef st) (lastPlayedStep st)
    (transportPosition st) (transportStarted st) (scheduled st).

Definition setLastToggled (c : string * Z * Z) (st : AppState) : AppState :=
  mkAppState (showChordSelector st) (selectedChord st) (selectedRoot st)
    (selectedOctave st) (chordDuration st) (tracks st) (playbackType st)
    (currentStep st) (bpm st) (measures st) (Some c) (beatDivisions st)
    (selectedInstrument st) (isSamplesLoaded st) (synthsCurrent st)
    (playbackTypeRef st) (selectedInstrumentRef st) (lastPlayedStep st)
    (transportPosition st) (transportStarted st) (scheduled st).

Definition setBeatDivisions (f : gmap Z Z -> gmap Z Z) (st : AppState) : AppState :=
  mkAppState (showChordSelector st) (selectedChord st) (selectedRoot st)
    (selectedOctave st) (chordDuration st) (tracks st) (playbackType st)
    (currentStep st) (bpm st) (measures st) (lastToggled st) (f (beatDivisions st))
    (selectedInstrument st) (isSamplesLoaded st) (synthsCurrent st)
    (playbackTypeRef st) (selectedInstrumentRef st) (lastPlayedStep st)
    (transportPosition st) (transportStarted st) (scheduled st).

(** [setPlaybackType(p); playbackTypeRef.current = p] *)
Definition setPlaybackType (p : PlaybackType) (st : AppState) : AppState :=
  mkAppState (showChordSelector st) (selectedChord st) (selectedRoot st)
    (selectedOctave st) (chordDuration st) (tracks st) p
    (currentStep st) (bpm st) (measures st) (lastToggled st) (beatDivisions st)
    (selectedInstrument st) (isSamplesLoaded st) (synthsCurrent st)
    p (selectedInstrumentRef st) (lastPlayedStep st)
    (transportPosition st) (transportStarted st) (scheduled st).

(** [lastPlayedStep.current = s] *)
Definition setLastPlayedStep (s : Z) (st : AppState) : AppState :=
  mkAppState (showChordSelector st) (selectedChord st) (selectedRoot st)
    (selectedOctave st) (chordDuration st) (tracks st) (playbackType st)
    (currentStep st) (bpm st) (measures st) (lastToggled st) (beatDivisions st)
    (selectedInstrument st) (isSamplesLoaded st) (synthsCurrent st)
    (playbackTypeRef st) (selectedInstrumentRef st) s
    (transportPosition st) (transportStarted st) (scheduled st).

(** [Tone.Transport.position = p] *)
Definition setTransportPosition (p : Position) (st : AppState) : AppState :=
  mkAppState (showChordSelector st) (selectedChord st) (selectedRoot st)
    (selectedOctave st) (chordDuration st) (tracks st) (playbackType st)
    (currentStep st) (bpm st) (measures st) (lastToggled st) (beatDivisions st)
    (selectedInstrument st) (isSamplesLoaded st) (synthsCurrent st)
    (playbackTypeRef st) (selectedInstrumentRef st) (lastPlayedStep st)
    p (transportStarted st) (scheduled st).

(** [Tone.Transport.start()] / [stop()] and [scheduleRepeat] / [cancel()] *)
Definition setTransport (started : bool) (cb : option Closure) (st : AppState)
  : AppState :=
  mkAppState (showChordSelector st) (selectedChord st) (selectedRoot st)
    (selectedOctave st) (chordDuration st) (tracks st) (playbackType st)
    (currentStep st) (bpm st) (measures st) (lastToggled st) (beatDivisions st)
    (selectedInstrument st) (isSamplesLoaded st) (synthsCurrent st)
    (playbackTypeRef st) (selectedInstrumentRef st) (lastPlayedStep st)
    (transportPosition st) started cb.

(** The selector's [onChange] followed by the effect that copies the
    selection into [selectedInstrumentRef]. *)
Definition setSelectedInstrument (inst : InstrumentType) (st : AppState) : AppState :=
  mkAppState (showChordSelector st) (selectedChord st) (selectedRoot st)
    (selectedOctave st) (chordDuration st) (tracks st) (playbackType st)
    (currentStep st) (bpm st) (measures st) (lastToggled st) (beatDivisions st)
    inst (isSamplesLoaded st) (synthsCurrent st)
    (playbackTypeRef st) inst (lastPlayedStep st)
    (transportPosition st) (transportStarted st) (scheduled st).

(** The mount effect creating one voice per instrument; samplers report
    [onload] later, see [samplesLoaded]. *)
Definition mountSynths (st : AppState) : AppState :=
  mkAppState (showChordSelector st) (selectedChord st) (selectedRoot st)
    (selectedOctave st) (chordDuration st) (tracks st) (playbackType st)
    (currentStep st) (bpm st) (measures st) (lastToggled st) (beatDivisions st)
    (selectedInstrument st) (isSamplesLoaded st) true
    (playbackTypeRef st) (selectedInstrumentRef st) (lastPlayedStep st)
    (transportPosition st) (transportStarted st) (scheduled st).

(** [onload: () => setIsSamplesLoaded(true)] *)
Definition samplesLoaded (st : AppState) : AppState :=
  mkAppState (showChordSelector st) (selectedChord st) (selectedRoot st)
    (selectedOctave st) (chordDuration st) (tracks st) (playbackType st)
    (currentStep st) (bpm st) (measures st) (lastToggled st) (beatDivisions st)
    (selectedInstrument st) true (synthsCurrent st)
    (playbackTypeRef st) (selectedInstrumentRef st) (lastPlayedStep st)
    (transportPosition st) (transportStarted st) (scheduled st).

(** The selects of the chord dialog. *)
Definition selectChord (root chord : string) (octave duration : Z) (st : AppState)
  : AppState :=
  mkAppState (showChordSelector st) chord root octave duration (tracks st)
    (playbackType st) (currentStep st) (bpm st) (measures st) (lastToggled st)
    (beatDivisions st) (selectedInstrument st) (isSamplesLoaded st)
    (synthsCurrent st) (playbackTypeRef st) (selectedInstrumentRef st)
    (lastPlayedStep st) (transportPosition st) (transportStarted st)
    (scheduled st).

(** The values [repeat] captures when it is scheduled from state [st]. *)
Definition capture (st : AppState) : Closure :=
  mkClosure (tracks st) (measures st) (isSamplesLoaded st).

(** ** Chord generation *)

(** [NOTE_NAMES.indexOf(x)], [-1] when absent. *)
Fixpoint indexOf_from (l : list string) (x : string) (i : Z) : Z :=
  match l with
  | [] => -1
  | y :: l' => if String.eqb y x then i else indexOf_from l' x (i + 1)
  end.

Definition indexOf (l : list string) (x : string) : Z := indexOf_from l x 0.

(** [CHORDS[selectedChord] || []]; the dialog offers the table's keys only. *)
Fixpoint chordIntervalsOf (table : list (string * list Z)) (chord : string)
  : list Z :=
  match table with
  | [] => []
  | (name, intervals) :: table' =>
      if String.eqb name chord then intervals else chordIntervalsOf table' chord
  end.

(** [`${l[i]}`]: an index outside the array reads [undefined]. *)
Definition nameAt (l : list string) (i : Z) : string :=
  if i <? 0 then "undefined" else default "undefined" (l !! Z.to_nat i).

(** The body of [chordIntervals.forEach] for one [step]: the key written for
    [interval], if its octave is within range. *)
Definition chordTone (rootIndex selectedOctave step interval : Z) : option string :=
  let noteIndex := Z.rem (rootIndex + interval) 12 in
  let octaveOffset := (rootIndex + interval) / 12 in
  let noteName := nameAt NOTE_NAMES noteIndex in
  let noteOctave := selectedOctave + octaveOffset in
  if (noteOctave >=? 1) && (noteOctave <=? 6)
  then Some (noteId noteName noteOctave step)
  else None.

(** The keys assigned [true] by the two nested loops of [addChord], in the
    order of assignment. *)
Definition chordWrites (rootIndex selectedOctave : Z) (chordIntervals : list Z)
    (startBeat endStep : Z) : list string :=
  flat_map
    (fun step => omap (chordTone rootIndex selectedOctave step) chordIntervals)
    (seqZ startBeat (endStep - startBeat)).

(** [newNotes[noteId] = true] for each key in turn. *)
Definition writeAll (newNotes : TrackData) (ids : list string) : TrackData :=
  foldl (fun t noteId => Track.set t noteId true) newNotes ids.

(** The keys [addChord] assigns in state [st], after its two guards. *)
Definition addChordWrites (st : AppState) : list string :=
  if InstrumentType_eqb (selectedInstrument st) drum then []
  else
    let rootIndex := indexOf NOTE_NAMES (selectedRoot st) in
    if rootIndex =? -1 then []
    else
      let chordIntervals := chordIntervalsOf CHORDS (selectedChord st) in
      let startBeat := currentStep st in
      let endStep :=
        Z.min (startBeat + chordDuration st * 4) (measures st * 16) in
      chordWrites rootIndex (selectedOctave st) chordIntervals startBeat endStep.

Definition addChord (st : AppState) : AppState :=
  if InstrumentType_eqb (selectedInstrument st) drum then st
  else
    let rootIndex := indexOf NOTE_NAMES (selectedRoot st) in
    if rootIndex =? -1 then st
    else
      let chordIntervals := chordIntervalsOf CHORDS (selectedChord st) in
      let newNotes := track_of (tracks st) (selectedInstrument st) in
      let startBeat := currentStep st in
      let endStep :=
        Z.min (startBeat + chordDuration st * 4) (measures st * 16) in
      let newNotes :=
        writeAll newNotes
          (chordWrites rootIndex (selectedOctave st) chordIntervals
             startBeat endStep) in
      setShowChordSelector false
        (setTracks (fun prev => with_track prev (selectedInstrument st) newNotes)
           st).

(** ** Measures and subdivision *)

Definition updateMeasures (newMeasures : Z) (st : AppState) : AppState :=
  let clampedMeasures :=
    Z.min (Z.max newMeasures MIN_MEASURES) MAX_MEASURES in
  let st1 := setMeasures clampedMeasures st in
  if currentStep st >=? clampedMeasures * 16 then
    let st2 := setCurrentStep 0 st1 in
    if PlaybackType_eqb (playbackType st) None then st2
    else setTransportPosition position0 st2
  else st1.

(** [beatDivisions[b] || 1] *)
Definition divisionOf (divs : gmap Z Z) (b : Z) : Z :=
  match divs !! b with
  | Some d => if d =? 0 then 1 else d
  | None => 1
  end.

Definition toggleSplitAtPlayhead (st : AppState) : AppState :=
  let currentBeatIndex := currentStep st / 4 in
  setBeatDivisions
    (fun prev =>
       let currentDiv := divisionOf prev currentBeatIndex in
       let nextDiv :=
         if currentDiv =? 1 then 2 else if currentDiv =? 2 then 4 else 1 in
       <[currentBeatIndex := nextDiv]> prev)
    st.

(** The [absoluteStep] values of the inner loop of [renderGridRow] for beat
    [b]: one per sub-slot, [stepSize = 4 / division] apart.  The divisions
    the application stores are 1, 2 and 4, for which the quotient is exact. *)
Definition stepPositionsOf (divs : gmap Z Z) (b : Z) : list Z :=
  let division := divisionOf divs b in
  let stepSize := 4 / division in
  (fun i => b * 4 + i * stepSize) <$> seqZ 0 division.

(** All cells of a row: the outer loop of [renderGridRow]. *)
Definition gridSteps (divs : gmap Z Z) (measures : Z) : list Z :=
  let totalBeats := measures * BEATS_PER_MEASURE in
  flat_map (stepPositionsOf divs) (seqZ 0 totalBeats).

Definition isCurrentTimeInRange (st : AppState) (stepStart stepSpan : Z) : bool :=
  (currentStep st >=? stepStart) && (currentStep st <? stepStart + stepSpan).

(** The position string [`${m}:${b}:${s}`] for an absolute step. *)
Definition positionOfStep (step : Z) : Position :=
  mkPosition (step / 16) (Z.rem step 16 / 4) (inject_Z (Z.rem step 4)).

(** [onClick] of a header cell. *)
Definition seek (absoluteStep : Z) (st : AppState) : AppState :=
  setCurrentStep absoluteStep
    (setTransportPosition (positionOfStep absoluteStep) st).

(** ** Editing *)

(** The state change of [toggleNote]; the audible preview of the new cell
    is returned beside it. *)
Definition toggleNote (note : string) (octave noteStep : Z)
    (forceState : option bool) (st : AppState) : AppState * list Trigger :=
  let noteId := noteId note octave noteStep in
  let newState :=
    match forceState with
    | Some b => b
    | None =>
        negb (Track.truthy
                (Track.get (track_of (tracks st) (selectedInstrument st)) noteId))
    end in
  let st1 :=
    setTracks
      (fun prev =>
         with_track prev (selectedInstrument st)
           (Track.set (track_of prev (selectedInstrument st)) noteId newState))
      st in
  let st2 := setLastToggled (note, octave, noteStep) st1 in
  if newState && synthsCurrent st then
    match settings_type (selectedInstrument st), isSamplesLoaded st with
    | sampler, false => (st2, [])
    | _, _ =>
        (st2,
         [mkTrigger (selectedInstrument st) (noteName note octave) Dur16n None])
    end
  else (st2, []).

(** The Clear button. *)
Definition clearTrack (st : AppState) : AppState :=
  setTracks (fun p => with_track p (selectedInstrument st) []) st.

(** ** Playback *)

Definition stopPlayback (st : AppState) : AppState :=
  setPlaybackType None (setTransport false None st).

(** [startPlayback]: toggles off when the same mode is active, otherwise
    seeks the transport to the cursor, arms [lastPlayedStep] and schedules
    [repeat] as it is in this render. *)
Definition startPlayback (type : PlaybackKind) (st : AppState) : AppState :=
  if PlaybackType_eqb (playbackType st) (Some type) then stopPlayback st
  else
    let st1 := setPlaybackType (Some type) st in
    let st2 := setTransportPosition (positionOfStep (currentStep st)) st1 in
    let st3 := setLastPlayedStep (currentStep st - 1) st2 in
    setTransport true (Some (capture st)) st3.

(** The [while] loop of the legato inference: [nextStep] advances while the
    key of the same pitch is truthy.  [None] when [fuel] iterations were not
    enough for the loop to exit. *)
Fixpoint sustainLoop (fuel : nat) (track : TrackData) (noteWithOctave : string)
    (nextStep durationSteps : Z) : option Z :=
  match fuel with
  | O => None
  | S fuel' =>
      if Track.truthy (Track.get track (noteKey noteWithOctave nextStep))
      then sustainLoop fuel' track noteWithOctave (nextStep + 1) (durationSteps + 1)
      else Some durationSteps
  end.

(** Every iteration but the last reads a different truthy key of [track],
    so the loop exits within [length track + 1] iterations; see
    [sustainLoop_total]. *)
Definition sustainFuel (track : TrackData) : nat := S (length track).

(** The body of [Object.keys(track).forEach] for one [key]. *)
Definition playKey (inst : InstrumentType) (track : TrackData)
    (currentStepPos : Z) (time : Q) (key : string) : list Trigger :=
  let parts := Js.split Js.dash key in
  let noteWithOctave := default "undefined" (parts !! 0%nat) in
  let stepStr := parts !! 1%nat in
  let step := Js.parseInt_opt stepStr in
  if bool_decide (step = Some currentStepPos) && Track.truthy (Track.get track key)
  then
    if InstrumentType_eqb inst drum then
      [mkTrigger inst noteWithOctave Dur16n (Some time)]
    else
      let prevKey := noteKey noteWithOctave (currentStepPos - 1) in
      let isContinuation :=
        (currentStepPos >? 0) && Track.truthy (Track.get track prevKey) in
      if negb isContinuation then
        match
          sustainLoop (sustainFuel track) track noteWithOctave
            (currentStepPos + 1) 1
        with
        | Some durationSteps =>
            [mkTrigger inst noteWithOctave (DurSteps durationSteps) (Some time)]
        | None => []
        end
      else []
  else [].

(** The body of [instrumentKeys.forEach] for one instrument. *)
Definition playInstrument (cl : Closure) (st : AppState) (currentStepPos : Z)
    (time : Q) (inst : InstrumentType) : list Trigger :=
  let track := track_of (cl_tracks cl) inst in
  if synthsCurrent st then
    match settings_type inst, cl_isSamplesLoaded cl with
    | sampler, false => []
    | _, _ => flat_map (playKey inst track currentStepPos time) (Track.keys track)
    end
  else [].

(** [stepPos % totalSteps] of the transport position.  [%] is the
    remainder with the sign of the dividend; [measures] is at least 1 in
    every state the component reaches, so [totalSteps] is not 0. *)
Definition stepOfPosition (measures : Z) (p : Position) : Z :=
  let stepPos := bars p * 16 + beats p * 4 + Math_round (sixteenths p) in
  let totalSteps := measures * 16 in
  Z.rem stepPos totalSteps.

(** The tick handler. *)
Definition repeat (cl : Closure) (time : Q) (st : AppState)
  : AppState * list Trigger :=
  let currentStepPos := stepOfPosition (cl_measures cl) (transportPosition st) in
  let st1 := setCurrentStep currentStepPos st in
  if negb (currentStepPos =? lastPlayedStep st) then
    let st2 := setLastPlayedStep currentStepPos st1 in
    let currentMode := playbackTypeRef st in
    let instrumentKeys :=
      if PlaybackType_eqb currentMode (Some all) then instrument_keys
      else [selectedInstrumentRef st] in
    (st2, flat_map (playInstrument cl st currentStepPos time) instrumentKeys)
  else (st1, []).

(** One firing of the transport clock: the clock has reached [pos] and
    calls the scheduled callback, if any, with audio time [time]. *)
Definition tick (pos : Position) (time : Q) (st : AppState)
  : AppState * list Trigger :=
  let st0 := setTransportPosition pos st in
  match scheduled st0 with
  | Some cl => repeat cl time st0
  | None => (st0, [])
  end.

(** A dispatched note with the step at which it was dispatched. *)
Definition Dispatch : Type := Z * Trigger.

(** A playback pass: the handler run over a sequence of clock readings; each
    trigger is recorded with the cursor of the tick that produced it. *)
Fixpoint playback (cl : Closure) (ticks : list (Position * Q)) (st : AppState)
  : AppState * list Dispatch :=
  match ticks with
  | [] => (st, [])
  | (pos, time) :: ticks' =>
      let '(st1, out) := repeat cl time (setTransportPosition pos st) in
      let '(st2, outs) := playback cl ticks' st1 in
      (st2, (pair (currentStep st1) <$> out) ++ outs)
  end.

(** The [(pitch, onset-step, duration)] triple of a dispatched note. *)
Definition triple (d : Dispatch) : string * Z * Duration :=
  (tr_note d.2, d.1, tr_duration d.2).

(** A trigger without its audio time: channel, pitch and duration. *)
Definition voiceCall (tr : Trigger) : InstrumentType * string * Duration :=
  (tr_inst tr, tr_note tr, tr_duration tr).

(** A dispatched note without its audio time. *)
Definition untimed (d : Dispatch) : Z * (InstrumentType * string * Duration) :=
  (d.1, voiceCall d.2).

(** Grid predicates used in the statements below. *)

(** The cell of [noteWithOctave] at [step] is active. *)
Definition active (track : TrackData) (noteWithOctave : string) (step : Z) : bool :=
  Track.truthy (Track.get track (noteKey noteWithOctave step)).

Fixpoint dashFree (s : string) : bool :=
  match s with
  | EmptyString => true
  | String c s' => negb (Ascii.eqb c Js.dash) && dashFree s'
  end.

(** Keys as the editor and the chord generator write them: a pitch without
    a dash, a dash, and the decimal numeral of a step that is not
    negative; one entry per key. *)
Definition wfKey (key : string) : Prop :=
  exists noteWithOctave step,
    dashFree noteWithOctave = true /\ 0 <= step /\
    key = noteKey noteWithOctave step.

Definition wfTrack (track : TrackData) : Prop :=
  NoDup (Track.keys track) /\ Forall wfKey (Track.keys track).

Definition wfTracks (ts : AllTracks) : Prop :=
  forall inst, wfTrack (track_of ts inst).

(** The two guards at the head of [addChord]. *)
Definition chordRefused (st : AppState) : Prop :=
  selectedInstrument st = drum \/ indexOf NOTE_NAMES (selectedRoot st) = -1.

(** The octave of the chord tone [interval] semitones above the root. *)
Definition toneOctave (st : AppState) (interval : Z) : Z :=
  selectedOctave st + (indexOf NOTE_NAMES (selectedRoot st) + interval) / 12.

(** The pitch class of that tone. *)
Definition toneName (st : AppState) (interval : Z) : string :=
  nameAt NOTE_NAMES (Z.rem (indexOf NOTE_NAMES (selectedRoot st) + interval) 12).

(** The exclusive end of the steps [addChord] writes. *)
Definition chordEnd (st : AppState) : Z :=
  Z.min (currentStep st + chordDuration st * 4) (measures st * 16).

(** The voice of [inst] exists and, if it is a sampler, the closure saw
    its samples loaded: the two tests that precede the key loop. *)
Definition voiceReady (cl : Closure) (st : AppState) (inst : InstrumentType)
  : bool :=
  synthsCurrent st &&
  match settings_type inst with
  | sampler => cl_isSamplesLoaded cl
  | synth => true
  end.

(** [inst] is among the [instrumentKeys] of the current mode. *)
Definition dispatches (st : AppState) (inst : InstrumentType) : bool :=
  PlaybackType_eqb (playbackTypeRef st) (Some all) ||
  InstrumentType_eqb (selectedInstrumentRef st) inst.

(** The trigger is a note [noteWithOctave] on channel [inst]. *)
Definition isNoteOf (inst : InstrumentType) (noteWithOctave : string)
    (tr : Trigger) : bool :=
  InstrumentType_eqb (tr_inst tr) inst && String.eqb (tr_note tr) noteWithOctave.

(** A computable test for [wfKey] and [wfTrack]. *)
Definition wfKeyb (key : string) : bool :=
  match Js.split Js.dash key with
  | [noteWithOctave; stepStr] =>
      match Js.parseInt stepStr with
      | Some step => (0 <=? step) && String.eqb key (noteKey noteWithOctave step)
      | None => false
      end
  | _ => false
  end.

Definition wfTrackb (track : TrackData) : bool :=
  bool_decide (NoDup (Track.keys track)) && forallb wfKeyb (Track.keys track).

(** ** Scenarios

    States reached through the operations above, used as concrete inputs
    below. *)

Module Scenario.

(** A sequence of clicks on grid cells. *)
Definition clicks (cells : list (string * Z * Z)) (st : AppState) : AppState :=
  foldl (fun s '(note, octave, step) => (toggleNote note octave step None s).1)
    st cells.

Definition mounted : AppState := mountSynths initialState.

(** The header cell at [step] clicked, then Split pressed twice: the beat
    of [step] shows four cells. *)
Definition splitInFour (step : Z) (st : AppState) : AppState :=
  toggleSplitAtPlayhead (toggleSplitAtPlayhead (seek step st)).

(** Piano: beat 1 split in four; C4 held over the steps 4, 5 and 6, and a
    D4 at step 5. *)
Definition legato : AppState :=
  clicks [("C", 4, 4); ("C", 4, 5); ("C", 4, 6); ("D", 4, 5)]
    (splitInFour 4 mounted).

(** The track played from the cursor, which is at step 4. *)
Definition legatoPlaying : AppState := startPlayback current legato.

(** The clock at the steps 4, 5 and 6, with the audio times of the calls. *)
Definition legatoTicks : list (Position * Q) :=
  [ (mkPosition 0 1 0, 0%Q); (mkPosition 0 1 1, 1 # 8); (mkPosition 0 1 2, 1 # 4) ].

(** The same positions with other audio times. *)
Definition legatoTicksLate : list (Position * Q) :=
  [ (mkPosition 0 1 0, 2%Q); (mkPosition 0 1 1, 17 # 8); (mkPosition 0 1 2, 9 # 4) ].

(** Piano: beats 3 and 4 split in four and C4 entered at the steps 15, 16
    and 17, with four measures; the arrangement is then shortened to one
    measure, one click at a time, which puts the cursor back to step 0; the
    track is then played. *)
Definition shrunk : AppState :=
  updateMeasures 1
    (updateMeasures 2
       (updateMeasures 3
          (clicks [("C", 4, 15); ("C", 4, 16); ("C", 4, 17)]
             (splitInFour 16 (splitInFour 12 mounted))))).

Definition shrunkPlaying : AppState := startPlayback current shrunk.

(** Playback started with four measures; the arrangement is shortened to
    one measure while it runs; the callback scheduled at the start still
    wraps at 64 steps and moves the cursor to step 16. *)
Definition overrun : AppState :=
  (tick (mkPosition 1 0 0) 0
     (updateMeasures 1
        (updateMeasures 2 (updateMeasures 3 (startPlayback all mounted))))).1.

(** The chord dialog opened in that state. *)
Definition overrunDialog : AppState := setShowChordSelector true overrun.

(** The chord dialog opened on the piano with the default selections. *)
Definition dialog : AppState := setShowChordSelector true mounted.

(** B major seventh in octave 6 on the guitar for one beat, the cursor on
    step 62 of four measures (the last beat split in two): the tones above
    B fall in octave 7, and the arrangement ends after step 63. *)
Definition highChord : AppState :=
  selectChord "B" "major7" 6 1
    (setShowChordSelector true
       (setSelectedInstrument guitar
          (seek 62 (toggleSplitAtPlayhead (seek 60 mounted))))).

(** The cursor in beat 2. *)
Definition beatTwo : AppState := seek 8 mounted.

End Scenario.

(** ** Proof tactics *)

(** Discharge the first premise of [H] by [tac]. *)
Ltac discharge_first H tac :=
  match type of H with
  | ?A -> _ =>
      let Ha := fresh in
      assert (Ha : A) by tac; specialize (H Ha); clear Ha
  end.

Tactic Notation "discharge" hyp(H) "by" tactic3(tac) := discharge_first H tac.

(** ** Further handlers of the component *)

(** One call [synth.triggerAttackRelease(note, '8n', time)] of the chord
    preview. *)
Record PreviewCall := mkPreviewCall {
  pv_inst : InstrumentType;
  pv_note : string;
  pv_time : Q
}.

(** The body of [chordIntervals.forEach((interval, i) => ...)] in
    [playChordPreview]; [synth] tells whether the voice exists. *)
Definition previewTone (inst : InstrumentType) (rootIndex selectedOctave : Z)
    (now : Q) (synth : bool) (i : nat) (interval : Z) : option PreviewCall :=
  let noteIndex := Z.rem (rootIndex + interval) 12 in
  let octaveOffset := (rootIndex + interval) / 12 in
  let noteName_ := nameAt NOTE_NAMES noteIndex in
  let noteOctave := selectedOctave + octaveOffset in
  if (noteOctave >=? 1) && (noteOctave <=? 6) then
    if synth then
      Some (mkPreviewCall inst (noteName noteName_ noteOctave)
              (now + inject_Z (Z.of_nat i) * (1 # 20)))
    else None
  else None.

(** [playChordPreview], with [now = Tone.now()]. *)
Definition playChordPreview (now : Q) (st : AppState) : list PreviewCall :=
  if InstrumentType_eqb (selectedInstrument st) drum then []
  else
    let rootIndex := indexOf NOTE_NAMES (selectedRoot st) in
    if rootIndex =? -1 then []
    else
      let chordIntervals := chordIntervalsOf CHORDS (selectedChord st) in
      let synth := synthsCurrent st in
      match settings_type (selectedInstrument st), isSamplesLoaded st with
      | sampler, false => []
      | _, _ =>
          omap id
            (imap (previewTone (selectedInstrument st) rootIndex
                     (selectedOctave st) now synth)
               chordIntervals)
      end.

(** [onMouseEnter] of a note cell: with the button down and a cell toggled
    before, the entered cell is forced to the negation of what the last
    toggled cell reads in this render. *)
Definition cellMouseEnter (isMouseDown : bool) (note : string)
    (octave absoluteStep : Z) (st : AppState) : AppState * list Trigger :=
  if isMouseDown then
    match lastToggled st with
    | Some (lnote, loctave, lstep) =>
        toggleNote note octave absoluteStep
          (Some
             (negb
                (Track.truthy
                   (Track.get (track_of (tracks st) (selectedInstrument st))
                      (noteId lnote loctave lstep)))))
          st
    | None => (st, [])
    end
  else (st, []).

(** The rows of the piano roll: the drum rows for the percussion channel,
    otherwise every note of every octave of [OCTAVES]. *)
Definition gridRows (inst : InstrumentType) : list (string * Z) :=
  if InstrumentType_eqb inst drum
  then (fun d => (d.1.2, d.2)) <$> DRUM_MAPPING
  else flat_map (fun octave => (fun note => (note, octave)) <$> NOTES) OCTAVES.

(** The options of the chord dialog. *)
Definition CHORD_OPTIONS : list string :=
  ["major"; "minor"; "major7"; "minor7"; "dominant7"].
Definition DURATION_OPTIONS : list Z := [1; 2; 3; 4; 8].

(** A clock reading of a started transport: no field is negative. *)
Definition clockPosition (p : Position) : Prop :=
  0 <= bars p /\ 0 <= beats p /\ (0 <= sixteenths p)%Q.

(** ** The states of the component

    The states the component reaches from its initial state through the
    mount effect, the handlers bound in the rendered tree and the firings of
    the transport clock. *)
Inductive Reachable : AppState -> Prop :=
  | R_initial : Reachable initialState
  | R_mount st : Reachable st -> Reachable (mountSynths st)
  | R_loaded st : Reachable st -> Reachable (samplesLoaded st)
  | R_instrument st inst :
      Reachable st -> Reachable (setSelectedInstrument inst st)
  | R_dialog st b : Reachable st -> Reachable (setShowChordSelector b st)
  | R_select st root chord octave duration :
      Reachable st ->
      root ∈ NOTE_NAMES -> chord ∈ CHORD_OPTIONS ->
      octave ∈ OCTAVE_RANGE -> duration ∈ DURATION_OPTIONS ->
      Reachable (selectChord root chord octave duration st)
  | R_addChord st : Reachable st -> Reachable (addChord st)
  | R_measures_less st :
      Reachable st -> Reachable (updateMeasures (measures st - 1) st)
  | R_measures_more st :
      Reachable st -> Reachable (updateMeasures (measures st + 1) st)
  | R_split st : Reachable st -> Reachable (toggleSplitAtPlayhead st)
  | R_seek st absoluteStep :
      Reachable st ->
      absoluteStep ∈ gridSteps (beatDivisions st) (measures st) ->
      Reachable (seek absoluteStep st)
  | R_click st note octave absoluteStep :
      Reachable st ->
      (note, octave) ∈ gridRows (selectedInstrument st) ->
      absoluteStep ∈ gridSteps (beatDivisions st) (measures st) ->
      Reachable (toggleNote note octave absoluteStep None st).1
  | R_enter st isMouseDown note octave absoluteStep :
      Reachable st ->
      (note, octave) ∈ gridRows (selectedInstrument st) ->
      absoluteStep ∈ gridSteps (beatDivisions st) (measures st) ->
      Reachable (cellMouseEnter isMouseDown note octave absoluteStep st).1
  | R_clear st : Reachable st -> Reachable (clearTrack st)
  | R_start st type : Reachable st -> Reachable (startPlayback type st)
  | R_tick st pos time :
      Reachable st -> clockPosition pos -> Reachable (tick pos time st).1.

(** What every reachable state satisfies. *)
Record Invariant (st : AppState) : Prop := mkInvariant {
  inv_tracks : wfTracks (tracks st);
  inv_cursor : 0 <= currentStep st;
  inv_measures : 1 <= measures st <= 16;
  inv_divisions : forall b, divisionOf (beatDivisions st) b ∈ [1; 2; 4];
  inv_root : selectedRoot st ∈ NOTE_NAMES;
  inv_chord : selectedChord st ∈ CHORD_OPTIONS;
  inv_octave : selectedOctave st ∈ OCTAVE_RANGE;
  inv_duration : chordDuration st ∈ DURATION_OPTIONS;
  inv_refs :
    playbackTypeRef st = playbackType st /\
    selectedInstrumentRef st = selectedInstrument st;
  inv_transport :
    transportStarted st = negb (PlaybackType_eqb (playbackType st) None) /\
    (scheduled st = None <-> playbackType st = None);
  inv_closure :
    forall cl, scheduled st = Some cl ->
               wfTracks (cl_tracks cl) /\ 1 <= cl_measures cl <= 16
}.

(** ** The earlier copy of the component

    The same component before legato playback and sample loading were
    added: chords are refused on the violin too, the chord table has seven
    types, and the tick handler picks the keys of a step by their suffix and
    plays every note for ['16n'].  The state and the other handlers are
    those above. *)

Module Earlier.

Definition CHORDS : list (string * list Z) :=
  [ ("major", [0; 4; 7]);
    ("minor", [0; 3; 7]);
    ("augmented", [0; 4; 8]);
    ("diminished", [0; 3; 6]);
    ("major7", [0; 4; 7; 11]);
    ("minor7", [0; 3; 7; 10]);
    ("dominant7", [0; 4; 7; 10]) ].

(** [s.endsWith(suffix)]: some tail of [s] is [suffix]. *)
Fixpoint endsWith (s suffix : string) : bool :=
  String.eqb s suffix ||
  match s with
  | EmptyString => false
  | String _ s' => endsWith s' suffix
  end.

(** The keys [addChord] assigns, after its guards. *)
Definition addChordWrites (st : AppState) : list string :=
  if InstrumentType_eqb (selectedInstrument st) drum
     || InstrumentType_eqb (selectedInstrument st) violin then []
  else
    let rootIndex := indexOf NOTE_NAMES (selectedRoot st) in
    if rootIndex =? -1 then []
    else
      let chordIntervals := chordIntervalsOf CHORDS (selectedChord st) in
      let startBeat := currentStep st in
      let endStep :=
        Z.min (startBeat + chordDuration st * 4) (measures st * 16) in
      chordWrites rootIndex (selectedOctave st) chordIntervals startBeat endStep.

Definition addChord (st : AppState) : AppState :=
  if InstrumentType_eqb (selectedInstrument st) drum
     || InstrumentType_eqb (selectedInstrument st) violin then st
  else
    let rootIndex := indexOf NOTE_NAMES (selectedRoot st) in
    if rootIndex =? -1 then st
    else
      let chordIntervals := chordIntervalsOf CHORDS (selectedChord st) in
      let newNotes := track_of (tracks st) (selectedInstrument st) in
      let startBeat := currentStep st in
      let endStep :=
        Z.min (startBeat + chordDuration st * 4) (measures st * 16) in
      let newNotes :=
        writeAll newNotes
          (chordWrites rootIndex (selectedOctave st) chordIntervals
             startBeat endStep) in
      setShowChordSelector false
        (setTracks (fun prev => with_track prev (selectedInstrument st) newNotes)
           st).

(** The body of [Object.keys(track).forEach] for one [key]. *)
Definition playKey (inst : InstrumentType) (track : TrackData)
    (currentStepPos : Z) (time : Q) (key : string) : list Trigger :=
  if endsWith key ("-" ++ Js.string_of_Z currentStepPos)
     && Track.truthy (Track.get track key)
  then
    let noteWithOctave := default "undefined" (Js.split Js.dash key !! 0%nat) in
    [mkTrigger inst noteWithOctave Dur16n (Some time)]
  else [].

(** The body of [instrumentKeys.forEach] for one instrument. *)
Definition playInstrument (cl : Closure) (st : AppState) (currentStepPos : Z)
    (time : Q) (inst : InstrumentType) : list Trigger :=
  let track := track_of (cl_tracks cl) inst in
  if synthsCurrent st
  then flat_map (playKey inst track currentStepPos time) (Track.keys track)
  else [].

(** The tick handler; the calls it makes when no voice throws. *)
Definition repeat (cl : Closure) (time : Q) (st : AppState)
  : AppState * list Trigger :=
  let currentStepPos := stepOfPosition (cl_measures cl) (transportPosition st) in
  let st1 := setCurrentStep currentStepPos st in
  if negb (currentStepPos =? lastPlayedStep st) then
    let st2 := setLastPlayedStep currentStepPos st1 in
    let currentMode := playbackTypeRef st in
    let instrumentKeys :=
      if PlaybackType_eqb currentMode (Some all) then instrument_keys
      else [selectedInstrumentRef st] in
    (st2, flat_map (playInstrument cl st currentStepPos time) instrumentKeys)
  else (st1, []).

End Earlier.

(** ** The first version of the component ([src/App.tsx])

    One synthesizer, one track, and a grid of beats: a cell is a beat, four
    to the measure, and every note is played for ['8n']. *)

Module Basic.

Definition MIN_BPM : Z := 40.
Definition MAX_BPM : Z := 200.

Definition CHORDS : list (string * list Z) :=
  [ ("major", [0; 4; 7]);
    ("minor", [0; 3; 7]);
    ("augmented", [0; 4; 8]);
    ("diminished", [0; 3; 6]);
    ("major7", [0; 4; 7; 11]);
    ("minor7", [0; 3; 7; 10]);
    ("dominant7", [0; 4; 7; 10]) ].

(** One call [synth.current?.triggerAttackRelease(note, '8n', time)]; the
    calls of [toggleNote] pass no time. *)
Record Attack := mkAttack {
  at_note : string;
  at_time : option Q
}.

(** What the scheduled [repeat] closes over. *)
Record Closure := mkClosure {
  cl_notes : TrackData;
  cl_measures : Z
}.

(** The component state, the refs and the part of [Tone.Transport] the
    component drives. *)
Record State := mkState {
  notes : TrackData;
  isPlaying : bool;
  currentBeat : Z;
  bpm : Z;
  measures : Z;
  isMouseDown : bool;
  lastToggled : option (string * Z * Z);
  showChordSelector : bool;
  selectedChord : string;
  selectedRoot : string;
  selectedOctave : Z;
  chordDuration : Z;
  synthCurrent : bool;
  lastPlayedBeat : Z;
  transportPosition : Position;
  transportStarted : bool;
  scheduled : option Closure
}.

Definition initialState : State :=
  {| notes := [];
     isPlaying := false;
     currentBeat := 0;
     bpm := DEFAULT_BPM;
     measures := 4;
     isMouseDown := false;
     lastToggled := None;
     showChordSelector := false;
     selectedChord := "major";
     selectedRoot := "C";
     selectedOctave := 4;
     chordDuration := 1;
     synthCurrent := false;
     lastPlayedBeat := -1;
     transportPosition := position0;
     transportStarted := false;
     scheduled := None |}.

Definition setNotes (f : TrackData -> TrackData) (st : State) : State :=
  mkState (f (notes st)) (isPlaying st) (currentBeat st) (bpm st)
    (measures st) (isMouseDown st) (lastToggled st) (showChordSelector st)
    (selectedChord st) (selectedRoot st) (selectedOctave st)
    (chordDuration st) (synthCurrent st) (lastPlayedBeat st)
    (transportPosition st) (transportStarted st) (scheduled st).

Definition setCurrentBeat (b : Z) (st : State) : State :=
  mkState (notes st) (isPlaying st) b (bpm st) (measures st) (isMouseDown st)
    (lastToggled st) (showChordSelector st) (selectedChord st)
    (selectedRoot st) (selectedOctave st) (chordDuration st) (synthCurrent st)
    (lastPlayedBeat st) (transportPosition st) (transportStarted st)
    (scheduled st).

Definition setMeasures (m : Z) (st : State) : State :=
  mkState (notes st) (isPlaying st) (currentBeat st) (bpm st) m
    (isMouseDown st) (lastToggled st) (showChordSelector st)
    (selectedChord st) (selectedRoot st) (selectedOctave st)
    (chordDuration st) (synthCurrent st) (lastPlayedBeat st)
    (transportPosition st) (transportStarted st) (scheduled st).

Definition setIsMouseDown (b : bool) (st : State) : State :=
  mkState (notes st) (isPlaying st) (currentBeat st) (bpm st) (measures st) b
    (lastToggled st) (showChordSelector st) (selectedChord st)
    (selectedRoot st) (selectedOctave st) (chordDuration st) (synthCurrent st)
    (lastPlayedBeat st) (transportPosition st) (transportStarted st)
    (scheduled st).

Definition setLastToggled (c : string * Z * Z) (st : State) : State :=
  mkState (notes st) (isPlaying st) (currentBeat st) (bpm st) (measures st)
    (isMouseDown st) (Some c) (showChordSelector st) (selectedChord st)
    (selectedRoot st) (selectedOctave st) (chordDuration st) (synthCurrent st)
    (lastPlayedBeat st) (transportPosition st) (transportStarted st)
    (scheduled st).

Definition setShowChordSelector (b : bool) (st : State) : State :=
  mkState (notes st) (isPlaying st) (currentBeat st) (bpm st) (measures st)
    (isMouseDown st) (lastToggled st) b (selectedChord st) (selectedRoot st)
    (selectedOctave st) (chordDuration st) (synthCurrent st)
    (lastPlayedBeat st) (transportPosition st) (transportStarted st)
    (scheduled st).

(** [lastPlayedBeat.current = b] *)
Definition setLastPlayedBeat (b : Z) (st : State) : State :=
  mkState (notes st) (isPlaying st) (currentBeat st) (bpm st) (measures st)
    (isMouseDown st) (lastToggled st) (showChordSelector st)
    (selectedChord st) (selectedRoot st) (selectedOctave st)
    (chordDuration st) (synthCurrent st) b (transportPosition st)
    (transportStarted st) (scheduled st).

(** [Tone.Transport.position = p] *)
Definition setTransportPosition (p : Position) (st : State) : State :=
  mkState (notes st) (isPlaying st) (currentBeat st) (bpm st) (measures st)
    (isMouseDown st) (lastToggled st) (showChordSelector st)
    (selectedChord st) (selectedRoot st) (selectedOctave st)
    (chordDuration st) (synthCurrent st) (lastPlayedBeat st) p
    (transportStarted st) (scheduled st).

(** [setIsPlaying] with [Tone.Transport.start()] / [stop()] and
    [scheduleRepeat] / [cancel()]. *)
Definition setPlaying (playing : bool) (cb : option Closure) (st : State) : State :=
  mkState (notes st) playing (currentBeat st) (bpm st) (measures st)
    (isMouseDown st) (lastToggled st) (showChordSelector st)
    (selectedChord st) (selectedRoot st) (selectedOctave st)
    (chordDuration st) (synthCurrent st) (lastPlayedBeat st)
    (transportPosition st) playing cb.

(** The mount effect creating the synthesizer. *)
Definition mountSynth (st : State) : State :=
  mkState (notes st) (isPlaying st) (currentBeat st) (bpm st) (measures st)
    (isMouseDown st) (lastToggled st) (showChordSelector st)
    (selectedChord st) (selectedRoot st) (selectedOctave st)
    (chordDuration st) true (lastPlayedBeat st) (transportPosition st)
    (transportStarted st) (scheduled st).

(** The selects of the chord dialog. *)
Definition selectChord (root chord : string) (octave duration : Z) (st : State) : State :=
  mkState (notes st) (isPlaying st) (currentBeat st) (bpm st) (measures st)
    (isMouseDown st) (lastToggled st) (showChordSelector st) chord root octave
    duration (synthCurrent st) (lastPlayedBeat st) (transportPosition st)
    (transportStarted st) (scheduled st).

Definition capture (st : State) : Closure := mkClosure (notes st) (measures st).

Definition updateMeasures (newMeasures : Z) (st : State) : State :=
  let clampedMeasures :=
    Z.min (Z.max newMeasures MIN_MEASURES) MAX_MEASURES in
  let st1 := setMeasures clampedMeasures st in
  let totalBeats := clampedMeasures * BEATS_PER_MEASURE in
  if currentBeat st >=? totalBeats then
    let st2 := setCurrentBeat 0 st1 in
    if isPlaying st then setTransportPosition position0 st2 else st2
  else st1.

(** [synth.current?.triggerAttackRelease(note, '8n', time)] *)
Definition attack (st : State) (note : string) (time : option Q) : list Attack :=
  if synthCurrent st then [mkAttack note time] else [].

Definition toggleNote (note : string) (octave beat : Z)
    (forceState : option bool) (st : State) : State * list Attack :=
  let noteId := noteId note octave beat in
  let newState :=
    match forceState with
    | Some b => b
    | None => negb (Track.truthy (Track.get (notes st) noteId))
    end in
  let st1 := setNotes (fun prev => Track.set prev noteId newState) st in
  let st2 := setLastToggled (note, octave, beat) st1 in
  if newState then (st2, attack st (noteName note octave) None) else (st2, []).

Definition clearAllNotes (st : State) : State := setNotes (fun _ => []) st.

(** The body of [chordIntervals.forEach] for one [beat]. *)
Definition chordTone (rootIndex selectedOctave beat interval : Z) : option string :=
  let noteIndex := Z.rem (rootIndex + interval) 12 in
  let octaveOffset := (rootIndex + interval) / 12 in
  let noteName := nameAt NOTE_NAMES noteIndex in
  let noteOctave := selectedOctave + octaveOffset in
  if (noteOctave >=? 1) && (noteOctave <=? 6)
  then Some (noteId noteName noteOctave beat)
  else None.

(** The keys [addChord] assigns, in the order of assignment. *)
Definition addChordWrites (st : State) : list string :=
  let rootIndex := indexOf NOTE_NAMES (selectedRoot st) in
  if rootIndex =? -1 then []
  else
    let chordIntervals := chordIntervalsOf CHORDS (selectedChord st) in
    let startBeat := currentBeat st in
    let endBeat :=
      Z.min (startBeat + chordDuration st) (measures st * BEATS_PER_MEASURE) in
    flat_map
      (fun beat => omap (chordTone rootIndex (selectedOctave st) beat) chordIntervals)
      (seqZ startBeat (endBeat - startBeat)).

Definition addChord (st : State) : State :=
  let rootIndex := indexOf NOTE_NAMES (selectedRoot st) in
  if rootIndex =? -1 then st
  else
    let newNotes := writeAll (notes st) (addChordWrites st) in
    setShowChordSelector false (setNotes (fun _ => newNotes) st).

(** [`${targetMeasure}:${targetBeat}:0`] *)
Definition positionOfBeat (beat : Z) : Position :=
  mkPosition (beat / BEATS_PER_MEASURE) (Z.rem beat BEATS_PER_MEASURE) 0.

Definition handleBeatHeaderClick (beat : Z) (st : State) : State :=
  let st1 := if isPlaying st then setPlaying false None st else st in
  setTransportPosition (positionOfBeat beat)
    (setLastPlayedBeat (beat - 1) (setCurrentBeat beat st1)).

(** [playPause], with the effect on [isPlaying] that schedules [repeat]
    again as it is in the render that follows. *)
Definition playPause (st : State) : State :=
  if isPlaying st then setPlaying false None st
  else
    let st1 := setTransportPosition (positionOfBeat (currentBeat st)) st in
    let st2 := setLastPlayedBeat (currentBeat st - 1) st1 in
    setPlaying true (Some (capture st)) st2.

(** The rows of the piano roll, top to bottom. *)
Definition rows : list (string * Z) :=
  flat_map (fun octave => (fun note => (note, octave)) <$> NOTES) OCTAVES.

(** The body of the two nested loops of [repeat] for one row. *)
Definition playRow (cl : Closure) (st : State) (currentBeat : Z) (time : Q)
    (row : string * Z) : list Attack :=
  let noteId := noteId row.1 row.2 currentBeat in
  if Track.truthy (Track.get (cl_notes cl) noteId)
  then attack st (noteName row.1 row.2) (Some time)
  else [].

(** [currentTransportBeat % totalBeats] *)
Definition beatOfPosition (measures : Z) (p : Position) : Z :=
  let currentTransportBeat := bars p * BEATS_PER_MEASURE + beats p in
  let totalBeats := measures * BEATS_PER_MEASURE in
  Z.rem currentTransportBeat totalBeats.

(** The tick handler. *)
Definition repeat (cl : Closure) (time : Q) (st : State) : State * list Attack :=
  let currentBeat := beatOfPosition (cl_measures cl) (transportPosition st) in
  let st1 := setCurrentBeat currentBeat st in
  if negb (currentBeat =? lastPlayedBeat st) then
    let st2 := setLastPlayedBeat currentBeat st1 in
    (st2, flat_map (playRow cl st currentBeat time) rows)
  else (st1, []).

(** One firing of the transport clock at position [pos]. *)
Definition tick (pos : Position) (time : Q) (st : State) : State * list Attack :=
  let st0 := setTransportPosition pos st in
  match scheduled st0 with
  | Some cl => repeat cl time st0
  | None => (st0, [])
  end.

Definition handleCellMouseEnter (note : string) (octave beat : Z) (st : State)
  : State * list Attack :=
  match isMouseDown st, lastToggled st with
  | true, Some (lnote, loctave, lbeat) =>
      if negb (String.eqb lnote note) || negb (loctave =? octave)
         || negb (lbeat =? beat)
      then
        let lastState :=
          Track.truthy (Track.get (notes st) (noteId lnote loctave lbeat)) in
        toggleNote note octave beat (Some (negb lastState)) st
      else (st, [])
  | _, _ => (st, [])
  end.

(** B major seventh in octave 6 for one beat, the cursor on beat 0. *)
Definition highChord : State :=
  selectChord "B" "major7" 6 1 (mountSynth initialState).

(** C4 entered on beat 5 of the four measures. *)
Definition tune : State :=
  (toggleNote "C" 4 5 None (mountSynth initialState)).1.

End Basic.

(** ** Further states of the component *)

Module Stage.


(** Split pressed once on the freshly mounted component: the first beat
    shows two cells. *)
Definition splitOnce : AppState := toggleSplitAtPlayhead Scenario.mounted.

End Stage.

(** * Properties *)

(** ** Numerals, [parseInt] and [split] *)

Section Numerals.

Import Decimal.

Lemma parse_digits_acc d acc :
  Js.parse_digits 10 (NilEmpty.string_of_uint d) true (Z.pos acc)
  = Some (Z.pos (Pos.of_uint_acc d acc)).
Proof.
  revert acc. induction d as [|d IH|d IH|d IH|d IH|d IH|d IH|d IH|d IH|d IH|d IH];
    intros acc; [reflexivity|..];
    cbn [NilEmpty.string_of_uint Js.parse_digits Pos.of_uint_acc];
    match goal with
    | |- context [Js.digit_value 10 ?c] =>
        let v := eval vm_compute in (Js.digit_value 10 c) in
        change (Js.digit_value 10 c) with v
    end; cbv beta iota; rewrite <- IH; f_equal; lia.
Qed.

Lemma parse_digits_uint d :
  d <> Nil ->
  Js.parse_digits 10 (NilEmpty.string_of_uint d) false 0
  = Some (Z.of_N (Pos.of_uint d)).
Proof.
  assert (H0 : forall d, Js.parse_digits 10 (NilEmpty.string_of_uint d) true 0
                         = Some (Z.of_N (Pos.of_uint d))).
  { clear d. induction d as [|d IH|d IH|d IH|d IH|d IH|d IH|d IH|d IH|d IH|d IH];
      [reflexivity|exact IH|..];
      cbn [NilEmpty.string_of_uint Js.parse_digits Pos.of_uint];
      match goal with
      | |- context [Js.digit_value 10 ?c] =>
          let v := eval vm_compute in (Js.digit_value 10 c) in
          change (Js.digit_value 10 c) with v
      end; cbv beta iota; apply parse_digits_acc. }
  destruct d; intros Hd; try congruence; try apply (H0 (D0 d));
    cbn [NilEmpty.string_of_uint Js.parse_digits Pos.of_uint];
      match goal with
      | |- context [Js.digit_value 10 ?c] =>
          let v := eval vm_compute in (Js.digit_value 10 c) in
          change (Js.digit_value 10 c) with v
      end; cbv beta iota; apply parse_digits_acc.
Qed.

Lemma parse_unsigned_uint d :
  d <> Nil ->
  Js.parse_unsigned (NilEmpty.string_of_uint d) = Some (Z.of_N (Pos.of_uint d)).
Proof.
  intros Hd. rewrite <- (parse_digits_uint d Hd).
  destruct d as [|d|d|d|d|d|d|d|d|d|d]; try congruence; try reflexivity.
  destruct d; reflexivity.
Qed.

Lemma parseInt_uint d :
  d <> Nil ->
  Js.parseInt (NilEmpty.string_of_uint d) = Some (Z.of_N (Pos.of_uint d)).
Proof.
  intros Hd. rewrite <- (parse_unsigned_uint d Hd).
  destruct d; try congruence; reflexivity.
Qed.

Lemma string_of_uint_nonnil d :
  d <> Nil -> NilZero.string_of_uint d = NilEmpty.string_of_uint d.
Proof. destruct d; [congruence | reflexivity..]. Qed.

Lemma parseInt_string_of_Z z : Js.parseInt (Js.string_of_Z z) = Some z.
Proof.
  destruct z as [|p|p]; [reflexivity|..]; unfold Js.string_of_Z;
    cbn [Z.to_int NilZero.string_of_int];
    rewrite string_of_uint_nonnil by apply DecimalPos.Unsigned.to_uint_nonnil.
  - rewrite parseInt_uint by apply DecimalPos.Unsigned.to_uint_nonnil.
    now rewrite DecimalPos.Unsigned.of_to.
  - change (Js.parseInt (String "-" ?s)) with (Z.opp <$> Js.parse_unsigned s).
    rewrite parse_unsigned_uint by apply DecimalPos.Unsigned.to_uint_nonnil.
    now rewrite DecimalPos.Unsigned.of_to.
Qed.

Lemma string_of_Z_inj a b : Js.string_of_Z a = Js.string_of_Z b -> a = b.
Proof.
  intros H. apply (f_equal Js.parseInt) in H.
  rewrite !parseInt_string_of_Z in H. congruence.
Qed.

Lemma dashFree_uint d : dashFree (NilEmpty.string_of_uint d) = true.
Proof. induction d; cbn; auto. Qed.

Lemma dashFree_string_of_Z z : 0 <= z -> dashFree (Js.string_of_Z z) = true.
Proof.
  destruct z as [|p|p]; [reflexivity| |lia]; intros _.
  unfold Js.string_of_Z; cbn [Z.to_int NilZero.string_of_int].
  rewrite string_of_uint_nonnil by apply DecimalPos.Unsigned.to_uint_nonnil.
  apply dashFree_uint.
Qed.

End Numerals.

Lemma split_dashFree s : dashFree s = true -> Js.split Js.dash s = [s].
Proof.
  unfold Js.dash.
  induction s as [|c s IH]; [reflexivity|]. cbn. unfold Js.dash.
  destruct (Ascii.eqb c "-"); cbn; [discriminate|]. intros H.
  now rewrite IH.
Qed.

Lemma split_append p rest :
  dashFree p = true ->
  Js.split Js.dash (p ++ String Js.dash rest) = p :: Js.split Js.dash rest.
Proof.
  unfold Js.dash.
  induction p as [|c p IH]; [reflexivity|].
  change (String c p +:+ ?r) with (String c (p +:+ r)).
  cbn. unfold Js.dash.
  destruct (Ascii.eqb c "-"); cbn; [discriminate|]. intros H.
  now rewrite IH.
Qed.

Lemma split_noteKey p n :
  dashFree p = true -> 0 <= n ->
  Js.split Js.dash (noteKey p n) = [p; Js.string_of_Z n].
Proof.
  intros Hp Hn. unfold noteKey. 
  change ("-" ++ Js.string_of_Z n)%string with (String Js.dash (Js.string_of_Z n)).
  rewrite split_append by done.
  now rewrite split_dashFree by now apply dashFree_string_of_Z.
Qed.

Lemma append_inj_l (p a b : string) : (p ++ a = p ++ b)%string -> a = b.
Proof. induction p; cbn; [done|]. intros [=]; auto. Qed.

Lemma noteKey_inj_step p a b : noteKey p a = noteKey p b -> a = b.
Proof.
  unfold noteKey. intros H. apply append_inj_l, append_inj_l in H.
  now apply string_of_Z_inj.
Qed.

Lemma noteKey_inj p q a b :
  dashFree p = true -> dashFree q = true -> 0 <= a -> 0 <= b ->
  noteKey p a = noteKey q b -> p = q /\ a = b.
Proof.
  intros Hp Hq Ha Hb H. apply (f_equal (Js.split Js.dash)) in H.
  rewrite !split_noteKey in H by done. injection H as -> H.
  split; [done|]. now apply string_of_Z_inj.
Qed.

(** ** The grid store *)

Lemma get_elem_of t k v : Track.get t k = Some v -> k ∈ Track.keys t.
Proof.
  induction t as [|[k' v'] t IH]; cbn; [done|].
  destruct (String.eqb_spec k' k) as [->|Hne]; intros H.
  - apply list_elem_of_here.
  - apply list_elem_of_further, IH, H.
Qed.

Lemma get_not_elem_of t k : k ∉ Track.keys t -> Track.get t k = None.
Proof.
  intros Hk. destruct (Track.get t k) eqn:E; [|done].
  now apply get_elem_of in E.
Qed.

Lemma active_elem_of t p n : active t p n = true -> noteKey p n ∈ Track.keys t.
Proof.
  unfold active. destruct (Track.get t (noteKey p n)) eqn:E; [|done].
  intros _. eapply get_elem_of, E.
Qed.

Lemma get_set t k v k' :
  Track.get (Track.set t k v) k' = if String.eqb k k' then Some v else Track.get t k'.
Proof.
  induction t as [|[k0 v0] t IH]; cbn.
  - done.
  - destruct (String.eqb_spec k0 k) as [->|Hne]; cbn.
    + destruct (String.eqb_spec k k'); done.
    + rewrite IH. destruct (String.eqb_spec k0 k') as [->|]; [|done].
      destruct (String.eqb_spec k k'); congruence.
Qed.

Lemma keys_set t k v :
  Track.keys (Track.set t k v)
  = if bool_decide (k ∈ Track.keys t) then Track.keys t else Track.keys t ++ [k].
Proof.
  induction t as [|[k0 v0] t IH]; cbn; [done|].
  destruct (String.eqb_spec k0 k) as [->|Hne]; cbn.
  - rewrite bool_decide_eq_true_2; [done|left].
  - unfold Track.keys in *. rewrite IH.
    destruct (decide (k ∈ t.*1)) as [Hin|Hin].
    + rewrite !bool_decide_eq_true_2; [done|by right|done].
    + rewrite !bool_decide_eq_false_2; [done| |done].
      rewrite elem_of_cons. naive_solver.
Qed.

Lemma elem_of_keys_set t k v k' :
  k' ∈ Track.keys (Track.set t k v) <-> k' = k \/ k' ∈ Track.keys t.
Proof.
  rewrite keys_set. case_bool_decide as Hk.
  - naive_solver.
  - rewrite elem_of_app, list_elem_of_singleton. naive_solver.
Qed.

Lemma NoDup_keys_set t k v :
  NoDup (Track.keys t) -> NoDup (Track.keys (Track.set t k v)).
Proof.
  intros Hnd. rewrite keys_set. case_bool_decide as Hk; [done|].
  apply NoDup_app. split_and!; [done| |apply NoDup_singleton].
  intros x Hx ->%list_elem_of_singleton. done.
Qed.

Lemma get_writeAll ids : forall t k,
  Track.get (writeAll t ids) k
  = if bool_decide (k ∈ ids) then Some true else Track.get t k.
Proof.
  unfold writeAll.
  induction ids as [|i ids IH]; intros t k; cbn; [done|].
  rewrite IH, get_set.
  destruct (decide (k ∈ ids)) as [Hin|Hin].
  - rewrite !bool_decide_eq_true_2; [done|by right|done].
  - rewrite (bool_decide_eq_false_2 (k ∈ ids)) by done.
    destruct (String.eqb_spec i k) as [->|Hne].
    + rewrite bool_decide_eq_true_2; [done|left].
    + rewrite bool_decide_eq_false_2; [done|].
      rewrite elem_of_cons. naive_solver.
Qed.

Lemma elem_of_keys_writeAll ids : forall t k,
  k ∈ Track.keys (writeAll t ids) <-> k ∈ ids \/ k ∈ Track.keys t.
Proof.
  unfold writeAll.
  induction ids as [|i ids IH]; intros t k; cbn.
  - rewrite elem_of_nil. naive_solver.
  - rewrite IH, elem_of_keys_set, elem_of_cons. naive_solver.
Qed.

Lemma NoDup_keys_writeAll ids : forall t,
  NoDup (Track.keys t) -> NoDup (Track.keys (writeAll t ids)).
Proof.
  unfold writeAll.
  induction ids as [|i ids IH]; intros t Hnd; cbn; [done|].
  apply IH, NoDup_keys_set, Hnd.
Qed.

(** ** The legato scan *)

Lemma sustainLoop_exhausted fuel : forall t p next d,
  sustainLoop fuel t p next d = None ->
  forall i, (i < fuel)%nat -> active t p (next + Z.of_nat i) = true.
Proof.
  induction fuel as [|fuel IH]; intros t p next d H i Hi; [lia|].
  cbn in H. fold (active t p next) in H.
  destruct (active t p next) eqn:Ha; [|done].
  destruct i as [|i].
  - now rewrite Z.add_0_r.
  - replace (next + Z.of_nat (S i)) with (next + 1 + Z.of_nat i) by lia.
    eapply IH; [exact H|lia].
Qed.

(** The loop always exits within the fuel [repeat] gives it. *)
Lemma sustainLoop_total t p next d :
  exists r, sustainLoop (sustainFuel t) t p next d = Some r.
Proof.
  destruct (sustainLoop (sustainFuel t) t p next d) as [r|] eqn:E; [by eexists|].
  exfalso.
  pose proof (sustainLoop_exhausted _ _ _ _ _ E) as Hall.
  set (ks := (fun i : nat => noteKey p (next + Z.of_nat i)) <$> seq 0 (sustainFuel t)).
  assert (Hnd : NoDup ks).
  { apply NoDup_fmap_2_strong; [|apply NoDup_seq].
    intros i j _ _ Hij. apply noteKey_inj_step in Hij. lia. }
  assert (Hsub : ks ⊆+ Track.keys t).
  { apply NoDup_submseteq; [done|]. intros k Hk.
    apply list_elem_of_fmap in Hk as (i & -> & Hi%elem_of_seq).
    apply active_elem_of, Hall. lia. }
  apply submseteq_length in Hsub.
  unfold ks, Track.keys in Hsub.
  rewrite !length_fmap, length_seq in Hsub. unfold sustainFuel in Hsub. lia.
Qed.

(** More fuel does not change the result. *)
Lemma sustainLoop_fuel_mono fuel fuel' : forall t p next d r,
  (fuel <= fuel')%nat ->
  sustainLoop fuel t p next d = Some r ->
  sustainLoop fuel' t p next d = Some r.
Proof.
  revert fuel'. induction fuel as [|fuel IH]; intros fuel' t p next d r Hle H;
    [done|].
  destruct fuel' as [|fuel']; [lia|]. cbn in *.
  destruct (Track.truthy _); [|done]. eapply IH; [lia|done].
Qed.

(** On exit the counter has advanced over a maximal run of active cells. *)
Lemma sustainLoop_run fuel : forall t p next d r,
  sustainLoop fuel t p next d = Some r ->
  d <= r /\
  (forall i, next <= i < next + (r - d) -> active t p i = true) /\
  active t p (next + (r - d)) = false.
Proof.
  induction fuel as [|fuel IH]; intros t p next d r H; [done|].
  cbn in H. fold (active t p next) in H.
  destruct (active t p next) eqn:Ha.
  - apply IH in H as (Hle & Hrun & Hend). split_and!; [lia| |].
    + intros i Hi. destruct (decide (i = next)) as [->|]; [done|].
      apply Hrun. lia.
    + replace (next + (r - d)) with (next + 1 + (r - (d + 1))) by lia. done.
  - injection H as <-. split_and!; [lia| |].
    + intros i Hi. lia.
    + now rewrite Z.sub_diag, Z.add_0_r.
Qed.

(** ** Well-formed keys *)

Lemma dashFree_append a b :
  dashFree a = true -> dashFree b = true -> dashFree (a ++ b) = true.
Proof.
  intros Ha Hb. induction a as [|c a IH]; [done|].
  change (String c a +:+ b) with (String c (a +:+ b)). cbn in *.
  destruct (negb _); [|done]. cbn in *. auto.
Qed.

Lemma dashFree_noteName note octave :
  dashFree note = true -> 0 <= octave -> dashFree (noteName note octave) = true.
Proof.
  intros Hn Ho. apply dashFree_append; [done|].
  now apply dashFree_string_of_Z.
Qed.

Lemma wfKey_noteId note octave step :
  dashFree note = true -> 0 <= octave -> 0 <= step ->
  wfKey (noteId note octave step).
Proof.
  intros Hn Ho Hs. exists (noteName note octave), step.
  split_and!; [by apply dashFree_noteName|done|done].
Qed.

Lemma wfTrack_nil : wfTrack [].
Proof. split; [apply NoDup_nil_2|apply Forall_nil_2]. Qed.

Lemma wfTrack_set t k v : wfTrack t -> wfKey k -> wfTrack (Track.set t k v).
Proof.
  intros [Hnd Hall] Hk. split; [by apply NoDup_keys_set|].
  rewrite Forall_forall in *. intros x Hx%elem_of_keys_set.
  destruct Hx as [->|Hx]; auto.
Qed.

Lemma wfTrack_writeAll ids t :
  wfTrack t -> Forall wfKey ids -> wfTrack (writeAll t ids).
Proof.
  intros [Hnd Hall] Hids. split; [by apply NoDup_keys_writeAll|].
  rewrite Forall_forall in *. intros x Hx%elem_of_keys_writeAll.
  destruct Hx as [Hx|Hx]; auto.
Qed.

Lemma dashFree_nameAt i : dashFree (nameAt NOTE_NAMES i) = true.
Proof.
  unfold nameAt. destruct (i <? 0); [done|].
  generalize (Z.to_nat i). intros n.
  do 12 (destruct n as [|n]; [done|]). done.
Qed.

(** ** The body of the key loop on a well-formed key *)

Lemma playKey_noteKey inst t s time p n :
  dashFree p = true -> 0 <= n ->
  playKey inst t s time (noteKey p n) =
    if bool_decide (n = s) && active t p n then
      if InstrumentType_eqb inst drum then [mkTrigger inst p Dur16n (Some time)]
      else if negb ((s >? 0) && active t p (s - 1)) then
        match sustainLoop (sustainFuel t) t p (s + 1) 1 with
        | Some r => [mkTrigger inst p (DurSteps r) (Some time)]
        | None => []
        end
      else []
    else [].
Proof.
  intros Hp Hn. unfold playKey. rewrite split_noteKey by done.
  cbn [lookup list_lookup default from_option id Js.parseInt_opt].
  rewrite parseInt_string_of_Z. fold (active t p n). fold (active t p (s - 1)).
  destruct (decide (n = s)) as [->|Hne].
  - rewrite !bool_decide_eq_true_2 by done. done.
  - rewrite !bool_decide_eq_false_2 by congruence. done.
Qed.

(** Every trigger of [playKey] carries the instrument it was called for. *)
Lemma playKey_inst inst t s time k tr :
  tr ∈ playKey inst t s time k -> tr_inst tr = inst.
Proof.
  unfold playKey. repeat case_match; intros Htr;
    repeat (apply elem_of_cons in Htr as [->|Htr]; [done|]);
    by apply elem_of_nil in Htr.
Qed.

Lemma playInstrument_inst cl st s time inst tr :
  tr ∈ playInstrument cl st s time inst -> tr_inst tr = inst.
Proof.
  unfold playInstrument.
  assert (H : tr ∈ flat_map (playKey inst (track_of (cl_tracks cl) inst) s time)
                (Track.keys (track_of (cl_tracks cl) inst)) -> tr_inst tr = inst).
  { rewrite list_elem_of_In, in_flat_map. intros (k & _ & Hk).
    eapply playKey_inst. rewrite list_elem_of_In. exact Hk. }
  repeat case_match; auto; intros Htr; by apply elem_of_nil in Htr.
Qed.

(** ** Dispatch on a well-formed track *)

Lemma InstrumentType_eqb_eq a b : InstrumentType_eqb a b = true <-> a = b.
Proof. destruct a, b; cbn; split; congruence. Qed.

Lemma InstrumentType_eqb_refl a : InstrumentType_eqb a a = true.
Proof. by destruct a. Qed.

Lemma playInstrument_ready cl st s time inst :
  playInstrument cl st s time inst =
    if voiceReady cl st inst
    then flat_map (playKey inst (track_of (cl_tracks cl) inst) s time)
           (Track.keys (track_of (cl_tracks cl) inst))
    else [].
Proof.
  unfold playInstrument, voiceReady.
  destruct (synthsCurrent st), (settings_type inst), (cl_isSamplesLoaded cl); done.
Qed.

(** A note dispatched on a melodic channel starts a run: its cell is active,
    the cell before it is not (or there is none), and its duration is the
    exit value of the scan that starts one step later. *)
Lemma melodic_trigger cl st s time inst tr :
  wfTrack (track_of (cl_tracks cl) inst) -> inst <> drum ->
  tr ∈ playInstrument cl st s time inst ->
  exists p r,
    tr = mkTrigger inst p (DurSteps r) (Some time) /\
    dashFree p = true /\ 0 <= s /\
    active (track_of (cl_tracks cl) inst) p s = true /\
    (s >? 0) && active (track_of (cl_tracks cl) inst) p (s - 1) = false /\
    sustainLoop (sustainFuel (track_of (cl_tracks cl) inst))
      (track_of (cl_tracks cl) inst) p (s + 1) 1 = Some r.
Proof.
  intros [Hnd Hwf] Hinst. rewrite playInstrument_ready.
  destruct (voiceReady cl st inst); [|by intros ?%elem_of_nil].
  set (t := track_of (cl_tracks cl) inst) in *.
  rewrite list_elem_of_In, in_flat_map. intros (k & Hk & Htr).
  rewrite <- list_elem_of_In in Hk. rewrite <- list_elem_of_In in Htr.
  rewrite Forall_forall in Hwf. destruct (Hwf k Hk) as (p & n & Hp & Hn & ->).
  rewrite playKey_noteKey in Htr by done.
  destruct (decide (n = s)) as [->|Hne];
    [rewrite bool_decide_eq_true_2 in Htr by done
    |rewrite bool_decide_eq_false_2 in Htr by done; by apply elem_of_nil in Htr].
  cbn [andb] in Htr.
  destruct (active t p s) eqn:Ha; [|by apply elem_of_nil in Htr].
  destruct (InstrumentType_eqb inst drum) eqn:Hd;
    [by apply InstrumentType_eqb_eq in Hd|].
  destruct ((s >? 0) && active t p (s - 1)) eqn:Hc;
    [by apply elem_of_nil in Htr|].
  cbn [negb] in Htr.
  destruct (sustainLoop _ _ _ _ _) as [r|] eqn:Hr; [|by apply elem_of_nil in Htr].
  apply list_elem_of_singleton in Htr as ->. exists p, r. done.
Qed.

Lemma repeat_trigger cl time st tr :
  tr ∈ (repeat cl time st).2 ->
  (stepOfPosition (cl_measures cl) (transportPosition st) <> lastPlayedStep st) /\
  dispatches st (tr_inst tr) = true /\
  tr ∈ playInstrument cl st
         (stepOfPosition (cl_measures cl) (transportPosition st)) time (tr_inst tr).
Proof.
  unfold repeat.
  destruct (Z.eqb_spec (stepOfPosition (cl_measures cl) (transportPosition st))
              (lastPlayedStep st)) as [Heq|Hne]; cbn [negb snd];
    [by intros ?%elem_of_nil|].
  rewrite list_elem_of_In, in_flat_map. intros (inst & Hinst & Htr).
  rewrite <- list_elem_of_In in Htr.
  pose proof (playInstrument_inst _ _ _ _ _ _ Htr) as Hi. subst inst.
  split_and!; [done| |done].
  unfold dispatches. destruct (PlaybackType_eqb _ _); [done|].
  cbn in Hinst. destruct Hinst as [<-|[]]. apply InstrumentType_eqb_refl.
Qed.

(** C4 (amended).  The duration of a note dispatched on a melodic channel
    at step [s] is the length [n] of the maximal run of consecutive steps
    [s], [s+1], ... at which the same pitch is active in the track: the
    cells [s .. s+n-1] are active and the cell [s+n] is not.  The scan reads
    the track only and not the measure count, so the run is the same for
    every arrangement length; it ends at or before the arrangement bound
    [measures*16] when the pitch is not active at the bound itself. *)
Theorem legato_run_follows_grid cl time st tr :
  let s := stepOfPosition (cl_measures cl) (transportPosition st) in
  let t := track_of (cl_tracks cl) (tr_inst tr) in
  wfTrack t -> tr_inst tr <> drum ->
  tr ∈ (repeat cl time st).2 ->
  exists n,
    tr_duration tr = DurSteps n /\ 1 <= n /\
    (forall i, s <= i < s + n -> active t (tr_note tr) i = true) /\
    active t (tr_note tr) (s + n) = false /\
    (forall m', playInstrument
                  (mkClosure (cl_tracks cl) m' (cl_isSamplesLoaded cl)) st s time
                  (tr_inst tr)
                = playInstrument cl st s time (tr_inst tr)) /\
    (s < cl_measures cl * 16 ->
     active t (tr_note tr) (cl_measures cl * 16) = false ->
     s + n <= cl_measures cl * 16).
Proof.
  intros s t Hwf Hinst Htr.
  apply repeat_trigger in Htr as (_ & _ & Htr). fold s in Htr.
  destruct (melodic_trigger _ _ _ _ _ _ Hwf Hinst Htr)
    as (p & r & Heq & Hp & Hs & Ha & Hc & Hr).
  fold t in Ha, Hc, Hr.
  apply sustainLoop_run in Hr as (Hle & Hrun & Hend).
  assert (Hnote : tr_note tr = p) by (rewrite Heq; done).
  assert (Hdur : tr_duration tr = DurSteps r) by (rewrite Heq; done).
  rewrite Hnote. exists r.
  assert (Hall : forall i, s <= i < s + r -> active t p i = true).
  { intros i Hi. destruct (decide (i = s)) as [->|]; [done|]. apply Hrun. lia. }
  split_and!; [done|done|done| | |].
  - replace (s + r) with (s + 1 + (r - 1)) by lia. done.
  - intros m'. done.
  - intros Hlt Hb. destruct (Z.le_gt_cases (s + r) (cl_measures cl * 16)); [done|].
    rewrite Hall in Hb by lia. done.
Qed.

(** ** Filtering the notes of one pitch *)

Lemma filter_flat_map {A B} (f : B -> bool) (g : A -> list B) l :
  List.filter f (flat_map g l) = flat_map (fun x => List.filter f (g x)) l.
Proof.
  induction l as [|x l IH]; cbn; [done|].
  now rewrite List.filter_app, IH.
Qed.

Lemma flat_map_all_nil {A B} (g : A -> list B) l :
  (forall x, x ∈ l -> g x = []) -> flat_map g l = [].
Proof.
  induction l as [|x l IH]; cbn; intros H; [done|].
  rewrite (H x) by left. apply IH. intros y Hy. apply H. by right.
Qed.

Lemma flat_map_single {A B} (g : A -> list B) l k :
  NoDup l -> k ∈ l -> (forall x, x ∈ l -> x <> k -> g x = []) ->
  flat_map g l = g k.
Proof.
  induction l as [|x l IH]; intros Hnd Hk H; [by apply elem_of_nil in Hk|].
  apply NoDup_cons in Hnd as [Hx Hnd]. cbn.
  apply elem_of_cons in Hk as [->|Hk].
  - rewrite (flat_map_all_nil g l), app_nil_r; [done|].
    intros y Hy. apply H; [by right|]. intros ->. done.
  - rewrite (H x); [|left|by intros ->]. cbn. apply IH; [done|done|].
    intros y Hy. apply H. by right.
Qed.

Lemma filter_isNoteOf_other inst P l :
  (forall tr, tr ∈ l -> tr_inst tr <> inst \/ tr_note tr <> P) ->
  List.filter (isNoteOf inst P) l = [].
Proof.
  induction l as [|tr l IH]; intros H; cbn; [done|].
  rewrite IH by (intros; apply H; by right).
  unfold isNoteOf. destruct (H tr) as [Hi|Hn]; [left| |].
  - destruct (InstrumentType_eqb _ _) eqn:E; [|done].
    by apply InstrumentType_eqb_eq in E.
  - destruct (String.eqb_spec (tr_note tr) P); [done|].
    by rewrite andb_false_r.
Qed.

(** The notes of pitch [P] that one channel dispatches at step [s], when
    [P] is active at the steps 4, 5 and 6 only. *)
Lemma playInstrument_456 cl st s time inst P :
  let t := track_of (cl_tracks cl) inst in
  wfTrack t -> dashFree P = true -> inst <> drum ->
  voiceReady cl st inst = true ->
  (forall n, active t P n = true <-> n = 4 \/ n = 5 \/ n = 6) ->
  List.filter (isNoteOf inst P) (playInstrument cl st s time inst) =
    if s =? 4 then [mkTrigger inst P (DurSteps 3) (Some time)] else [].
Proof.
  intros t [Hnd Hwf] HP Hinst Hready Hact.
  rewrite playInstrument_ready, Hready. fold t. rewrite filter_flat_map.
  rewrite Forall_forall in Hwf.
  assert (Hd : InstrumentType_eqb inst drum = false).
  { destruct (InstrumentType_eqb inst drum) eqn:E; [|done].
    by apply InstrumentType_eqb_eq in E. }
  (* what one key contributes *)
  assert (Hkey : forall k, k ∈ Track.keys t -> (k <> noteKey P 4 \/ s <> 4) ->
            List.filter (isNoteOf inst P) (playKey inst t s time k) = []).
  { intros k Hk Hcase. destruct (Hwf k Hk) as (p & n & Hp & Hn & ->).
    rewrite playKey_noteKey by done. rewrite Hd.
    destruct (decide (n = s)) as [->|Hne];
      [rewrite bool_decide_eq_true_2 by done
      |rewrite bool_decide_eq_false_2 by done; done].
    cbn [andb]. destruct (active t p s) eqn:Ha; [|done].
    destruct (String.eqb_spec p P) as [->|HpP].
    - apply Hact in Ha.
      assert (Hs : s = 5 \/ s = 6).
      { destruct Hcase as [Hk4|Hs4]; [|lia].
        destruct (decide (s = 4)) as [->|]; [done|lia]. }
      assert (Hprev : active t P (s - 1) = true) by (apply Hact; lia).
      rewrite Hprev. destruct Hs as [->| ->]; done.
    - apply filter_isNoteOf_other. intros tr Htr. right.
      repeat case_match;
        repeat (apply elem_of_cons in Htr as [->|Htr]; [done|]);
        by apply elem_of_nil in Htr. }
  destruct (Z.eqb_spec s 4) as [->|Hs].
  - rewrite (flat_map_single _ _ (noteKey P 4)); [|done| |].
    + rewrite playKey_noteKey by done. rewrite Hd.
      rewrite bool_decide_eq_true_2 by done.
      assert (H4 : active t P 4 = true) by (apply Hact; lia).
      assert (H3 : active t P 3 = false).
      { destruct (active t P 3) eqn:E; [|done]. apply Hact in E. lia. }
      rewrite H4. change (4 - 1) with 3. rewrite H3. cbn [andb negb Z.gtb Z.compare].
      destruct (sustainLoop_total t P (4 + 1) 1) as [r Hr]. rewrite Hr.
      apply sustainLoop_run in Hr as (Hle & Hrun & Hend).
      assert (r = 3) as ->.
      { destruct (active t P (4 + 1 + (r - 1))) eqn:E; [done|].
        assert (Hge : ~ (4 + 1 + (r - 1) = 4 \/ 4 + 1 + (r - 1) = 5 \/
                          4 + 1 + (r - 1) = 6)).
        { intros H. apply Hact in H. congruence. }
        destruct (Z.le_gt_cases r 3); [lia|].
        assert (H7 : active t P 7 = true) by (apply Hrun; lia).
        apply Hact in H7. lia. }
      cbn. unfold isNoteOf. cbn. rewrite InstrumentType_eqb_refl, String.eqb_refl.
      done.
    + apply active_elem_of, Hact. lia.
    + intros k Hk Hne. apply Hkey; auto.
  - apply flat_map_all_nil. intros k Hk. apply Hkey; auto.
Qed.

(** ** The tick handler *)

Lemma repeat_refs cl time st :
  let s := stepOfPosition (cl_measures cl) (transportPosition st) in
  let st' := (repeat cl time st).1 in
  lastPlayedStep st' = s /\ currentStep st' = s /\
  playbackTypeRef st' = playbackTypeRef st /\
  selectedInstrumentRef st' = selectedInstrumentRef st /\
  synthsCurrent st' = synthsCurrent st /\
  tracks st' = tracks st /\ measures st' = measures st.
Proof.
  unfold repeat. cbn zeta.
  destruct (Z.eqb_spec (stepOfPosition (cl_measures cl) (transportPosition st))
              (lastPlayedStep st)) as [Heq|Hne]; cbn; split_and!; done.
Qed.

Lemma NoDup_instrument_keys : NoDup instrument_keys.
Proof.
  unfold instrument_keys.
  repeat (apply NoDup_cons; split;
          [rewrite ?elem_of_cons, elem_of_nil; naive_solver|]).
  apply NoDup_nil_2.
Qed.

Lemma elem_of_instrument_keys inst : inst ∈ instrument_keys.
Proof. unfold instrument_keys. rewrite !elem_of_cons. destruct inst; auto. Qed.

Lemma filter_playInstrument_other cl st s time inst P i :
  i <> inst ->
  List.filter (isNoteOf inst P) (playInstrument cl st s time i) = [].
Proof.
  intros Hne. apply filter_isNoteOf_other. intros tr Htr. left.
  apply playInstrument_inst in Htr. congruence.
Qed.

(** The notes of one channel and pitch among the triggers of a tick. *)
Lemma repeat_filter cl time st inst P :
  let s := stepOfPosition (cl_measures cl) (transportPosition st) in
  List.filter (isNoteOf inst P) (repeat cl time st).2 =
    if (s =? lastPlayedStep st) || negb (dispatches st inst) then []
    else List.filter (isNoteOf inst P) (playInstrument cl st s time inst).
Proof.
  unfold repeat, dispatches. cbn zeta.
  destruct (Z.eqb_spec (stepOfPosition (cl_measures cl) (transportPosition st))
              (lastPlayedStep st)) as [Heq|Hne]; cbn [negb snd orb]; [done|].
  rewrite filter_flat_map.
  destruct (PlaybackType_eqb (playbackTypeRef st) (Some all)); cbn [orb negb].
  - apply (flat_map_single
             (fun x => List.filter (isNoteOf inst P)
                         (playInstrument cl st _ time x)) _ inst);
      [apply NoDup_instrument_keys|apply elem_of_instrument_keys|].
    intros i _ Hi. by apply filter_playInstrument_other.
  - cbn [flat_map]. rewrite app_nil_r.
    destruct (InstrumentType_eqb (selectedInstrumentRef st) inst) eqn:E; cbn [negb].
    + apply InstrumentType_eqb_eq in E. now subst inst.
    + apply filter_playInstrument_other. intros Heq.
      by rewrite Heq, InstrumentType_eqb_refl in E.
Qed.

Lemma filter_tagged (f : Trigger -> bool) (s : Z) (l : list Trigger) :
  List.filter (fun d : Dispatch => f d.2) (pair s <$> l)
  = pair s <$> List.filter f l.
Proof.
  induction l as [|x l IH]; cbn; [done|].
  destruct (f x); cbn; by rewrite IH.
Qed.

Lemma playback_cons cl pos time ticks st :
  playback cl ((pos, time) :: ticks) st =
    let r := repeat cl time (setTransportPosition pos st) in
    let r' := playback cl ticks r.1 in
    (r'.1, (pair (currentStep r.1) <$> r.2) ++ r'.2).
Proof.
  cbn [playback]. destruct (repeat _ _ _) as [st1 out].
  cbn. destruct (playback _ _ _) as [st2 outs]. done.
Qed.

(** C3.  On a melodic channel whose track has pitch [P] active at the
    steps 4, 5 and 6 and at no other step, a pass through the steps 4, 5
    and 6 dispatches [P] exactly once: at step 4, with a duration of three
    step lengths (three times [Tone.Time('16n').toSeconds()]); nothing is
    dispatched for [P] at step 5 or at step 6.  The channel is one the
    current mode plays, its voice is ready, and step 4 was not the last
    step dispatched before the pass ([startPlayback] arms [lastPlayedStep]
    to the step before the cursor); the other pitches of the track are
    arbitrary. *)
Theorem legato_single_trigger cl st inst P p4 p5 p6 t4 t5 t6 :
  let t := track_of (cl_tracks cl) inst in
  wfTrack t -> dashFree P = true -> inst <> drum ->
  voiceReady cl st inst = true -> dispatches st inst = true ->
  (forall n, active t P n = true <-> n = 4 \/ n = 5 \/ n = 6) ->
  stepOfPosition (cl_measures cl) p4 = 4 ->
  stepOfPosition (cl_measures cl) p5 = 5 ->
  stepOfPosition (cl_measures cl) p6 = 6 ->
  lastPlayedStep st <> 4 ->
  List.filter (fun d : Dispatch => isNoteOf inst P d.2)
    (playback cl [(p4, t4); (p5, t5); (p6, t6)] st).2
  = [(4, mkTrigger inst P (DurSteps 3) (Some t4))].
Proof.
  intros t Hwf HP Hinst Hready Hdisp Hact H4 H5 H6 Hlast.
  assert (Hstep : forall st0 pos time,
    voiceReady cl st0 inst = true -> dispatches st0 inst = true ->
    let st1 := setTransportPosition pos st0 in
    let s := stepOfPosition (cl_measures cl) pos in
    List.filter (isNoteOf inst P) (repeat cl time st1).2 =
      (if (s =? lastPlayedStep st0) || negb (s =? 4) then []
       else [mkTrigger inst P (DurSteps 3) (Some time)]) /\
    lastPlayedStep (repeat cl time st1).1 = s /\
    currentStep (repeat cl time st1).1 = s /\
    voiceReady cl (repeat cl time st1).1 inst = true /\
    dispatches (repeat cl time st1).1 inst = true).
  { intros st0 pos time Hr Hd st1 s.
    pose proof (repeat_refs cl time st1) as (Hl & Hc & Hp & Hs & Hsy & _).
    split_and!; [|done|done| |].
    - rewrite repeat_filter.
      change (transportPosition st1) with pos. fold s.
      change (lastPlayedStep st1) with (lastPlayedStep st0).
      change (dispatches st1 inst) with (dispatches st0 inst). rewrite Hd.
      destruct (s =? lastPlayedStep st0); cbn [orb negb]; [done|].
      rewrite (playInstrument_456 cl st1 s time inst P); [|done..].
      by destruct (s =? 4).
    - unfold voiceReady in *. by rewrite Hsy.
    - unfold dispatches in *. by rewrite Hp, Hs. }
  do 3 (rewrite playback_cons; cbn zeta). cbn [playback snd].
  rewrite app_nil_r, !List.filter_app, !filter_tagged.
  destruct (Hstep st p4 t4 Hready Hdisp) as (Ho1 & Hl1 & Hc1 & Hr1 & Hd1).
  set (st1 := (repeat cl t4 (setTransportPosition p4 st)).1) in *.
  destruct (Hstep st1 p5 t5 Hr1 Hd1) as (Ho2 & Hl2 & Hc2 & Hr2 & Hd2).
  set (st2 := (repeat cl t5 (setTransportPosition p5 st1)).1) in *.
  destruct (Hstep st2 p6 t6 Hr2 Hd2) as (Ho3 & Hl3 & Hc3 & Hr3 & Hd3).
  rewrite Ho1, Ho2, Ho3, Hc1, H4, H5, H6.
  destruct (Z.eqb_spec 4 (lastPlayedStep st)) as [Heq|_]; [congruence|].
  change (negb (5 =? 4)) with true. change (negb (6 =? 4)) with true.
  rewrite !orb_true_r. done.
Qed.

(** ** Determinism and idempotent dispatch *)

Lemma voiceCall_playKey inst t s timeA timeB k :
  voiceCall <$> playKey inst t s timeA k = voiceCall <$> playKey inst t s timeB k.
Proof. unfold playKey. repeat case_match; done. Qed.

Lemma fmap_flat_map {A B C} (f : B -> C) (g : A -> list B) l :
  f <$> flat_map g l = flat_map (fun x => f <$> g x) l.
Proof.
  induction l as [|x l IH]; cbn; [done|]. now rewrite fmap_app, IH.
Qed.

Lemma voiceCall_playInstrument cl st s timeA timeB inst :
  voiceCall <$> playInstrument cl st s timeA inst
  = voiceCall <$> playInstrument cl st s timeB inst.
Proof.
  rewrite !playInstrument_ready. destruct (voiceReady cl st inst); [|done].
  rewrite !fmap_flat_map. apply List.flat_map_ext. intros k.
  apply voiceCall_playKey.
Qed.

(** The audio time passed to the handler changes neither the state it
    leaves nor the notes it dispatches. *)
Lemma repeat_time cl timeA timeB st :
  (repeat cl timeA st).1 = (repeat cl timeB st).1 /\
  voiceCall <$> (repeat cl timeA st).2 = voiceCall <$> (repeat cl timeB st).2.
Proof.
  unfold repeat. destruct (negb _); cbn [fst snd]; [|done]. split; [done|].
  rewrite !fmap_flat_map. apply List.flat_map_ext. intros inst.
  apply voiceCall_playInstrument.
Qed.

Lemma untimed_tagged s (l : list Trigger) :
  untimed <$> (pair s <$> l) = pair s <$> (voiceCall <$> l).
Proof. rewrite <- !list_fmap_compose. done. Qed.

Lemma triple_untimed (l : list Dispatch) :
  triple <$> l = (fun u => (u.2.1.2, u.1, u.2.2)) <$> (untimed <$> l).
Proof. rewrite <- list_fmap_compose. done. Qed.

(** C1.  For a fixed grid (the tracks, measures and voices the handler
    closes over), a fixed dispatcher state at the start of the pass and a
    fixed sequence of clock positions, two runs of the tick handler over the
    sequence dispatch the same sequence of (pitch, onset-step, duration)
    triples, on the same channels, and end in the same state, whatever the
    audio times handed to the handler in either run. *)
Theorem playback_deterministic cl st ticksA ticksB :
  ticksA.*1 = ticksB.*1 ->
  triple <$> (playback cl ticksA st).2 = triple <$> (playback cl ticksB st).2 /\
  untimed <$> (playback cl ticksA st).2 = untimed <$> (playback cl ticksB st).2 /\
  (playback cl ticksA st).1 = (playback cl ticksB st).1.
Proof.
  intros Hpos.
  enough (H : untimed <$> (playback cl ticksA st).2
              = untimed <$> (playback cl ticksB st).2 /\
              (playback cl ticksA st).1 = (playback cl ticksB st).1).
  { destruct H as [Hu Hs]. split_and!; [|done|done].
    rewrite !triple_untimed. by rewrite Hu. }
  revert ticksB st Hpos.
  induction ticksA as [|[posA timeA] ticksA IH];
    intros [|[posB timeB] ticksB] st Hpos; try discriminate; [done|].
  cbn in Hpos. injection Hpos as -> Hpos.
  rewrite !playback_cons. cbn zeta. cbn [fst snd].
  destruct (repeat_time cl timeA timeB (setTransportPosition posB st)) as [Hs Ho].
  rewrite !fmap_app, !untimed_tagged, Ho, Hs.
  destruct (IH ticksB (repeat cl timeB (setTransportPosition posB st)).1 Hpos)
    as [IHo IHs].
  by rewrite IHo, IHs.
Qed.

(** C2.  Two invocations of the tick handler in succession, with the
    transport at the same position in both, dispatch the notes of that
    step once: the first dispatches them (unless the step had been
    dispatched already), the second dispatches nothing and leaves the state
    as the first left it. *)
Theorem repeat_idempotent cl pos time1 time2 st :
  let s := stepOfPosition (cl_measures cl) pos in
  let first := repeat cl time1 (setTransportPosition pos st) in
  let second := repeat cl time2 (setTransportPosition pos first.1) in
  first.2 =
    (if s =? lastPlayedStep st then []
     else flat_map (playInstrument cl (setTransportPosition pos st) s time1)
            (if PlaybackType_eqb (playbackTypeRef st) (Some all)
             then instrument_keys else [selectedInstrumentRef st])) /\
  lastPlayedStep first.1 = s /\
  second.2 = [] /\
  second.1 = first.1 /\
  first.2 ++ second.2 = first.2.
Proof.
  cbn zeta. unfold repeat. cbn [transportPosition setTransportPosition
    lastPlayedStep playbackTypeRef selectedInstrumentRef].
  destruct (Z.eqb_spec (stepOfPosition (cl_measures cl) pos) (lastPlayedStep st))
    as [Heq|Hne]; cbn [negb fst snd].
  - cbn [transportPosition setTransportPosition setCurrentStep lastPlayedStep].
    rewrite <- Heq, Z.eqb_refl. cbn [negb fst snd]. done.
  - cbn [transportPosition setTransportPosition setCurrentStep
      setLastPlayedStep lastPlayedStep].
    rewrite Z.eqb_refl. cbn [negb fst snd]. rewrite app_nil_r. done.
Qed.

(** ** Chord generation *)

Lemma track_of_with_track ts inst t : track_of (with_track ts inst t) inst = t.
Proof. by destruct inst. Qed.

Lemma track_of_with_track_ne ts inst t i :
  i <> inst -> track_of (with_track ts inst t) i = track_of ts i.
Proof. by destruct inst, i. Qed.

Lemma with_track_same ts inst : with_track ts inst (track_of ts inst) = ts.
Proof. by destruct ts, inst. Qed.

Lemma addChord_refused st : chordRefused st -> addChord st = st /\ addChordWrites st = [].
Proof.
  unfold chordRefused, addChord, addChordWrites. intros [Hd|Hr].
  - by rewrite Hd.
  - destruct (InstrumentType_eqb _ _); [done|]. by rewrite Hr.
Qed.

Lemma addChord_accepted st :
  ~ chordRefused st ->
  addChord st =
    setShowChordSelector false
      (setTracks
         (fun prev =>
            with_track prev (selectedInstrument st)
              (writeAll (track_of (tracks st) (selectedInstrument st))
                 (addChordWrites st)))
         st) /\
  addChordWrites st =
    chordWrites (indexOf NOTE_NAMES (selectedRoot st)) (selectedOctave st)
      (chordIntervalsOf CHORDS (selectedChord st)) (currentStep st) (chordEnd st).
Proof.
  unfold chordRefused, addChord, addChordWrites. intros Hg.
  destruct (InstrumentType_eqb (selectedInstrument st) drum) eqn:Hd.
  { apply InstrumentType_eqb_eq in Hd. tauto. }
  destruct (Z.eqb_spec (indexOf NOTE_NAMES (selectedRoot st)) (-1)); [tauto|].
  done.
Qed.

Lemma chordRefused_dec st : chordRefused st \/ ~ chordRefused st.
Proof.
  unfold chordRefused.
  destruct (selectedInstrument st);
    destruct (Z.eq_dec (indexOf NOTE_NAMES (selectedRoot st)) (-1));
    try (left; auto; fail); right; intros [H|H]; congruence.
Qed.

(** The tracks after [addChord]: the selected channel with the chord's keys
    written, the other channels as they were. *)
Lemma addChord_tracks st :
  tracks (addChord st) =
    with_track (tracks st) (selectedInstrument st)
      (writeAll (track_of (tracks st) (selectedInstrument st)) (addChordWrites st)).
Proof.
  destruct (chordRefused_dec st) as [Hg|Hg].
  - destruct (addChord_refused st Hg) as [-> ->]. cbn.
    by rewrite with_track_same.
  - destruct (addChord_accepted st Hg) as [-> _]. done.
Qed.

Lemma addChord_get st k :
  Track.get (track_of (tracks (addChord st)) (selectedInstrument st)) k =
    if bool_decide (k ∈ addChordWrites st) then Some true
    else Track.get (track_of (tracks st) (selectedInstrument st)) k.
Proof. by rewrite addChord_tracks, track_of_with_track, get_writeAll. Qed.

Lemma addChord_other st i :
  i <> selectedInstrument st ->
  track_of (tracks (addChord st)) i = track_of (tracks st) i.
Proof. intros Hi. by rewrite addChord_tracks, track_of_with_track_ne. Qed.

Lemma elem_of_chordWrites rootIndex octave intervals startBeat endStep k :
  k ∈ chordWrites rootIndex octave intervals startBeat endStep <->
  exists interval step,
    interval ∈ intervals /\ startBeat <= step < endStep /\
    1 <= octave + (rootIndex + interval) / 12 <= 6 /\
    k = noteId (nameAt NOTE_NAMES (Z.rem (rootIndex + interval) 12))
          (octave + (rootIndex + interval) / 12) step.
Proof.
  unfold chordWrites. rewrite list_elem_of_In, in_flat_map. split.
  - intros (step & Hstep & Hk). rewrite <- list_elem_of_In in Hstep.
    rewrite <- list_elem_of_In in Hk.
    apply elem_of_seqZ in Hstep.
    apply list_elem_of_omap in Hk as (interval & Hi & Hk).
    unfold chordTone in Hk.
    destruct (Z.geb_spec (octave + (rootIndex + interval) / 12) 1);
      destruct (Z.leb_spec (octave + (rootIndex + interval) / 12) 6);
      cbn in Hk; try discriminate.
    injection Hk as <-. exists interval, step. split_and!; [done|lia|lia|lia|lia|done].
  - intros (interval & step & Hi & Hstep & Ho & ->). exists step.
    rewrite <- !list_elem_of_In. split; [apply elem_of_seqZ; lia|].
    apply list_elem_of_omap. exists interval. split; [done|].
    unfold chordTone.
    destruct (Z.geb_spec (octave + (rootIndex + interval) / 12) 1); [|lia].
    destruct (Z.leb_spec (octave + (rootIndex + interval) / 12) 6); [|lia].
    done.
Qed.

Lemma elem_of_addChordWrites st k :
  k ∈ addChordWrites st <->
  ~ chordRefused st /\
  exists interval step,
    interval ∈ chordIntervalsOf CHORDS (selectedChord st) /\
    currentStep st <= step < chordEnd st /\
    1 <= toneOctave st interval <= 6 /\
    k = noteId (toneName st interval) (toneOctave st interval) step.
Proof.
  destruct (chordRefused_dec st) as [Hg|Hg].
  - destruct (addChord_refused st Hg) as [_ ->]. rewrite elem_of_nil. tauto.
  - destruct (addChord_accepted st Hg) as [_ ->]. rewrite elem_of_chordWrites.
    unfold toneOctave, toneName. tauto.
Qed.

Lemma indexOf_from_spec l x : forall i,
  0 <= i ->
  indexOf_from l x i = -1 \/
  (i <= indexOf_from l x i < i + Z.of_nat (length l) /\
   l !! Z.to_nat (indexOf_from l x i - i) = Some x).
Proof.
  induction l as [|y l IH]; intros i Hi; cbn [indexOf_from]; [by left|].
  destruct (String.eqb_spec y x) as [->|Hne].
  - right. rewrite Z.sub_diag. cbn. split; [lia|done].
  - destruct (IH (i + 1)) as [H|[Hr Hl]]; [lia|by left|]. right.
    split; [rewrite length_cons; lia|].
    replace (Z.to_nat (indexOf_from l x (i + 1) - i))
      with (S (Z.to_nat (indexOf_from l x (i + 1) - (i + 1)))) by lia.
    done.
Qed.

(** A recognised root is read back from its index. *)
Lemma indexOf_NOTE_NAMES x :
  indexOf NOTE_NAMES x <> -1 ->
  0 <= indexOf NOTE_NAMES x < 12 /\ nameAt NOTE_NAMES (indexOf NOTE_NAMES x) = x.
Proof.
  intros Hx. unfold indexOf in *.
  destruct (indexOf_from_spec NOTE_NAMES x 0) as [H|[Hr Hl]]; [lia|done|].
  rewrite Z.sub_0_r in Hl. split; [change (Z.of_nat (length NOTE_NAMES)) with 12 in Hr; lia|].
  unfold nameAt. destruct (Z.ltb_spec (indexOf_from NOTE_NAMES x 0) 0); [lia|].
  by rewrite Hl.
Qed.

(** Every chord of the table contains its root. *)
Lemma root_in_chord chord :
  chord ∈ CHORDS.*1 -> 0 ∈ chordIntervalsOf CHORDS chord.
Proof.
  cbn. rewrite !elem_of_cons, elem_of_nil.
  intros [->|[->|[->|[->|[->|[]]]]]]; cbn; left.
Qed.

(** C5.  With root C, octave 4, chord type major, the cursor at step 0
    and a duration of one beat, on a melodic channel and with at least one
    measure, [addChord] writes the cells of C4, E4 and G4 at the steps 0, 1,
    2 and 3 as active, and no other cell: every other key of the channel
    keeps its value, and the other channels are unchanged. *)
Theorem addChord_C_major st :
  let cells :=
    [ "C4-0"; "E4-0"; "G4-0"; "C4-1"; "E4-1"; "G4-1";
      "C4-2"; "E4-2"; "G4-2"; "C4-3"; "E4-3"; "G4-3" ] in
  selectedInstrument st <> drum ->
  selectedRoot st = "C" -> selectedOctave st = 4 -> selectedChord st = "major" ->
  currentStep st = 0 -> chordDuration st = 1 -> 1 <= measures st ->
  addChordWrites st = cells /\
  (forall k,
     Track.get (track_of (tracks (addChord st)) (selectedInstrument st)) k =
       if bool_decide (k ∈ cells) then Some true
       else Track.get (track_of (tracks st) (selectedInstrument st)) k) /\
  (forall i, i <> selectedInstrument st ->
             track_of (tracks (addChord st)) i = track_of (tracks st) i).
Proof.
  intros cells Hinst Hroot Hoct Hchord Hstart Hdur Hm.
  assert (Hg : ~ chordRefused st).
  { unfold chordRefused. rewrite Hroot. intros [H|H]; [done|discriminate]. }
  assert (Hw : addChordWrites st = cells).
  { destruct (addChord_accepted st Hg) as [_ ->]. unfold chordEnd.
    rewrite Hroot, Hoct, Hchord, Hstart, Hdur.
    rewrite Z.min_l by lia. reflexivity. }
  split_and!; [done| |apply addChord_other].
  intros k. by rewrite addChord_get, Hw.
Qed.

(** C6.  Whatever the root, octave, chord type, cursor and duration, the
    keys [addChord] writes are those of the chord tones whose octave lies
    in 1..6, at the steps from the cursor up to, and excluding, the
    smaller of [cursor + duration*4] and [measures*16]: a tone outside the
    octave range contributes no key and does not keep the others from
    being written.  The written keys become active, every other key of the
    channel keeps its value and the other channels are unchanged. *)
Theorem addChord_cells_in_range st :
  (forall k,
     k ∈ addChordWrites st <->
     ~ chordRefused st /\
     exists interval step,
       interval ∈ chordIntervalsOf CHORDS (selectedChord st) /\
       currentStep st <= step <
         Z.min (currentStep st + chordDuration st * 4) (measures st * 16) /\
       1 <= toneOctave st interval <= 6 /\
       k = noteId (toneName st interval) (toneOctave st interval) step) /\
  (forall k,
     Track.get (track_of (tracks (addChord st)) (selectedInstrument st)) k =
       if bool_decide (k ∈ addChordWrites st) then Some true
       else Track.get (track_of (tracks st) (selectedInstrument st)) k) /\
  (forall i, i <> selectedInstrument st ->
             track_of (tracks (addChord st)) i = track_of (tracks st) i).
Proof.
  split_and!.
  - apply elem_of_addChordWrites.
  - apply addChord_get.
  - apply addChord_other.
Qed.

Lemma addChordWrites_nil st :
  addChordWrites st = [] <->
  chordRefused st \/ chordEnd st <= currentStep st \/
  Forall (fun interval => ~ 1 <= toneOctave st interval <= 6)
    (chordIntervalsOf CHORDS (selectedChord st)).
Proof.
  split.
  - intros Hnil.
    destruct (chordRefused_dec st) as [Hg|Hg]; [by left|right].
    destruct (Z.le_gt_cases (chordEnd st) (currentStep st)) as [Hle|Hgt];
      [by left|right].
    apply Forall_forall. intros interval Hi Ho.
    assert (Hk : noteId (toneName st interval) (toneOctave st interval)
                   (currentStep st) ∈ addChordWrites st).
    { apply elem_of_addChordWrites. split; [done|].
      exists interval, (currentStep st). split_and!; [done|lia|lia|lia|lia|done]. }
    rewrite Hnil in Hk. by apply elem_of_nil in Hk.
  - intros H. apply elem_of_nil_inv. intros k Hk.
    apply elem_of_addChordWrites in Hk
      as (Hg & interval & step & Hi & Hs & Ho & _).
    destruct H as [H|[H|H]]; [done|lia|].
    rewrite Forall_forall in H. by apply (H interval).
Qed.

(** C7 (amended).  [addChord] leaves the whole state unchanged, writing
    no cell, when the selected channel is the percussion channel or the
    root is not one of the twelve note names.  In every other case it goes
    on to the write loop: the channel's track becomes the old one with the
    keys of [addChordWrites] set active, and the chord dialog is closed.
    That list of keys is empty exactly when one of the two guards fires,
    or the step range from the cursor to the clamped end is empty, or no
    tone of the chord has its octave in 1..6; with a chord type of the
    table, an octave in 1..6, a duration of at least one beat and the
    cursor inside the arrangement, the cell of the root at the cursor is
    among the keys written. *)
Theorem addChord_writes_nothing st :
  (chordRefused st -> addChord st = st /\ addChordWrites st = []) /\
  (~ chordRefused st ->
     addChord st =
       setShowChordSelector false
         (setTracks
            (fun prev =>
               with_track prev (selectedInstrument st)
                 (writeAll (track_of (tracks st) (selectedInstrument st))
                    (addChordWrites st)))
            st)) /\
  (addChordWrites st = [] <->
     chordRefused st \/
     Z.min (currentStep st + chordDuration st * 4) (measures st * 16)
       <= currentStep st \/
     Forall (fun interval => ~ 1 <= toneOctave st interval <= 6)
       (chordIntervalsOf CHORDS (selectedChord st))) /\
  (~ chordRefused st ->
     selectedChord st ∈ CHORDS.*1 ->
     1 <= selectedOctave st <= 6 ->
     1 <= chordDuration st ->
     currentStep st < measures st * 16 ->
     noteId (selectedRoot st) (selectedOctave st) (currentStep st)
       ∈ addChordWrites st).
Proof.
  split_and!.
  - apply addChord_refused.
  - intros Hg. by destruct (addChord_accepted st Hg).
  - apply addChordWrites_nil.
  - intros Hg Hchord Ho Hd Hc.
    assert (Hroot : indexOf NOTE_NAMES (selectedRoot st) <> -1).
    { unfold chordRefused in Hg. tauto. }
    destruct (indexOf_NOTE_NAMES _ Hroot) as [Hr Hn].
    apply elem_of_addChordWrites. split; [done|].
    exists 0, (currentStep st).
    assert (Hto : toneOctave st 0 = selectedOctave st).
    { unfold toneOctave. rewrite Z.add_0_r, Z.div_small by lia. lia. }
    assert (Htn : toneName st 0 = selectedRoot st).
    { unfold toneName. rewrite Z.add_0_r, Z.rem_small by lia. done. }
    rewrite Hto, Htn. unfold chordEnd.
    split_and!; [by apply root_in_chord|lia|lia|lia|lia|done].
Qed.

(** ** Measures *)

(** C8.  [updateMeasures] stores the requested count clamped into 1..16;
    when the cursor is at or beyond the resulting bound [measures*16] it is
    put back to step 0 (and so is the transport, if playback is on), and
    when the cursor is below the bound it is left as it is. *)
Theorem updateMeasures_clamps_and_resets newMeasures st :
  let st' := updateMeasures newMeasures st in
  measures st' = Z.min (Z.max newMeasures 1) 16 /\
  1 <= measures st' <= 16 /\
  currentStep st' =
    (if currentStep st >=? measures st' * 16 then 0 else currentStep st) /\
  (measures st' * 16 <= currentStep st -> currentStep st' = 0) /\
  (currentStep st < measures st' * 16 -> currentStep st' = currentStep st) /\
  transportPosition st' =
    (if (currentStep st >=? measures st' * 16)
        && negb (PlaybackType_eqb (playbackType st) None)
     then position0 else transportPosition st).
Proof.
  cbn zeta. unfold updateMeasures, MIN_MEASURES, MAX_MEASURES.
  set (m := Z.min (Z.max newMeasures 1) 16).
  assert (Hm : measures (setMeasures m st) = m) by done.
  destruct (Z.geb_spec (currentStep st) (m * 16)) as [Hge|Hlt].
  - destruct (PlaybackType_eqb (playbackType st) None); cbn;
      destruct (Z.geb_spec (currentStep st) (m * 16)); try lia;
      split_and!; try done; lia.
  - cbn. destruct (Z.geb_spec (currentStep st) (m * 16)); try lia.
    split_and!; try done; lia.
Qed.

(** C10.  [updateMeasures] leaves the grid store as it is: after it,
    every key of every channel reads as before, also when the new bound lies
    below the step of cells written earlier. *)
Theorem updateMeasures_keeps_tracks newMeasures st :
  tracks (updateMeasures newMeasures st) = tracks st /\
  (forall inst key,
     Track.get (track_of (tracks (updateMeasures newMeasures st)) inst) key
     = Track.get (track_of (tracks st) inst) key) /\
  (forall inst,
     Track.keys (track_of (tracks (updateMeasures newMeasures st)) inst)
     = Track.keys (track_of (tracks st) inst)).
Proof.
  assert (H : tracks (updateMeasures newMeasures st) = tracks st).
  { unfold updateMeasures. repeat case_match; done. }
  rewrite H. done.
Qed.

(** ** Subdivision *)

Lemma divisionOf_insert divs b d b' :
  divisionOf (<[b:=d]> divs) b' =
    if bool_decide (b = b') then (if d =? 0 then 1 else d) else divisionOf divs b'.
Proof.
  unfold divisionOf. case_bool_decide as Hb.
  - subst. by rewrite lookup_insert_eq.
  - by rewrite lookup_insert_ne.
Qed.

Lemma toggleSplit_divisions st :
  beatDivisions (toggleSplitAtPlayhead st) =
    <[currentStep st / 4 :=
        if divisionOf (beatDivisions st) (currentStep st / 4) =? 1 then 2
        else if divisionOf (beatDivisions st) (currentStep st / 4) =? 2 then 4
        else 1]> (beatDivisions st) /\
  currentStep (toggleSplitAtPlayhead st) = currentStep st.
Proof. done. Qed.

(** The subdivision factors the application stores are 1, 2 and 4. *)
Lemma toggleSplit_factor st :
  (forall b, divisionOf (beatDivisions st) b ∈ [1; 2; 4]) ->
  forall b, divisionOf (beatDivisions (toggleSplitAtPlayhead st)) b ∈ [1; 2; 4].
Proof.
  intros H b. destruct (toggleSplit_divisions st) as [-> _].
  rewrite divisionOf_insert. case_bool_decide; [|apply H].
  repeat case_match; rewrite !elem_of_cons; auto; lia.
Qed.

(** C9.  With beat 2 unsplit its only sub-slot starts at step 8; once its
    factor is 4 (Split pressed twice with the cursor in beat 2) the
    sub-slots start at 8, 9, 10 and 11, and the positions of every other
    beat are as before.  In general the sub-slots of beat [b] with factor
    [d] start at [b*4 + i*(4/d)] for [i = 0 .. d-1], where for the factors
    1, 2 and 4 the [d] slots of size [4/d] fill the beat exactly. *)
Theorem split_beat_positions st :
  let divs := beatDivisions st in
  let divs' := beatDivisions (toggleSplitAtPlayhead (toggleSplitAtPlayhead st)) in
  (divisionOf divs 2 = 1 -> currentStep st / 4 = 2 ->
   stepPositionsOf divs 2 = [8] /\
   divs' = <[2:=4]> divs /\
   stepPositionsOf divs' 2 = [8; 9; 10; 11] /\
   (forall b, b <> 2 -> stepPositionsOf divs' b = stepPositionsOf divs b)) /\
  (divisionOf divs 2 = 1 ->
   stepPositionsOf (<[2:=4]> divs) 2 = [8; 9; 10; 11] /\
   (forall b, b <> 2 ->
              stepPositionsOf (<[2:=4]> divs) b = stepPositionsOf divs b)) /\
  (forall b,
     let d := divisionOf divs b in
     stepPositionsOf divs b = (fun i => b * 4 + i * (4 / d)) <$> seqZ 0 d /\
     (forall k, k ∈ stepPositionsOf divs b <->
                exists i, 0 <= i < d /\ k = b * 4 + i * (4 / d)) /\
     (d = 1 \/ d = 2 \/ d = 4 -> d * (4 / d) = 4)).
Proof.
  cbn zeta.
  assert (Hset : divisionOf (beatDivisions st) 2 = 1 ->
    stepPositionsOf (<[2:=4]> (beatDivisions st)) 2 = [8; 9; 10; 11] /\
    (forall b, b <> 2 ->
       stepPositionsOf (<[2:=4]> (beatDivisions st)) b
       = stepPositionsOf (beatDivisions st) b)).
  { intros Hd. split.
    - unfold stepPositionsOf. rewrite divisionOf_insert.
      rewrite bool_decide_eq_true_2 by done. reflexivity.
    - intros b Hb. unfold stepPositionsOf. rewrite divisionOf_insert.
      rewrite bool_decide_eq_false_2 by congruence. done. }
  split_and!; [|done|].
  - intros Hd Hc. destruct (Hset Hd) as [H4 Hother].
    assert (Hdivs : beatDivisions (toggleSplitAtPlayhead (toggleSplitAtPlayhead st))
                    = <[2:=4]> (beatDivisions st)).
    { destruct (toggleSplit_divisions (toggleSplitAtPlayhead st)) as [-> Hc'].
      destruct (toggleSplit_divisions st) as [-> Hc''].
      cbn [currentStep toggleSplitAtPlayhead setBeatDivisions].
      rewrite Hc, Hd. rewrite divisionOf_insert.
      rewrite bool_decide_eq_true_2 by done. cbn.
      apply insert_insert_eq. }
    rewrite Hdivs. split_and!; [|done|done|done].
    unfold stepPositionsOf. rewrite Hd. reflexivity.
  - intros b. split_and!; [done| |].
    + intros k. unfold stepPositionsOf. rewrite list_elem_of_fmap.
      split.
      * intros (i & -> & Hi%elem_of_seqZ). exists i. split; [lia|done].
      * intros (i & Hi & ->). exists i. split; [done|]. apply elem_of_seqZ. lia.
    + intros [->|[->| ->]]; reflexivity.
Qed.

(** ** The key invariant of the grid store *)

Lemma split_head_dashFree s : forall h t,
  Js.split Js.dash s = h :: t -> dashFree h = true.
Proof.
  unfold Js.dash.
  induction s as [|c s IH]; intros h t; cbn [Js.split].
  - intros [= <- <-]. done.
  - destruct (Ascii.eqb c "-") eqn:Hc.
    + intros [= <- <-]. done.
    + destruct (Js.split "-" s) as [|h' t'] eqn:Hs.
      * intros [= <- <-]. cbn. unfold Js.dash. by rewrite Hc.
      * intros [= <- <-]. cbn. unfold Js.dash. rewrite Hc. cbn.
        eapply IH. done.
Qed.

Lemma wfKeyb_sound key : wfKeyb key = true -> wfKey key.
Proof.
  unfold wfKeyb.
  destruct (Js.split Js.dash key) as [|p [|stepStr [|? ?]]] eqn:Hs; try done.
  destruct (Js.parseInt stepStr) as [n|]; [|done].
  intros [Hn Hk]%andb_true_iff. exists p, n. split_and!.
  - eapply split_head_dashFree, Hs.
  - by apply Z.leb_le.
  - by apply String.eqb_eq.
Qed.

Lemma wfTrackb_sound t : wfTrackb t = true -> wfTrack t.
Proof.
  unfold wfTrackb. intros [Hnd Hall]%andb_true_iff. split.
  - by apply bool_decide_eq_true in Hnd.
  - apply Forall_forall. intros k Hk. apply wfKeyb_sound.
    rewrite forallb_forall in Hall. apply Hall. by apply list_elem_of_In.
Qed.

Lemma wfTracks_initial : wfTracks initialTracks.
Proof. intros []; apply wfTrack_nil. Qed.

Lemma wfTracks_with_track ts inst t :
  wfTracks ts -> wfTrack t -> wfTracks (with_track ts inst t).
Proof.
  intros Hts Ht i. destruct (InstrumentType_eqb i inst) eqn:E.
  - apply InstrumentType_eqb_eq in E as ->. by rewrite track_of_with_track.
  - rewrite track_of_with_track_ne; [done|]. intros ->.
    by rewrite InstrumentType_eqb_refl in E.
Qed.

(** Chord generation keeps the keys well formed. *)
Lemma wfTracks_addChord st :
  0 <= currentStep st -> wfTracks (tracks st) -> wfTracks (tracks (addChord st)).
Proof.
  intros Hc Hwf. rewrite addChord_tracks.
  apply wfTracks_with_track; [done|]. apply wfTrack_writeAll; [apply Hwf|].
  apply Forall_forall. intros k Hk.
  apply elem_of_addChordWrites in Hk as (_ & interval & step & _ & Hs & Ho & ->).
  apply wfKey_noteId; [apply dashFree_nameAt|lia|lia].
Qed.

(** So does a click on a grid cell. *)
Lemma wfTracks_toggleNote note octave noteStep forceState st :
  dashFree note = true -> 0 <= octave -> 0 <= noteStep ->
  wfTracks (tracks st) ->
  wfTracks (tracks (toggleNote note octave noteStep forceState st).1).
Proof.
  intros Hn Ho Hs Hwf.
  assert (Ht : tracks (toggleNote note octave noteStep forceState st).1 =
    with_track (tracks st) (selectedInstrument st)
      (Track.set (track_of (tracks st) (selectedInstrument st))
         (noteId note octave noteStep)
         (match forceState with
          | Some b => b
          | None =>
              negb (Track.truthy
                      (Track.get (track_of (tracks st) (selectedInstrument st))
                         (noteId note octave noteStep)))
          end))).
  { unfold toggleNote. repeat case_match; done. }
  rewrite Ht. apply wfTracks_with_track; [done|].
  apply wfTrack_set; [apply Hwf|by apply wfKey_noteId].
Qed.

Lemma wfTracks_clearTrack st :
  wfTracks (tracks st) -> wfTracks (tracks (clearTrack st)).
Proof. intros Hwf. apply wfTracks_with_track; [done|apply wfTrack_nil]. Qed.

(** Playback never writes to the grid store. *)
Lemma repeat_keeps_tracks cl time st : tracks (repeat cl time st).1 = tracks st.
Proof. by destruct (repeat_refs cl time st) as (_ & _ & _ & _ & _ & H & _). Qed.

(** ** Cells of a literal track *)

Lemma active_cons t key v p n :
  active ((key, v) :: t) p n =
    if String.eqb key (noteKey p n) then v else active t p n.
Proof. unfold active. cbn. by destruct (String.eqb key (noteKey p n)). Qed.

Lemma eqb_noteKey p m n : String.eqb (noteKey p m) (noteKey p n) = (m =? n).
Proof.
  destruct (String.eqb_spec (noteKey p m) (noteKey p n)) as [H|H];
    destruct (Z.eqb_spec m n) as [Hmn|Hmn]; try done.
  - by apply noteKey_inj_step in H.
  - by subst.
Qed.

Lemma legato_cells n :
  active (track_piano (tracks Scenario.legato)) "C4" n = true <->
  n = 4 \/ n = 5 \/ n = 6.
Proof.
  change (track_piano (tracks Scenario.legato))
    with [(noteKey "C4" 4, true); (noteKey "C4" 5, true); (noteKey "C4" 6, true);
          ("D4-5", true)].
  rewrite !active_cons, !eqb_noteKey.
  change (String.eqb "D4-5" (noteKey "C4" n)) with false.
  change (active [] "C4" n) with false.
  destruct (Z.eqb_spec 4 n), (Z.eqb_spec 5 n), (Z.eqb_spec 6 n);
    split; try done; try lia.
Qed.


(** ** The statements at concrete inputs *)

Lemma wfTrack_legato : wfTrack (track_of (cl_tracks (capture Scenario.legato)) piano).
Proof. apply wfTrackb_sound. vm_compute. reflexivity. Qed.

(** Two passes over the legato track with different audio times. *)
Lemma playback_deterministic_witness :
  Scenario.legatoTicks.*1 = Scenario.legatoTicksLate.*1 /\
  triple <$> (playback (capture Scenario.legato) Scenario.legatoTicks
                Scenario.legatoPlaying).2
  = triple <$> (playback (capture Scenario.legato) Scenario.legatoTicksLate
                  Scenario.legatoPlaying).2.
Proof.
  split; [reflexivity|].
  exact (proj1 (playback_deterministic (capture Scenario.legato)
                  Scenario.legatoPlaying Scenario.legatoTicks
                  Scenario.legatoTicksLate eq_refl)).
Defined.

(** The pass over the steps 4, 5 and 6 of the legato track. *)
Lemma legato_single_trigger_witness :
  wfTrack (track_of (cl_tracks (capture Scenario.legato)) piano) /\
  dashFree "C4" = true /\ piano <> drum /\
  voiceReady (capture Scenario.legato) Scenario.legatoPlaying piano = true /\
  dispatches Scenario.legatoPlaying piano = true /\
  lastPlayedStep Scenario.legatoPlaying <> 4 /\
  List.filter (fun d : Dispatch => isNoteOf piano "C4" d.2)
    (playback (capture Scenario.legato) Scenario.legatoTicks
       Scenario.legatoPlaying).2
  = [(4, mkTrigger piano "C4" (DurSteps 3) (Some 0%Q))].
Proof.
  assert (Hlast : lastPlayedStep Scenario.legatoPlaying <> 4)
    by (vm_compute; discriminate).
  split_and!; [apply wfTrack_legato|reflexivity|discriminate|reflexivity
              |reflexivity|exact Hlast|].
  apply (legato_single_trigger (capture Scenario.legato) Scenario.legatoPlaying
           piano "C4" (mkPosition 0 1 0) (mkPosition 0 1 1) (mkPosition 0 1 2)
           0%Q (1 # 8) (1 # 4));
    [apply wfTrack_legato|reflexivity|discriminate|reflexivity|reflexivity
    |apply legato_cells|reflexivity|reflexivity|reflexivity|exact Hlast].
Defined.

(** The note dispatched at step 4 of the legato track: a run of three
    steps, well inside the four measures. *)
Lemma legato_run_follows_grid_witness :
  let cl := capture Scenario.legato in
  let st := setTransportPosition (mkPosition 0 1 0) Scenario.legatoPlaying in
  let tr := mkTrigger piano "C4" (DurSteps 3) (Some 0%Q) in
  wfTrack (track_of (cl_tracks cl) piano) /\ piano <> drum /\
  tr ∈ (repeat cl 0 st).2 /\
  exists n,
    DurSteps 3 = DurSteps n /\ 1 <= n /\
    active (track_of (cl_tracks cl) piano) "C4" (4 + n) = false /\
    4 + n <= 64.
Proof.
  cbn zeta.
  assert (Hin : mkTrigger piano "C4" (DurSteps 3) (Some 0%Q)
                ∈ (repeat (capture Scenario.legato) 0
                     (setTransportPosition (mkPosition 0 1 0)
                        Scenario.legatoPlaying)).2).
  { vm_compute. apply list_elem_of_here. }
  split_and!; [apply wfTrack_legato|discriminate|exact Hin|].
  destruct (legato_run_follows_grid (capture Scenario.legato) 0
              (setTransportPosition (mkPosition 0 1 0) Scenario.legatoPlaying)
              (mkTrigger piano "C4" (DurSteps 3) (Some 0%Q)))
    as (n & Hd & Hn & _ & Hend & _ & Hb);
    [apply wfTrack_legato|discriminate|exact Hin|].
  exists n. split_and!; [exact Hd|exact Hn|exact Hend|].
  apply Hb; [reflexivity|vm_compute; reflexivity].
Defined.

(** C4, as stated, fails.  In the shortened arrangement of one measure the
    cells of C4 at the steps 16 and 17 are still in the track; the note
    dispatched at step 15 is given three step lengths, and so runs over the
    steps 15, 16 and 17, past the bound of 16. *)
Lemma legato_run_crosses_bound :
  let st := Scenario.shrunkPlaying in
  let after := tick (mkPosition 0 3 3) 0 st in
  measures st = 1 /\
  (cl_measures <$> scheduled st) = Some 1 /\
  wfTrack (track_of (tracks st) piano) /\
  active (track_of (tracks st) piano) "C4" 16 = true /\
  currentStep after.1 = 15 /\
  after.2 = [mkTrigger piano "C4" (DurSteps 3) (Some 0%Q)] /\
  ~ (forall cl time st tr n,
       wfTrack (track_of (cl_tracks cl) (tr_inst tr)) ->
       tr_inst tr <> drum ->
       tr ∈ (repeat cl time st).2 ->
       tr_duration tr = DurSteps n ->
       stepOfPosition (cl_measures cl) (transportPosition st) + n
       <= cl_measures cl * 16).
Proof.
  cbn zeta.
  assert (Hwf : wfTrack (track_of (tracks Scenario.shrunkPlaying) piano)).
  { apply wfTrackb_sound. vm_compute. reflexivity. }
  split_and!; [vm_compute; reflexivity|vm_compute; reflexivity|exact Hwf
              |vm_compute; reflexivity|vm_compute; reflexivity
              |vm_compute; reflexivity|].
  intros H.
  specialize (H (capture Scenario.shrunk) 0%Q
                (setTransportPosition (mkPosition 0 3 3) Scenario.shrunkPlaying)
                (mkTrigger piano "C4" (DurSteps 3) (Some 0%Q)) 3).
  discharge H by (apply wfTrackb_sound; vm_compute; reflexivity).
  discharge H by discriminate.
  discharge H by (vm_compute; apply list_elem_of_here).
  discharge H by reflexivity.
  vm_compute in H. apply H. reflexivity.
Qed.

(** The default chord of the dialog, added at the start of the piano track. *)
Lemma addChord_C_major_witness :
  selectedInstrument Scenario.dialog <> drum /\
  selectedRoot Scenario.dialog = "C" /\ selectedOctave Scenario.dialog = 4 /\
  selectedChord Scenario.dialog = "major" /\ currentStep Scenario.dialog = 0 /\
  chordDuration Scenario.dialog = 1 /\ 1 <= measures Scenario.dialog /\
  addChordWrites Scenario.dialog =
    [ "C4-0"; "E4-0"; "G4-0"; "C4-1"; "E4-1"; "G4-1";
      "C4-2"; "E4-2"; "G4-2"; "C4-3"; "E4-3"; "G4-3" ].
Proof.
  assert (Hm : 1 <= measures Scenario.dialog) by (vm_compute; discriminate).
  split_and!; [discriminate|reflexivity|reflexivity|reflexivity|reflexivity
              |reflexivity|exact Hm|].
  apply (addChord_C_major Scenario.dialog);
    [discriminate|reflexivity|reflexivity|reflexivity|reflexivity|reflexivity
    |exact Hm].
Defined.

(** B major seventh in octave 6 from step 62: only B6 is in range, and only
    the steps 62 and 63 are inside the arrangement; the piano is untouched. *)
Lemma addChord_cells_in_range_witness :
  ~ chordRefused Scenario.highChord /\
  0 ∈ chordIntervalsOf CHORDS (selectedChord Scenario.highChord) /\
  1 <= toneOctave Scenario.highChord 0 <= 6 /\
  piano <> selectedInstrument Scenario.highChord /\
  "B6-63" ∈ addChordWrites Scenario.highChord /\
  track_of (tracks (addChord Scenario.highChord)) piano
  = track_of (tracks Scenario.highChord) piano.
Proof.
  assert (Hg : ~ chordRefused Scenario.highChord).
  { intros [H|H]; vm_compute in H; discriminate. }
  assert (Hi : 0 ∈ chordIntervalsOf CHORDS (selectedChord Scenario.highChord)).
  { vm_compute. apply list_elem_of_here. }
  assert (Ho : 1 <= toneOctave Scenario.highChord 0 <= 6).
  { vm_compute. split; discriminate. }
  assert (Hp : piano <> selectedInstrument Scenario.highChord) by discriminate.
  destruct (addChord_cells_in_range Scenario.highChord) as (Hiff & _ & Hother).
  split; [exact Hg|]. split; [exact Hi|]. split; [exact Ho|].
  split; [exact Hp|]. split; [|exact (Hother piano Hp)].
  apply (proj2 (Hiff "B6-63")). split; [exact Hg|].
  exists 0, 63. split_and!; [exact Hi|vm_compute; discriminate|reflexivity
                            |exact (proj1 Ho)|exact (proj2 Ho)|reflexivity].
Defined.

(** The dialog on the piano writes the root's cell; on the drums it does
    nothing. *)
Lemma addChord_writes_nothing_witness :
  ~ chordRefused Scenario.dialog /\
  selectedChord Scenario.dialog ∈ CHORDS.*1 /\
  1 <= selectedOctave Scenario.dialog <= 6 /\
  1 <= chordDuration Scenario.dialog /\
  currentStep Scenario.dialog < measures Scenario.dialog * 16 /\
  "C4-0" ∈ addChordWrites Scenario.dialog /\
  chordRefused (setSelectedInstrument drum Scenario.dialog) /\
  addChord (setSelectedInstrument drum Scenario.dialog)
  = setSelectedInstrument drum Scenario.dialog.
Proof.
  assert (Hg : ~ chordRefused Scenario.dialog).
  { intros [H|H]; vm_compute in H; discriminate. }
  assert (Hc : selectedChord Scenario.dialog ∈ CHORDS.*1).
  { vm_compute. apply list_elem_of_here. }
  assert (Ho : 1 <= selectedOctave Scenario.dialog <= 6).
  { vm_compute. split; discriminate. }
  assert (Hd : 1 <= chordDuration Scenario.dialog) by (vm_compute; discriminate).
  assert (Hs : currentStep Scenario.dialog < measures Scenario.dialog * 16)
    by (vm_compute; reflexivity).
  assert (Hr : chordRefused (setSelectedInstrument drum Scenario.dialog))
    by (left; reflexivity).
  destruct (addChord_writes_nothing Scenario.dialog) as (_ & _ & _ & Hroot).
  destruct (addChord_writes_nothing (setSelectedInstrument drum Scenario.dialog))
    as (Hrefused & _).
  split; [exact Hg|]. split; [exact Hc|]. split; [exact Ho|].
  split; [exact Hd|]. split; [exact Hs|].
  split; [exact (Hroot Hg Hc Ho Hd Hs)|].
  split; [exact Hr|exact (proj1 (Hrefused Hr))].
Defined.

(** C7, as stated, fails.  After the arrangement was shortened during
    playback the cursor stands at step 16 of a single measure; the piano is
    selected and the root is C, yet [addChord] writes no cell and the
    tracks are as before. *)
Lemma addChord_silent_past_the_end :
  let st := Scenario.overrunDialog in
  selectedInstrument st = piano /\ selectedRoot st = "C" /\
  indexOf NOTE_NAMES (selectedRoot st) = 0 /\
  currentStep st = 16 /\ measures st = 1 /\
  ~ chordRefused st /\
  addChordWrites st = [] /\
  tracks (addChord st) = tracks st /\
  ~ (forall st, addChordWrites st = [] <-> chordRefused st) /\
  ~ (forall st, tracks (addChord st) = tracks st <-> chordRefused st).
Proof.
  cbn zeta.
  assert (Hg : ~ chordRefused Scenario.overrunDialog).
  { intros [H|H]; vm_compute in H; discriminate. }
  split_and!; [vm_compute; reflexivity|vm_compute; reflexivity
              |vm_compute; reflexivity|vm_compute; reflexivity
              |vm_compute; reflexivity|exact Hg|vm_compute; reflexivity
              |vm_compute; reflexivity| |].
  - intros H. apply Hg, (H Scenario.overrunDialog). vm_compute. reflexivity.
  - intros H. apply Hg, (H Scenario.overrunDialog). vm_compute. reflexivity.
Qed.

(** Four measures cut to one with the cursor at step 20, and to three. *)
Lemma updateMeasures_clamps_and_resets_witness :
  (measures (updateMeasures 1 (seek 20 Scenario.mounted)) * 16
   <= currentStep (seek 20 Scenario.mounted) /\
   currentStep (updateMeasures 1 (seek 20 Scenario.mounted)) = 0) /\
  (currentStep (seek 20 Scenario.mounted)
   < measures (updateMeasures 3 (seek 20 Scenario.mounted)) * 16 /\
   currentStep (updateMeasures 3 (seek 20 Scenario.mounted)) = 20).
Proof.
  assert (H1 : measures (updateMeasures 1 (seek 20 Scenario.mounted)) * 16
               <= currentStep (seek 20 Scenario.mounted))
    by (vm_compute; discriminate).
  assert (H3 : currentStep (seek 20 Scenario.mounted)
               < measures (updateMeasures 3 (seek 20 Scenario.mounted)) * 16)
    by (vm_compute; reflexivity).
  destruct (updateMeasures_clamps_and_resets 1 (seek 20 Scenario.mounted))
    as (_ & _ & _ & Hreset & _).
  destruct (updateMeasures_clamps_and_resets 3 (seek 20 Scenario.mounted))
    as (_ & _ & _ & _ & Hkeep & _).
  split; split; [exact H1|exact (Hreset H1)|exact H3|exact (Hkeep H3)].
Defined.

(** Split pressed twice with the cursor on step 8. *)
Lemma split_beat_positions_witness :
  divisionOf (beatDivisions Scenario.beatTwo) 2 = 1 /\
  currentStep Scenario.beatTwo / 4 = 2 /\
  stepPositionsOf (beatDivisions Scenario.beatTwo) 2 = [8] /\
  stepPositionsOf
    (beatDivisions
       (toggleSplitAtPlayhead (toggleSplitAtPlayhead Scenario.beatTwo))) 2
  = [8; 9; 10; 11].
Proof.
  destruct (split_beat_positions Scenario.beatTwo) as (Htoggle & _ & _).
  assert (Hd : divisionOf (beatDivisions Scenario.beatTwo) 2 = 1)
    by (vm_compute; reflexivity).
  assert (Hc : currentStep Scenario.beatTwo / 4 = 2)
    by (vm_compute; reflexivity).
  destruct (Htoggle Hd Hc) as (H1 & _ & H4 & _).
  split_and!; [exact Hd|exact Hc|exact H1|exact H4].
Defined.

(** The handler called twice at step 4 of the legato track. *)
Example repeat_twice_at_step_4 :
  let st := setTransportPosition (mkPosition 0 1 0) Scenario.legatoPlaying in
  let first := repeat (capture Scenario.legato) 0 st in
  let second :=
    repeat (capture Scenario.legato) (1 # 100)
      (setTransportPosition (mkPosition 0 1 0) first.1) in
  first.2 = [mkTrigger piano "C4" (DurSteps 3) (Some 0%Q)] /\ second.2 = [].
Proof. split; vm_compute; reflexivity. Qed.

(** The cells beyond the new bound are still in the store. *)
Example shrunk_keeps_cells :
  measures Scenario.shrunk = 1 /\
  Track.keys (track_of (tracks Scenario.shrunk) piano) = ["C4-15"; "C4-16"; "C4-17"].
Proof. split; vm_compute; reflexivity. Qed.

(** A few readings of [split], [parseInt] and the step of a position. *)
Example split_sharp : Js.split Js.dash "F#3-12" = ["F#3"; "12"].
Proof. reflexivity. Qed.

Example parseInt_prefix :
  Js.parseInt "12abc" = Some 12 /\ Js.parseInt "undefined" = None.
Proof. split; reflexivity. Qed.

Example stepOfPosition_rounds :
  stepOfPosition 4 (mkPosition 1 2 (7 # 2)) = 28.
Proof. vm_compute. reflexivity. Qed.

(** * Further properties *)

(** ** Keys *)

(** X1.  The key of a cell is read back by the tick handler: for a note
    name without a dash, an octave and a step that are not negative,
    splitting [`${note}${octave}-${step}`] at the dash gives the pitch and
    the numeral of the step, [parseInt] of that numeral is the step, and
    two such keys are equal only if their pitches and their steps are. *)
Theorem noteId_round_trip note octave step :
  dashFree note = true -> 0 <= octave -> 0 <= step ->
  Js.split Js.dash (noteId note octave step)
    = [noteName note octave; Js.string_of_Z step] /\
  Js.parseInt (Js.string_of_Z step) = Some step /\
  (forall note' octave' step',
     dashFree note' = true -> 0 <= octave' -> 0 <= step' ->
     noteId note octave step = noteId note' octave' step' ->
     noteName note octave = noteName note' octave' /\ step = step').
Proof.
  intros Hn Ho Hs. split_and!.
  - apply split_noteKey; [by apply dashFree_noteName|done].
  - apply parseInt_string_of_Z.
  - intros note' octave' step' Hn' Ho' Hs' Heq.
    apply noteKey_inj in Heq; [done|by apply dashFree_noteName..|done|done].
Qed.

(** ** The legato scan *)

Lemma run_length_le t p next n :
  0 <= n ->
  (forall i, next <= i < next + n -> active t p i = true) ->
  n <= Z.of_nat (length t).
Proof.
  intros Hn Hrun.
  set (ks := (fun i : nat => noteKey p (next + Z.of_nat i)) <$> seq 0 (Z.to_nat n)).
  assert (Hnd : NoDup ks).
  { apply NoDup_fmap_2_strong; [|apply NoDup_seq].
    intros i j _ _ Hij. apply noteKey_inj_step in Hij. lia. }
  assert (Hsub : ks ⊆+ Track.keys t).
  { apply NoDup_submseteq; [done|]. intros k Hk.
    apply list_elem_of_fmap in Hk as (i & -> & Hi%elem_of_seq).
    apply active_elem_of, Hrun. lia. }
  apply submseteq_length in Hsub.
  unfold ks, Track.keys in Hsub.
  rewrite !length_fmap, length_seq in Hsub. lia.
Qed.

(** X2.  The [while] loop of the legato inference exits for every track,
    pitch and starting step: within [sustainFuel] iterations (one more
    than the number of keys of the track) it returns a count, more
    iterations return the same count, and the count exceeds its initial
    value by at most the number of keys of the track. *)
Theorem legato_scan_terminates t p next d :
  exists r,
    sustainLoop (sustainFuel t) t p next d = Some r /\
    (forall fuel, (sustainFuel t <= fuel)%nat ->
                  sustainLoop fuel t p next d = Some r) /\
    d <= r <= d + Z.of_nat (length t).
Proof.
  destruct (sustainLoop_total t p next d) as [r Hr]. exists r.
  split_and!; [done| | |].
  - intros fuel Hf. eapply sustainLoop_fuel_mono; [exact Hf|done].
  - by apply sustainLoop_run in Hr as (? & _).
  - apply sustainLoop_run in Hr as (Hle & Hrun & _).
    pose proof (run_length_le t p next (r - d) ltac:(lia) Hrun). lia.
Qed.

(** ** What the tick handler changes *)

Lemma repeat_state cl time st :
  let s := stepOfPosition (cl_measures cl) (transportPosition st) in
  (repeat cl time st).1 = setLastPlayedStep s (setCurrentStep s st).
Proof.
  cbn zeta. unfold repeat.
  destruct (Z.eqb_spec (stepOfPosition (cl_measures cl) (transportPosition st))
              (lastPlayedStep st)) as [Heq|Hne]; cbn [negb fst]; [|done].
  unfold setLastPlayedStep, setCurrentStep. cbn. by rewrite <- Heq.
Qed.

(** X3.  A playback pass changes nothing but the cursor, the last
    dispatched step and the transport position: after the handler has run
    over any non-empty sequence of clock readings, the state is the state
    before the pass with the transport at the last reading and the cursor
    and [lastPlayedStep] at its step.  In particular the tracks, the
    measures, the subdivisions and the selections are never written by
    playback. *)
Theorem playback_frame cl ticks pos time st :
  let s := stepOfPosition (cl_measures cl) pos in
  let st' := (playback cl (ticks ++ [(pos, time)]) st).1 in
  st' = setLastPlayedStep s (setCurrentStep s (setTransportPosition pos st)) /\
  tracks st' = tracks st /\ measures st' = measures st /\
  beatDivisions st' = beatDivisions st /\
  selectedInstrument st' = selectedInstrument st /\
  playbackType st' = playbackType st /\ scheduled st' = scheduled st.
Proof.
  cbn zeta.
  assert (H : (playback cl (ticks ++ [(pos, time)]) st).1 =
    setLastPlayedStep (stepOfPosition (cl_measures cl) pos)
      (setCurrentStep (stepOfPosition (cl_measures cl) pos)
         (setTransportPosition pos st))).
  { revert st. induction ticks as [|[p t] ticks IH]; intros st.
    - cbn [app]. rewrite playback_cons. cbn zeta. cbn [fst playback].
      by rewrite repeat_state.
    - cbn [app]. rewrite playback_cons. cbn zeta. cbn [fst].
      rewrite IH, repeat_state. done. }
  rewrite H. done.
Qed.

(** ** The cursor *)

Lemma Math_round_inject_Z k : Math_round (inject_Z k) = k.
Proof.
  unfold Math_round, Qfloor, Qplus, inject_Z. cbn [Qnum Qden].
  rewrite Z.mul_1_l. change (Z.pos (1 * 2)) with 2.
  Z.to_euclidean_division_equations. lia.
Qed.

Lemma Math_round_nonneg x : (0 <= x)%Q -> 0 <= Math_round x.
Proof.
  intros Hx. unfold Math_round.
  change 0 with (Qfloor 0). apply Qfloor_resp_le.
  apply Qle_trans with x; [done|].
  rewrite <- (Qplus_0_r x) at 1. apply Qplus_le_r. done.
Qed.

Lemma stepOfPosition_of_step measures step :
  0 <= step < measures * 16 ->
  stepOfPosition measures (positionOfStep step) = step.
Proof.
  intros Hs. unfold stepOfPosition, positionOfStep. cbn [bars beats sixteenths].
  rewrite Math_round_inject_Z.
  rewrite (Z.rem_mod_nonneg step 16), (Z.rem_mod_nonneg step 4) by lia.
  assert (Heq : step / 16 * 16 + step `mod` 16 / 4 * 4 + step `mod` 4 = step).
  { Z.to_euclidean_division_equations. lia. }
  rewrite Heq. apply Z.rem_small. lia.
Qed.

Lemma stepPos_nonneg pos :
  clockPosition pos ->
  0 <= bars pos * 16 + beats pos * 4 + Math_round (sixteenths pos).
Proof.
  intros (Hb & Hbt & Hs). pose proof (Math_round_nonneg _ Hs). lia.
Qed.

(** X4.  Whatever position a running clock reports, the handler keeps
    the cursor inside the arrangement it was scheduled with: with at least
    one measure the cursor after a tick lies in [0, measures*16), and
    [lastPlayedStep] equals it.  Positions that differ by whole passes
    through the arrangement give the same step, so playback loops. *)
Theorem tick_cursor_in_range cl pos time st :
  clockPosition pos -> 1 <= cl_measures cl ->
  let st' := (repeat cl time (setTransportPosition pos st)).1 in
  0 <= currentStep st' < cl_measures cl * 16 /\
  lastPlayedStep st' = currentStep st' /\
  (forall laps, 0 <= laps ->
     stepOfPosition (cl_measures cl)
       (mkPosition (bars pos + laps * cl_measures cl) (beats pos) (sixteenths pos))
     = stepOfPosition (cl_measures cl) pos).
Proof.
  intros Hpos Hm. cbn zeta. rewrite repeat_state. cbn.
  pose proof (stepPos_nonneg pos Hpos) as Hnn.
  split_and!; [| |done|].
  - apply Z.rem_bound_pos; lia.
  - apply Z.rem_bound_pos; lia.
  - intros laps Hl. unfold stepOfPosition. cbn [bars beats sixteenths].
    replace ((bars pos + laps * cl_measures cl) * 16 + beats pos * 4 +
             Math_round (sixteenths pos))
      with (bars pos * 16 + beats pos * 4 + Math_round (sixteenths pos)
            + laps * (cl_measures cl * 16)) by lia.
    apply Z.rem_add; [lia|]. apply Z.mul_nonneg_nonneg; [|done].
    apply Z.add_nonneg_nonneg; [done|]. apply Z.mul_nonneg_nonneg; lia.
Qed.

(** ** Starting and stopping *)

Lemma PlaybackType_eqb_eq a b : PlaybackType_eqb a b = true <-> a = b.
Proof. destruct a as [[]|], b as [[]|]; cbn; split; congruence. Qed.

Lemma PlaybackType_eqb_neq a b : a <> b -> PlaybackType_eqb a b = false.
Proof.
  intros H. destruct (PlaybackType_eqb a b) eqn:E; [|done].
  by apply PlaybackType_eqb_eq in E.
Qed.

(** X5.  Playback starts at the cursor.  Starting a mode that is not the
    active one schedules the handler with the tracks, measures and sample
    state of that moment, seeks the transport to the cursor and arms
    [lastPlayedStep] one step before it; with the cursor inside the
    arrangement the first tick at the seeked position then computes the
    cursor's own step and dispatches its notes, for every channel in mode
    [all] and for the selected channel otherwise. *)
Theorem playback_starts_at_cursor type time st :
  playbackType st <> Some type ->
  0 <= currentStep st < measures st * 16 ->
  let st1 := startPlayback type st in
  let r := tick (transportPosition st1) time st1 in
  playbackType st1 = Some type /\
  scheduled st1 = Some (capture st) /\
  lastPlayedStep st1 = currentStep st - 1 /\
  stepOfPosition (measures st) (transportPosition st1) = currentStep st /\
  currentStep r.1 = currentStep st /\
  r.2 = flat_map (playInstrument (capture st) st1 (currentStep st) time)
          (match type with
           | all => instrument_keys
           | current => [selectedInstrumentRef st]
           end).
Proof.
  intros Hmode Hc. cbn zeta.
  pose proof (stepOfPosition_of_step (measures st) (currentStep st) Hc) as Hstep.
  unfold startPlayback. rewrite (PlaybackType_eqb_neq _ _ Hmode).
  unfold tick. cbn [scheduled transportPosition setTransport setLastPlayedStep
    setTransportPosition setPlaybackType playbackType lastPlayedStep].
  split_and!; [done|done|done|done| |].
  - rewrite repeat_state. cbn. done.
  - unfold repeat.
    cbn -[stepOfPosition positionOfStep playInstrument instrument_keys].
    rewrite Hstep.
    destruct (Z.eqb_spec (currentStep st) (currentStep st - 1)) as [|_]; [lia|].
    cbn [negb snd]. destruct type; done.
Qed.

(** X6.  Pressing the button of the mode that is playing stops playback:
    the state is that of [stopPlayback], nothing is scheduled any more and
    the transport is stopped, while the grid and the cursor stay as they
    are; a clock firing that still arrives dispatches nothing and leaves
    the cursor where it was. *)
Theorem startPlayback_toggles_off type pos time st :
  playbackType st = Some type ->
  let st1 := startPlayback type st in
  st1 = stopPlayback st /\
  playbackType st1 = None /\ playbackTypeRef st1 = None /\
  scheduled st1 = None /\ transportStarted st1 = false /\
  tracks st1 = tracks st /\ currentStep st1 = currentStep st /\
  (tick pos time st1).2 = [] /\
  currentStep (tick pos time st1).1 = currentStep st.
Proof.
  intros Hmode. cbn zeta. unfold startPlayback.
  rewrite Hmode. destruct type; cbn; done.
Qed.

(** ** Which notes a tick dispatches *)

Lemma elem_of_playInstrument cl st s time inst tr :
  wfTrack (track_of (cl_tracks cl) inst) ->
  tr ∈ playInstrument cl st s time inst <->
  voiceReady cl st inst = true /\
  exists p,
    dashFree p = true /\ 0 <= s /\
    tr ∈ playKey inst (track_of (cl_tracks cl) inst) s time (noteKey p s) /\
    noteKey p s ∈ Track.keys (track_of (cl_tracks cl) inst).
Proof.
  intros [Hnd Hwf]. rewrite playInstrument_ready.
  set (t := track_of (cl_tracks cl) inst) in *.
  rewrite Forall_forall in Hwf.
  destruct (voiceReady cl st inst); [|rewrite elem_of_nil; naive_solver].
  rewrite list_elem_of_In, in_flat_map. split.
  - intros (k & Hk & Htr). rewrite <- list_elem_of_In in Hk.
    rewrite <- list_elem_of_In in Htr. split; [done|].
    destruct (Hwf k Hk) as (p & n & Hp & Hn & ->).
    assert (n = s) as ->.
    { rewrite playKey_noteKey in Htr by done.
      destruct (decide (n = s)) as [|Hne]; [done|].
      rewrite bool_decide_eq_false_2 in Htr by done.
      by apply elem_of_nil in Htr. }
    exists p. done.
  - intros (_ & p & Hp & Hs & Htr & Hk). exists (noteKey p s).
    rewrite <- !list_elem_of_In. done.
Qed.


(** X8.  On a melodic channel a tick dispatches exactly the onsets of its
    step: a trigger is dispatched if and only if the voice is ready and the
    trigger is that of a pitch whose cell at the step is active while the
    step is 0 or the cell one step earlier is not active; its duration is
    the count the legato scan returns.  A held note is therefore never
    attacked again inside its run, no onset is missed, and a note at step 0
    is attacked even when the last step of the arrangement holds the same
    pitch. *)
Theorem melodic_dispatch cl st s time inst tr :
  inst <> drum ->
  wfTrack (track_of (cl_tracks cl) inst) ->
  tr ∈ playInstrument cl st s time inst <->
  voiceReady cl st inst = true /\
  exists p r,
    dashFree p = true /\ 0 <= s /\
    active (track_of (cl_tracks cl) inst) p s = true /\
    (s = 0 \/ active (track_of (cl_tracks cl) inst) p (s - 1) = false) /\
    sustainLoop (sustainFuel (track_of (cl_tracks cl) inst))
      (track_of (cl_tracks cl) inst) p (s + 1) 1 = Some r /\
    tr = mkTrigger inst p (DurSteps r) (Some time).
Proof.
  intros Hinst Hwf. rewrite elem_of_playInstrument by done.
  set (t := track_of (cl_tracks cl) inst).
  assert (Hd : InstrumentType_eqb inst drum = false).
  { destruct (InstrumentType_eqb inst drum) eqn:E; [|done].
    by apply InstrumentType_eqb_eq in E. }
  assert (Hcont : forall p, 0 <= s ->
    (s >? 0) && active t p (s - 1) = false <->
    s = 0 \/ active t p (s - 1) = false).
  { intros p Hs. destruct (Z.gtb_spec s 0); cbn [andb]; split; intros Hx.
    - by right.
    - destruct Hx; [lia|done].
    - left. lia.
    - done. }
  split.
  - intros (Hr & p & Hp & Hs & Htr & Hk). split; [done|].
    rewrite playKey_noteKey in Htr by done. rewrite Hd in Htr.
    rewrite bool_decide_eq_true_2 in Htr by done. cbn [andb] in Htr.
    destruct (active t p s) eqn:Ha; [|by apply elem_of_nil in Htr].
    destruct ((s >? 0) && active t p (s - 1)) eqn:Hc;
      [by apply elem_of_nil in Htr|]. cbn [negb] in Htr.
    destruct (sustainLoop _ _ _ _ _) as [r|] eqn:Hl;
      [|by apply elem_of_nil in Htr].
    apply list_elem_of_singleton in Htr. exists p, r.
    split_and!; try done. by apply Hcont.
  - intros (Hr & p & r & Hp & Hs & Ha & Hc & Hl & ->). split; [done|].
    exists p. split_and!; [done|done| |by apply active_elem_of].
    rewrite playKey_noteKey by done. rewrite Hd.
    rewrite bool_decide_eq_true_2 by done. fold t. rewrite Ha. cbn [andb].
    apply Hcont in Hc; [|done]. rewrite Hc. cbn [negb]. rewrite Hl. left.
Qed.

(** X9.  The handler never calls a voice that is not there or not ready,
    and never a channel outside the current mode: every trigger of a tick
    belongs to a channel the mode plays whose voice exists and, for a
    sampler, whose samples the handler saw loaded; it carries the audio time
    the handler was called with; and it has the fixed duration ['16n'] if
    and only if it is a percussion trigger. *)
Theorem repeat_only_ready_voices cl time st tr :
  tr ∈ (repeat cl time st).2 ->
  dispatches st (tr_inst tr) = true /\
  voiceReady cl st (tr_inst tr) = true /\
  tr_time tr = Some time /\
  (tr_duration tr = Dur16n <-> tr_inst tr = drum).
Proof.
  intros Htr. apply repeat_trigger in Htr as (_ & Hd & Htr).
  split; [done|]. rewrite playInstrument_ready in Htr.
  destruct (voiceReady cl st (tr_inst tr)); [|by apply elem_of_nil in Htr].
  split; [done|].
  rewrite list_elem_of_In, in_flat_map in Htr. destruct Htr as (k & _ & Htr).
  rewrite <- list_elem_of_In in Htr. unfold playKey in Htr.
  destruct (InstrumentType_eqb (tr_inst tr) drum) eqn:Hdr.
  - apply InstrumentType_eqb_eq in Hdr.
    repeat case_match; try (by apply elem_of_nil in Htr);
      apply list_elem_of_singleton in Htr; rewrite Htr at 1 2; cbn; done.
  - assert (tr_inst tr <> drum).
    { intros E. by rewrite E in Hdr. }
    repeat case_match; try (by apply elem_of_nil in Htr);
      apply list_elem_of_singleton in Htr; rewrite Htr at 1 2; cbn;
      split; [done|]; split; [done|congruence].
Qed.

(** ** Editing the grid *)

Lemma toggleNote_state note octave noteStep forceState st :
  (toggleNote note octave noteStep forceState st).1 =
    setLastToggled (note, octave, noteStep)
      (setTracks
         (fun prev =>
            with_track prev (selectedInstrument st)
              (Track.set (track_of prev (selectedInstrument st))
                 (noteId note octave noteStep)
                 (match forceState with
                  | Some b => b
                  | None =>
                      negb (Track.truthy
                              (Track.get
                                 (track_of (tracks st) (selectedInstrument st))
                                 (noteId note octave noteStep)))
                  end)))
         st).
Proof. unfold toggleNote. repeat case_match; done. Qed.

Lemma toggleNote_get note octave noteStep forceState st key :
  Track.get
    (track_of (tracks (toggleNote note octave noteStep forceState st).1)
       (selectedInstrument st)) key =
    if String.eqb (noteId note octave noteStep) key
    then Some (match forceState with
               | Some b => b
               | None =>
                   negb (Track.truthy
                           (Track.get
                              (track_of (tracks st) (selectedInstrument st))
                              (noteId note octave noteStep)))
               end)
    else Track.get (track_of (tracks st) (selectedInstrument st)) key.
Proof.
  rewrite toggleNote_state. cbn [tracks setLastToggled setTracks].
  by rewrite track_of_with_track, get_set.
Qed.

(** X10.  A click on a cell flips it and nothing else: the cell reads the
    negation of what it read before, every other key of the channel and
    every other channel is as before, and the clicked cell is remembered as
    the last one toggled.  A second click gives the cell its first reading
    back, but the key stays in the track: a cell switched off is stored as
    [false], not removed.  The new cell is sounded exactly when it became
    active and the voice is there and, for a sampler, loaded. *)
Theorem toggleNote_flips note octave noteStep st :
  let inst := selectedInstrument st in
  let key := noteId note octave noteStep in
  let was := Track.truthy (Track.get (track_of (tracks st) inst) key) in
  let st1 := (toggleNote note octave noteStep None st).1 in
  let st2 := (toggleNote note octave noteStep None st1).1 in
  Track.get (track_of (tracks st1) inst) key = Some (negb was) /\
  (forall key', key' <> key ->
     Track.get (track_of (tracks st1) inst) key'
     = Track.get (track_of (tracks st) inst) key') /\
  (forall i, i <> inst -> track_of (tracks st1) i = track_of (tracks st) i) /\
  lastToggled st1 = Some (note, octave, noteStep) /\
  Track.get (track_of (tracks st2) inst) key = Some was /\
  key ∈ Track.keys (track_of (tracks st2) inst) /\
  (toggleNote note octave noteStep None st).2 =
    (if negb was && synthsCurrent st
        && match settings_type inst with
           | sampler => isSamplesLoaded st
           | synth => true
           end
     then [mkTrigger inst (noteName note octave) Dur16n None] else []).
Proof.
  cbn zeta.
  set (inst := selectedInstrument st). set (key := noteId note octave noteStep).
  assert (Hsel : selectedInstrument (toggleNote note octave noteStep None st).1
                 = inst) by (by rewrite toggleNote_state).
  assert (H1 : Track.get
             (track_of (tracks (toggleNote note octave noteStep None st).1) inst)
             key
           = Some (negb (Track.truthy (Track.get (track_of (tracks st) inst) key)))).
  { unfold inst. rewrite toggleNote_get. fold key. by rewrite String.eqb_refl. }
  assert (H2 : Track.get
             (track_of
                (tracks
                   (toggleNote note octave noteStep None
                      (toggleNote note octave noteStep None st).1).1) inst) key
           = Some (Track.truthy (Track.get (track_of (tracks st) inst) key))).
  { rewrite <- Hsel at 1. rewrite toggleNote_get. fold key.
    rewrite String.eqb_refl, Hsel, H1. cbn. by rewrite negb_involutive. }
  split_and!.
  - done.
  - intros key' Hne. unfold inst. rewrite toggleNote_get. fold key.
    destruct (String.eqb_spec key key'); [congruence|done].
  - intros i Hi. rewrite toggleNote_state. cbn [tracks setLastToggled setTracks].
    by rewrite track_of_with_track_ne.
  - by rewrite toggleNote_state.
  - done.
  - eapply get_elem_of, H2.
  - unfold toggleNote. fold inst key.
    destruct (Track.truthy _), (synthsCurrent st), (settings_type inst),
      (isSamplesLoaded st); done.
Qed.

(** X11.  Dragging over cells does not paint them alike.  With the button
    up, or with no cell toggled before, entering a cell changes nothing.
    With the button down the entered cell is forced to the negation of what
    the last toggled cell reads, and becomes the last toggled cell itself:
    after entering a cell other than the last one, the two read opposite
    values, so the cells of one stroke alternate. *)
Theorem drag_alternates note octave absoluteStep st :
  let inst := selectedInstrument st in
  let key := noteId note octave absoluteStep in
  (cellMouseEnter false note octave absoluteStep st = (st, [])) /\
  (lastToggled st = None ->
   cellMouseEnter true note octave absoluteStep st = (st, [])) /\
  (forall lnote loctave lstep,
     lastToggled st = Some (lnote, loctave, lstep) ->
     let last := noteId lnote loctave lstep in
     let st1 := (cellMouseEnter true note octave absoluteStep st).1 in
     Track.get (track_of (tracks st1) inst) key
       = Some (negb (Track.truthy (Track.get (track_of (tracks st) inst) last))) /\
     lastToggled st1 = Some (note, octave, absoluteStep) /\
     (key <> last ->
      Track.truthy (Track.get (track_of (tracks st1) inst) key)
      = negb (Track.truthy (Track.get (track_of (tracks st1) inst) last)))).
Proof.
  cbn zeta. split_and!.
  - done.
  - intros H. unfold cellMouseEnter. by rewrite H.
  - intros lnote loctave lstep H. unfold cellMouseEnter. rewrite H.
    split_and!.
    + rewrite toggleNote_get. by rewrite String.eqb_refl.
    + by rewrite toggleNote_state.
    + intros Hne. rewrite !toggleNote_get. rewrite String.eqb_refl.
      destruct (String.eqb_spec (noteId note octave absoluteStep)
                  (noteId lnote loctave lstep)); [congruence|done].
Qed.

Lemma set_same t key v : Track.get t key = Some v -> Track.set t key v = t.
Proof.
  induction t as [|[k v'] t IH]; cbn; [done|].
  destruct (String.eqb_spec k key) as [->|Hne].
  - by intros [= ->].
  - intros H. by rewrite IH.
Qed.

Lemma writeAll_again ids : forall t,
  (forall k, k ∈ ids -> Track.get t k = Some true) -> writeAll t ids = t.
Proof.
  unfold writeAll. induction ids as [|i ids IH]; intros t H; cbn; [done|].
  rewrite set_same by (apply H; left). apply IH.
  intros k Hk. apply H. by right.
Qed.

Lemma addChordWrites_frame st st' :
  selectedInstrument st' = selectedInstrument st ->
  selectedRoot st' = selectedRoot st -> selectedChord st' = selectedChord st ->
  selectedOctave st' = selectedOctave st -> chordDuration st' = chordDuration st ->
  currentStep st' = currentStep st -> measures st' = measures st ->
  addChordWrites st' = addChordWrites st.
Proof.
  intros H1 H2 H3 H4 H5 H6 H7. unfold addChordWrites.
  by rewrite H1, H2, H3, H4, H5, H6, H7.
Qed.

Lemma addChord_selection st :
  selectedInstrument (addChord st) = selectedInstrument st /\
  selectedRoot (addChord st) = selectedRoot st /\
  selectedChord (addChord st) = selectedChord st /\
  selectedOctave (addChord st) = selectedOctave st /\
  chordDuration (addChord st) = chordDuration st /\
  currentStep (addChord st) = currentStep st /\
  measures (addChord st) = measures st /\
  beatDivisions (addChord st) = beatDivisions st.
Proof. unfold addChord. repeat case_match; done. Qed.

(** X12.  Adding a chord only ever switches cells on, and adding it again
    changes nothing: after [addChord] every key that read active still
    does, no key has left the track, and a second [addChord] with the same
    selection leaves the tracks exactly as the first left them. *)
Theorem addChord_monotone_idempotent st :
  let inst := selectedInstrument st in
  (forall key,
     Track.truthy (Track.get (track_of (tracks st) inst) key) = true ->
     Track.truthy (Track.get (track_of (tracks (addChord st)) inst) key) = true) /\
  (forall key,
     key ∈ Track.keys (track_of (tracks st) inst) ->
     key ∈ Track.keys (track_of (tracks (addChord st)) inst)) /\
  tracks (addChord (addChord st)) = tracks (addChord st).
Proof.
  cbn zeta. split_and!.
  - intros key H. rewrite addChord_get. by case_bool_decide.
  - intros key H. rewrite addChord_tracks, track_of_with_track.
    apply elem_of_keys_writeAll. by right.
  - destruct (addChord_selection st) as (Hi & Hr & Hc & Ho & Hd & Hs & Hm & _).
    rewrite (addChord_tracks (addChord st)).
    rewrite (addChordWrites_frame st (addChord st)) by done.
    rewrite Hi, writeAll_again; [apply with_track_same|].
    intros k Hk. rewrite addChord_get. by rewrite bool_decide_eq_true_2.
Qed.

(** ** Measures and the grid *)

(** X13.  After [updateMeasures] a cursor that was not negative lies
    inside the new arrangement; asking for the same count again changes
    nothing; and one bar less followed by one bar more gives the measure
    count back whenever there were at least two measures (with one measure
    the first click is absorbed by the lower bound and the second adds a
    bar). *)
Theorem updateMeasures_cursor_in_range newMeasures st :
  let st1 := updateMeasures newMeasures st in
  (0 <= currentStep st -> 0 <= currentStep st1 < measures st1 * 16) /\
  updateMeasures newMeasures st1 = st1 /\
  (2 <= measures st <= 16 ->
   measures (updateMeasures (measures (updateMeasures (measures st - 1) st) + 1)
               (updateMeasures (measures st - 1) st))
   = measures st) /\
  (measures st = 1 ->
   measures (updateMeasures (measures (updateMeasures (measures st - 1) st) + 1)
               (updateMeasures (measures st - 1) st))
   = 2).
Proof.
  cbn zeta. unfold updateMeasures, MIN_MEASURES, MAX_MEASURES.
  split_and!.
  - intros Hc.
    destruct (Z.geb_spec (currentStep st) (Z.min (Z.max newMeasures 1) 16 * 16));
      [destruct (PlaybackType_eqb (playbackType st) None)|]; cbn; lia.
  - destruct (Z.geb_spec (currentStep st) (Z.min (Z.max newMeasures 1) 16 * 16))
      as [Hge|Hlt].
    + destruct (PlaybackType_eqb (playbackType st) None) eqn:Hp; cbn;
        rewrite ?Hp; cbn;
        (destruct (Z.geb_spec 0 (Z.min (Z.max newMeasures 1) 16 * 16)); [lia|]);
        done.
    + cbn.
      destruct (Z.geb_spec (currentStep st)
                  (Z.min (Z.max newMeasures 1) 16 * 16)); [lia|]. done.
  - intros Hm. repeat case_match; cbn; lia.
  - intros Hm. repeat case_match; cbn; lia.
Qed.

Lemma divisionOf_three_presses st b :
  divisionOf (beatDivisions st) b ∈ [1; 2; 4] ->
  divisionOf
    (beatDivisions
       (toggleSplitAtPlayhead (toggleSplitAtPlayhead (toggleSplitAtPlayhead st))))
    b
  = divisionOf (beatDivisions st) b.
Proof.
  intros Hb.
  destruct (toggleSplit_divisions
              (toggleSplitAtPlayhead (toggleSplitAtPlayhead st))) as [-> Hc3].
  destruct (toggleSplit_divisions (toggleSplitAtPlayhead st)) as [-> Hc2].
  destruct (toggleSplit_divisions st) as [-> Hc1].
  rewrite Hc2, Hc1. set (c := currentStep st / 4).
  rewrite !divisionOf_insert.
  rewrite !(bool_decide_eq_true_2 (c = c)) by done.
  case_bool_decide as Hcb; [subst b|done].
  rewrite !elem_of_cons, elem_of_nil in Hb.
  destruct Hb as [->|[->|[->|[]]]]; reflexivity.
Qed.

(** X14.  Split cycles 1, 2, 4 and back: pressing it once changes the
    subdivision of the beat under the cursor only and leaves the cursor in
    place; whatever the beat held before, it then holds 1, 2 or 4; and when
    every beat holds one of these, three presses give every beat its
    subdivision, and the grid its cells, back. *)
Theorem split_cycles st :
  (forall b, b <> currentStep st / 4 ->
     divisionOf (beatDivisions (toggleSplitAtPlayhead st)) b
     = divisionOf (beatDivisions st) b) /\
  currentStep (toggleSplitAtPlayhead st) = currentStep st /\
  divisionOf (beatDivisions (toggleSplitAtPlayhead st)) (currentStep st / 4)
    ∈ [1; 2; 4] /\
  ((forall b, divisionOf (beatDivisions st) b ∈ [1; 2; 4]) ->
   forall m,
     gridSteps
       (beatDivisions
          (toggleSplitAtPlayhead
             (toggleSplitAtPlayhead (toggleSplitAtPlayhead st)))) m
     = gridSteps (beatDivisions st) m).
Proof.
  destruct (toggleSplit_divisions st) as [Hd Hc]. split_and!.
  - intros b Hb. rewrite Hd, divisionOf_insert.
    by rewrite bool_decide_eq_false_2.
  - done.
  - rewrite Hd, divisionOf_insert. rewrite bool_decide_eq_true_2 by done.
    repeat case_match; rewrite !elem_of_cons; auto; lia.
  - intros Hall m. unfold gridSteps. apply List.flat_map_ext. intros b.
    unfold stepPositionsOf. by rewrite divisionOf_three_presses.
Qed.

Lemma elem_of_gridSteps divs m k :
  k ∈ gridSteps divs m <->
  exists b i,
    0 <= b < m * 4 /\ 0 <= i < divisionOf divs b /\
    k = b * 4 + i * (4 / divisionOf divs b).
Proof.
  unfold gridSteps, BEATS_PER_MEASURE. rewrite list_elem_of_In, in_flat_map.
  split.
  - intros (b & Hb & Hk). rewrite <- list_elem_of_In in Hb.
    rewrite <- list_elem_of_In in Hk. apply elem_of_seqZ in Hb.
    unfold stepPositionsOf in Hk.
    apply list_elem_of_fmap in Hk as (i & -> & Hi%elem_of_seqZ).
    exists b, i. split_and!; try done; lia.
  - intros (b & i & Hb & Hi & ->). exists b. rewrite <- !list_elem_of_In.
    split; [apply elem_of_seqZ; lia|].
    unfold stepPositionsOf. apply list_elem_of_fmap. exists i.
    split; [done|]. apply elem_of_seqZ. lia.
Qed.

(** X15.  The cells of a grid row lie inside the arrangement.  With the
    subdivisions the component stores (1, 2 or 4 for every beat), every
    cell the grid renders for [measures] measures has a step in
    [0, measures*16) that lies in its beat, and the first step of every beat
    of the arrangement is rendered, whatever the subdivision of the beat. *)
Theorem gridSteps_in_range divs m :
  (forall b, divisionOf divs b ∈ [1; 2; 4]) ->
  (forall k, k ∈ gridSteps divs m ->
             0 <= k < m * 16 /\ k ∈ stepPositionsOf divs (k / 4)) /\
  (forall b, 0 <= b < m * 4 -> b * 4 ∈ gridSteps divs m).
Proof.
  intros Hall. split.
  - intros k (b & i & Hb & Hi & ->)%elem_of_gridSteps.
    specialize (Hall b). rewrite !elem_of_cons, elem_of_nil in Hall.
    assert (Hin : 0 <= i * (4 / divisionOf divs b) < 4).
    { destruct Hall as [H|[H|[H|[]]]]; rewrite H in *;
        [change (4 / 1) with 4|change (4 / 2) with 2|change (4 / 4) with 1]; lia. }
    assert (Hq : (b * 4 + i * (4 / divisionOf divs b)) / 4 = b).
    { Z.to_euclidean_division_equations. lia. }
    split; [lia|]. rewrite Hq. unfold stepPositionsOf.
    apply list_elem_of_fmap. exists i. split; [done|]. apply elem_of_seqZ. lia.
  - intros b Hb. apply elem_of_gridSteps. exists b, 0.
    specialize (Hall b). rewrite !elem_of_cons, elem_of_nil in Hall.
    split_and!; [lia|lia|lia| |lia].
    destruct Hall as [H|[H|[H|[]]]]; lia.
Qed.

(** X16.  Edits stay in the selected channel.  A click, a drag step, an
    added chord and Clear leave the track of every other channel, the
    measures, the subdivisions and the cursor as they were; Clear leaves the
    selected channel without keys, so that a pass started afterwards
    dispatches nothing on it. *)
Theorem edits_stay_in_channel note octave noteStep forceState isMouseDown st :
  let inst := selectedInstrument st in
  let click := (toggleNote note octave noteStep forceState st).1 in
  let enter := (cellMouseEnter isMouseDown note octave noteStep st).1 in
  (forall st', st' ∈ [click; enter; addChord st; clearTrack st] ->
     (forall i, i <> inst -> track_of (tracks st') i = track_of (tracks st) i) /\
     measures st' = measures st /\ beatDivisions st' = beatDivisions st /\
     currentStep st' = currentStep st /\
     selectedInstrument st' = inst) /\
  track_of (tracks (clearTrack st)) inst = [] /\
  (forall st0 s time,
     playInstrument (capture (clearTrack st)) st0 s time inst = []).
Proof.
  cbn zeta.
  assert (Hclick : forall f,
    (forall i, i <> selectedInstrument st ->
       track_of (tracks (toggleNote note octave noteStep f st).1) i
       = track_of (tracks st) i) /\
    measures (toggleNote note octave noteStep f st).1 = measures st /\
    beatDivisions (toggleNote note octave noteStep f st).1 = beatDivisions st /\
    currentStep (toggleNote note octave noteStep f st).1 = currentStep st /\
    selectedInstrument (toggleNote note octave noteStep f st).1
    = selectedInstrument st).
  { intros f. rewrite toggleNote_state. split_and!; try done.
    intros i Hi. cbn [tracks setLastToggled setTracks].
    by rewrite track_of_with_track_ne. }
  split_and!.
  - intros st' Hst'. rewrite !elem_of_cons, elem_of_nil in Hst'.
    destruct Hst' as [->|[->|[->|[->|[]]]]].
    + apply Hclick.
    + unfold cellMouseEnter. destruct isMouseDown; [|done].
      destruct (lastToggled st) as [[[? ?] ?]|]; [apply Hclick|done].
    + destruct (addChord_selection st) as (Hi & _ & _ & _ & _ & Hs & Hm & Hb).
      split_and!; try done. intros i Hne. by apply addChord_other.
    + split_and!; try done. intros i Hne. cbn.
      by rewrite track_of_with_track_ne.
  - cbn. by rewrite track_of_with_track.
  - intros st0 s time. rewrite playInstrument_ready.
    cbn [capture cl_tracks clearTrack setTracks tracks].
    rewrite track_of_with_track. by destruct (voiceReady _ _ _).
Qed.

(** ** The chord preview *)

Lemma playChordPreview_ready now st :
  ~ chordRefused st -> synthsCurrent st = true ->
  (settings_type (selectedInstrument st) = sampler -> isSamplesLoaded st = true) ->
  playChordPreview now st =
    omap id
      (imap (previewTone (selectedInstrument st)
               (indexOf NOTE_NAMES (selectedRoot st)) (selectedOctave st) now true)
         (chordIntervalsOf CHORDS (selectedChord st))).
Proof.
  intros Hg Hs Hl. unfold playChordPreview, chordRefused in *.
  destruct (InstrumentType_eqb (selectedInstrument st) drum) eqn:Hd.
  { apply InstrumentType_eqb_eq in Hd. tauto. }
  destruct (Z.eqb_spec (indexOf NOTE_NAMES (selectedRoot st)) (-1)); [tauto|].
  rewrite Hs.
  destruct (settings_type (selectedInstrument st)); [done|].
  by rewrite Hl.
Qed.

Lemma preview_tones inst r o now step l : forall k,
  omap (chordTone r o step) l =
    (fun c => noteKey (pv_note c) step)
      <$> omap id (imap (fun i => previewTone inst r o now true (k + i)) l).
Proof.
  induction l as [|x l IH]; intros k; [done|].
  rewrite imap_cons. cbn [omap list_omap id].
  unfold chordTone at 1. unfold previewTone at 1.
  rewrite (imap_ext _ (fun i => previewTone inst r o now true (S k + i)))
    by (intros; cbn; f_equal; lia).
  rewrite (IH (S k)).
  destruct ((o + (r + x) / 12 >=? 1) && (o + (r + x) / 12 <=? 6)); done.
Qed.

(** X17.  Add writes what Preview plays.  When the chord is not refused
    and the voice of the selected channel is there and, for a sampler,
    loaded, the keys [addChord] writes are, step by step over its range, the
    keys of exactly the pitches [playChordPreview] sounds, in the same
    order: the two share the interval arithmetic and the octave filter. *)
Theorem addChord_writes_previewed_pitches now st :
  ~ chordRefused st -> synthsCurrent st = true ->
  (settings_type (selectedInstrument st) = sampler -> isSamplesLoaded st = true) ->
  addChordWrites st =
    flat_map
      (fun step =>
         (fun c => noteKey (pv_note c) step) <$> playChordPreview now st)
      (seqZ (currentStep st)
         (Z.min (currentStep st + chordDuration st * 4) (measures st * 16)
          - currentStep st)).
Proof.
  intros Hg Hs Hl. rewrite (playChordPreview_ready now st Hg Hs Hl).
  destruct (addChord_accepted st Hg) as [_ ->]. unfold chordWrites, chordEnd.
  apply List.flat_map_ext. intros step.
  apply (preview_tones _ _ _ _ _ _ 0%nat).
Qed.






(** ** The reachable states *)

Lemma gridRows_valid inst note octave :
  (note, octave) ∈ gridRows inst -> dashFree note = true /\ 0 <= octave.
Proof.
  intros H.
  assert (Hall : forallb (fun r : string * Z => dashFree r.1 && (0 <=? r.2))
                   (gridRows inst) = true).
  { destruct inst; vm_compute; reflexivity. }
  rewrite forallb_forall in Hall.
  apply list_elem_of_In, Hall, andb_true_iff in H as [Hn Ho].
  split; [done|]. by apply Z.leb_le.
Qed.

Lemma gridSteps_nonneg divs m k :
  (forall b, divisionOf divs b ∈ [1; 2; 4]) -> k ∈ gridSteps divs m -> 0 <= k.
Proof.
  intros Hall (b & i & Hb & Hi & ->)%elem_of_gridSteps.
  specialize (Hall b). rewrite !elem_of_cons, elem_of_nil in Hall.
  destruct Hall as [H|[H|[H|[]]]]; rewrite H in *;
    [change (4 / 1) with 4|change (4 / 2) with 2|change (4 / 4) with 1]; lia.
Qed.

Lemma addChord_shape st :
  addChord st = st \/
  exists f, addChord st = setShowChordSelector false (setTracks f st).
Proof.
  destruct (chordRefused_dec st) as [Hg|Hg].
  - left. by destruct (addChord_refused st Hg).
  - right. destruct (addChord_accepted st Hg) as [H _]. eexists. exact H.
Qed.

Lemma Invariant_initial : Invariant initialState.
Proof.
  constructor; cbn; try done.
  - apply wfTracks_initial.
  - intros b. unfold divisionOf. rewrite lookup_empty. left.
  - left.
  - left.
  - unfold OCTAVE_RANGE. rewrite !elem_of_cons. auto.
  - left.
Qed.

Lemma Invariant_toggleNote note octave noteStep forceState st :
  dashFree note = true -> 0 <= octave -> 0 <= noteStep ->
  Invariant st -> Invariant (toggleNote note octave noteStep forceState st).1.
Proof.
  intros Hn Ho Hs Hinv.
  pose proof (wfTracks_toggleNote note octave noteStep forceState st
                Hn Ho Hs (inv_tracks _ Hinv)) as Hwf.
  rewrite toggleNote_state in *. destruct Hinv. constructor; done.
Qed.

Lemma Invariant_updateMeasures newMeasures st :
  Invariant st -> Invariant (updateMeasures newMeasures st).
Proof.
  intros Hinv. destruct Hinv.
  unfold updateMeasures, MIN_MEASURES, MAX_MEASURES.
  destruct (currentStep st >=? Z.min (Z.max newMeasures 1) 16 * 16);
    [destruct (PlaybackType_eqb (playbackType st) None) eqn:E|];
    constructor; cbn; try done; try (by rewrite E); lia.
Qed.

Lemma Invariant_startPlayback type st :
  Invariant st -> Invariant (startPlayback type st).
Proof.
  intros Hinv. destruct Hinv. unfold startPlayback, stopPlayback.
  destruct inv_refs0 as [Hr1 Hr2].
  destruct (PlaybackType_eqb (playbackType st) (Some type)).
  - constructor; cbn; done.
  - constructor; cbn; try done.
    + split; [by destruct type|]. split; intros; discriminate.
    + intros cl [= <-]. done.
Qed.

Lemma Invariant_tick pos time st :
  clockPosition pos -> Invariant st -> Invariant (tick pos time st).1.
Proof.
  intros Hpos Hinv. unfold tick.
  cbn [scheduled setTransportPosition].
  destruct (scheduled st) as [cl|] eqn:Hcl; cbn [fst].
  - rewrite repeat_state. destruct Hinv.
    destruct (inv_closure0 cl Hcl) as [_ Hm].
    constructor; cbn -[stepOfPosition]; try done.
    unfold stepOfPosition. apply Z.rem_nonneg; [lia|].
    by apply stepPos_nonneg.
  - destruct Hinv. constructor; done.
Qed.

Lemma Reachable_Invariant st : Reachable st -> Invariant st.
Proof.
  induction 1 as
    [ | st _ IH | st _ IH | st inst _ IH | st b _ IH
    | st root chord octave duration _ IH Hr Hc Ho Hd | st _ IH
    | st _ IH | st _ IH | st _ IH | st k _ IH Hk
    | st note octave k _ IH Hrow Hk
    | st down note octave k _ IH Hrow Hk | st _ IH | st type _ IH
    | st pos time _ IH Hpos ].
  - apply Invariant_initial.
  - destruct IH. constructor; done.
  - destruct IH. constructor; done.
  - destruct IH. constructor; try done. cbn. destruct inv_refs0. done.
  - destruct IH. constructor; done.
  - destruct IH. constructor; done.
  - pose proof (wfTracks_addChord st (inv_cursor _ IH) (inv_tracks _ IH)) as Hwf.
    destruct (addChord_shape st) as [->|[f Hf]]; [done|].
    rewrite Hf in *. destruct IH. constructor; done.
  - by apply Invariant_updateMeasures.
  - by apply Invariant_updateMeasures.
  - pose proof (toggleSplit_factor st (inv_divisions _ IH)) as Hdiv.
    destruct IH. constructor; done.
  - pose proof (gridSteps_nonneg _ _ _ (inv_divisions _ IH) Hk) as Hnn.
    destruct IH. constructor; done.
  - destruct (gridRows_valid _ _ _ Hrow) as [Hn Ho].
    apply Invariant_toggleNote; try done.
    eapply gridSteps_nonneg; [apply (inv_divisions _ IH)|done].
  - destruct (gridRows_valid _ _ _ Hrow) as [Hn Ho].
    unfold cellMouseEnter. destruct down; [|done].
    destruct (lastToggled st) as [[[? ?] ?]|]; [|done].
    apply Invariant_toggleNote; try done.
    eapply gridSteps_nonneg; [apply (inv_divisions _ IH)|done].
  - pose proof (wfTracks_clearTrack st (inv_tracks _ IH)) as Hwf.
    destruct IH. constructor; done.
  - by apply Invariant_startPlayback.
  - by apply Invariant_tick.
Qed.

(** X19.  Every state the component reaches (from the initial state
    through the mount effect, instrument and chord selections, clicks and
    drags on rendered cells, Add, Clear, the measure buttons, Split, header
    clicks, the play buttons and clock firings) keeps the keys of every
    track well formed and unique, the cursor not negative, the measure count
    in 1..16, every beat's subdivision in 1, 2 or 4, the chord selections
    among the options of the dialog, the refs in step with the state they
    mirror, a handler scheduled exactly while a mode is playing, and what
    that handler closes over as well formed as the state it was taken
    from. *)
Theorem reachable_invariant st :
  Reachable st ->
  wfTracks (tracks st) /\
  0 <= currentStep st /\
  1 <= measures st <= 16 /\
  (forall b, divisionOf (beatDivisions st) b ∈ [1; 2; 4]) /\
  selectedRoot st ∈ NOTE_NAMES /\ selectedChord st ∈ CHORD_OPTIONS /\
  selectedOctave st ∈ OCTAVE_RANGE /\ chordDuration st ∈ DURATION_OPTIONS /\
  playbackTypeRef st = playbackType st /\
  selectedInstrumentRef st = selectedInstrument st /\
  (scheduled st = None <-> playbackType st = None) /\
  (forall cl, scheduled st = Some cl ->
              wfTracks (cl_tracks cl) /\ 1 <= cl_measures cl <= 16).
Proof.
  intros Hreach. destruct (Reachable_Invariant st Hreach).
  destruct inv_refs0 as [Hr1 Hr2]. destruct inv_transport0 as [_ Hs].
  split; [done|]. split; [done|]. split; [done|]. split; [done|].
  split; [done|]. split; [done|]. split; [done|]. split; [done|].
  split; [done|]. split; [done|]. split; [done|]. done.
Qed.

Lemma indexOf_from_elem l x : forall i,
  x ∈ l -> 0 <= i -> i <= indexOf_from l x i.
Proof.
  induction l as [|y l IH]; intros i Hx Hi; [by apply elem_of_nil in Hx|].
  cbn [indexOf_from]. destruct (String.eqb_spec y x) as [->|Hne]; [lia|].
  apply elem_of_cons in Hx as [->|Hx]; [done|].
  specialize (IH (i + 1) Hx). lia.
Qed.

Lemma indexOf_elem l x : x ∈ l -> indexOf l x <> -1.
Proof.
  intros Hx. pose proof (indexOf_from_elem l x 0 Hx). unfold indexOf. lia.
Qed.

Lemma addChordWrites_root st :
  ~ chordRefused st ->
  selectedChord st ∈ CHORD_OPTIONS -> 1 <= selectedOctave st <= 6 ->
  1 <= chordDuration st -> currentStep st < measures st * 16 ->
  noteId (selectedRoot st) (selectedOctave st) (currentStep st) ∈ addChordWrites st.
Proof.
  intros Hg Hchord Ho Hd Hc.
  assert (Hroot : indexOf NOTE_NAMES (selectedRoot st) <> -1).
  { unfold chordRefused in Hg. tauto. }
  destruct (indexOf_NOTE_NAMES _ Hroot) as [Hr Hn].
  apply elem_of_addChordWrites. split; [done|].
  exists 0, (currentStep st).
  assert (Hto : toneOctave st 0 = selectedOctave st).
  { unfold toneOctave. rewrite Z.add_0_r, Z.div_small by lia. lia. }
  assert (Htn : toneName st 0 = selectedRoot st).
  { unfold toneName. rewrite Z.add_0_r, Z.rem_small by lia. done. }
  rewrite Hto, Htn. unfold chordEnd.
  split_and!; [by apply root_in_chord|lia|lia|lia|lia|done].
Qed.

(** X20.  In a reachable state the dialog never holds an unknown root or
    chord type, so [addChord] is refused on the percussion channel and
    nowhere else; on any other channel, with the cursor inside the
    arrangement, it writes at least the cell of the root at the cursor,
    which then reads active; and every key it writes is well formed, with a
    step in [0, measures*16). *)
Theorem reachable_addChord st :
  Reachable st ->
  (chordRefused st <-> selectedInstrument st = drum) /\
  (selectedInstrument st <> drum -> currentStep st < measures st * 16 ->
   noteId (selectedRoot st) (selectedOctave st) (currentStep st)
     ∈ addChordWrites st /\
   Track.get (track_of (tracks (addChord st)) (selectedInstrument st))
     (noteId (selectedRoot st) (selectedOctave st) (currentStep st))
   = Some true) /\
  (forall key, key ∈ addChordWrites st ->
     exists p step,
       dashFree p = true /\ 0 <= step < measures st * 16 /\
       key = noteKey p step).
Proof.
  intros Hreach. pose proof (Reachable_Invariant st Hreach) as Hinv.
  destruct Hinv.
  assert (Hroot : indexOf NOTE_NAMES (selectedRoot st) <> -1)
    by (by apply indexOf_elem).
  assert (Hiff : chordRefused st <-> selectedInstrument st = drum).
  { unfold chordRefused. tauto. }
  split_and!; [done| |].
  - intros Hd Hc.
    assert (Hw : noteId (selectedRoot st) (selectedOctave st) (currentStep st)
                 ∈ addChordWrites st).
    { apply addChordWrites_root; [tauto|done| | |done].
      - unfold OCTAVE_RANGE in *. rewrite !elem_of_cons, elem_of_nil in *. lia.
      - unfold DURATION_OPTIONS in *. rewrite !elem_of_cons, elem_of_nil in *.
        lia. }
    split; [done|]. rewrite addChord_get. by rewrite bool_decide_eq_true_2.
  - intros key (_ & interval & step & _ & Hs & Ho & ->)%elem_of_addChordWrites.
    exists (noteName (toneName st interval) (toneOctave st interval)), step.
    unfold chordEnd in Hs.
    split_and!; [|lia|lia|done].
    apply dashFree_noteName; [apply dashFree_nameAt|lia].
Qed.

Lemma nameAt_NOTE_NAMES i : nameAt NOTE_NAMES i ∈ NOTE_NAMES ++ ["undefined"].
Proof.
  unfold nameAt. destruct (i <? 0); [cbn; rewrite !elem_of_cons; auto 20|].
  generalize (Z.to_nat i). intros n.
  do 12 (destruct n as [|n]; [cbn; rewrite !elem_of_cons; auto 20|]).
  cbn. rewrite !elem_of_cons. auto 20.
Qed.

Lemma high_pitch_not_in_rows inst name octave n o :
  name ∈ NOTE_NAMES ++ ["undefined"] -> 5 <= octave <= 6 ->
  (n, o) ∈ gridRows inst ->
  noteName n o <> noteName name octave.
Proof.
  intros Hname Ho Hrow Heq.
  assert (Hall :
    forallb (fun r : string * Z =>
      forallb (fun nm =>
        forallb (fun oc => negb (String.eqb (noteName r.1 r.2) (noteName nm oc)))
          [5; 6])
        (NOTE_NAMES ++ ["undefined"]))
      (gridRows inst) = true).
  { destruct inst; vm_compute; reflexivity. }
  rewrite forallb_forall in Hall.
  apply list_elem_of_In, Hall in Hrow. cbn [fst snd] in Hrow.
  rewrite forallb_forall in Hrow.
  apply list_elem_of_In, Hrow in Hname.
  rewrite forallb_forall in Hname.
  assert (Hoct : In octave [5; 6]) by (cbn; lia).
  apply Hname in Hoct. rewrite Heq, String.eqb_refl in Hoct. discriminate.
Qed.


(** ** The earlier copy *)






Lemma chordIntervalsOf_options chord :
  chord ∈ CHORD_OPTIONS ->
  chordIntervalsOf Earlier.CHORDS chord = chordIntervalsOf CHORDS chord.
Proof.
  unfold CHORD_OPTIONS. rewrite !elem_of_cons, elem_of_nil.
  intros [->|[->|[->|[->|[->|[]]]]]]; reflexivity.
Qed.

(** X23.  Between the two copies [addChord] changed in two ways.  The
    earlier copy refuses the violin as well as the drums; for every other
    channel and every chord type the dialog still offers the two copies
    write the same keys and leave the same state.  The types augmented and
    diminished were dropped from the chord table: selecting one, the later
    copy writes nothing. *)
Theorem addChord_across_copies st :
  (selectedInstrument st = violin ->
   Earlier.addChord st = st /\ Earlier.addChordWrites st = []) /\
  (selectedInstrument st <> violin -> selectedChord st ∈ CHORD_OPTIONS ->
   Earlier.addChordWrites st = addChordWrites st /\
   Earlier.addChord st = addChord st) /\
  (selectedChord st ∈ ["augmented"; "diminished"] ->
   addChordWrites st = [] /\ tracks (addChord st) = tracks st).
Proof.
  split_and!.
  - intros Hv. unfold Earlier.addChord, Earlier.addChordWrites.
    by rewrite Hv.
  - intros Hv Hc.
    unfold Earlier.addChord, Earlier.addChordWrites, addChord, addChordWrites.
    rewrite (chordIntervalsOf_options _ Hc).
    destruct (selectedInstrument st); try done.
  - intros Hc.
    assert (Hi : chordIntervalsOf CHORDS (selectedChord st) = []).
    { rewrite !elem_of_cons, elem_of_nil in Hc.
      destruct Hc as [->|[->|[]]]; reflexivity. }
    assert (Hw : addChordWrites st = []).
    { apply addChordWrites_nil. right. right. rewrite Hi. constructor. }
    split; [done|]. rewrite addChord_tracks, Hw. cbn.
    apply with_track_same.
Qed.

(** ** The first version *)

Lemma basic_repeat_state cl time st :
  let b := Basic.beatOfPosition (Basic.cl_measures cl) (Basic.transportPosition st) in
  (Basic.repeat cl time st).1 = Basic.setLastPlayedBeat b (Basic.setCurrentBeat b st).
Proof.
  cbn zeta. unfold Basic.repeat.
  destruct (Z.eqb_spec
              (Basic.beatOfPosition (Basic.cl_measures cl) (Basic.transportPosition st))
              (Basic.lastPlayedBeat st)) as [Heq|Hne]; cbn [negb fst]; [|done].
  unfold Basic.setLastPlayedBeat, Basic.setCurrentBeat. cbn. by rewrite <- Heq.
Qed.

Lemma elem_of_basic_rows note octave :
  (note, octave) ∈ Basic.rows <-> note ∈ NOTES /\ octave ∈ OCTAVES.
Proof.
  unfold Basic.rows. rewrite list_elem_of_In, in_flat_map. split.
  - intros (o & Ho & Hn). rewrite <- list_elem_of_In in Ho.
    rewrite <- list_elem_of_In in Hn.
    apply list_elem_of_fmap in Hn as (n & [= -> ->] & Hn). done.
  - intros [Hn Ho]. exists octave. rewrite <- !list_elem_of_In.
    split; [done|]. apply list_elem_of_fmap. by exists note.
Qed.

(** X24.  In the first version a tick plays the rows of the grid and
    nothing else: when the beat is new, a note is attacked if and only if
    the synthesizer exists and the note is the pitch of a row (a note of
    [NOTES] in an octave of [OCTAVES]) whose cell at the beat is active in
    the notes the handler closes over, with the audio time of the tick; a
    second tick at the same position attacks nothing and leaves the state
    as the first left it. *)
Theorem basic_repeat_plays_rows cl pos time time' st :
  let b := Basic.beatOfPosition (Basic.cl_measures cl) pos in
  let first := Basic.repeat cl time (Basic.setTransportPosition pos st) in
  let second :=
    Basic.repeat cl time' (Basic.setTransportPosition pos first.1) in
  (forall a,
     a ∈ first.2 <->
     b <> Basic.lastPlayedBeat st /\ Basic.synthCurrent st = true /\
     exists note octave,
       note ∈ NOTES /\ octave ∈ OCTAVES /\
       Track.truthy (Track.get (Basic.cl_notes cl) (noteId note octave b)) = true /\
       a = Basic.mkAttack (noteName note octave) (Some time)) /\
  Basic.currentBeat first.1 = b /\ Basic.lastPlayedBeat first.1 = b /\
  second.2 = [] /\ second.1 = first.1.
Proof.
  cbn zeta. split_and!.
  - intros a. unfold Basic.repeat.
    cbn [Basic.transportPosition Basic.setTransportPosition Basic.lastPlayedBeat].
    destruct (Z.eqb_spec (Basic.beatOfPosition (Basic.cl_measures cl) pos)
                (Basic.lastPlayedBeat st)) as [Heq|Hne]; cbn [negb snd].
    { rewrite elem_of_nil. naive_solver. }
    rewrite list_elem_of_In, in_flat_map. split.
    + intros ([note octave] & Hrow & Ha). rewrite <- list_elem_of_In in Hrow.
      rewrite <- list_elem_of_In in Ha. apply elem_of_basic_rows in Hrow as [Hn Ho].
      unfold Basic.playRow, Basic.attack in Ha. cbn [fst snd] in Ha.
      cbn [Basic.synthCurrent Basic.setTransportPosition] in Ha.
      destruct (Track.truthy _) eqn:Hact; [|by apply elem_of_nil in Ha].
      destruct (Basic.synthCurrent st) eqn:Hs; [|by apply elem_of_nil in Ha].
      apply list_elem_of_singleton in Ha. split; [done|]. split; [done|].
      exists note, octave. done.
    + intros (_ & Hs & note & octave & Hn & Ho & Hact & ->).
      exists (note, octave). rewrite <- !list_elem_of_In.
      split; [by apply elem_of_basic_rows|].
      unfold Basic.playRow, Basic.attack. cbn [fst snd].
      cbn [Basic.synthCurrent Basic.setTransportPosition].
      rewrite Hact, Hs. left.
  - by rewrite basic_repeat_state.
  - by rewrite basic_repeat_state.
  - rewrite basic_repeat_state. unfold Basic.repeat. cbn. by rewrite Z.eqb_refl.
  - rewrite !basic_repeat_state. done.
Qed.

Lemma basic_addChordWrites_eq st :
  indexOf NOTE_NAMES (Basic.selectedRoot st) <> -1 ->
  Basic.addChordWrites st
  = chordWrites (indexOf NOTE_NAMES (Basic.selectedRoot st))
      (Basic.selectedOctave st)
      (chordIntervalsOf Basic.CHORDS (Basic.selectedChord st))
      (Basic.currentBeat st)
      (Z.min (Basic.currentBeat st + Basic.chordDuration st)
         (Basic.measures st * BEATS_PER_MEASURE)).
Proof.
  intros H. unfold Basic.addChordWrites.
  destruct (Z.eqb_spec (indexOf NOTE_NAMES (Basic.selectedRoot st)) (-1)); done.
Qed.

Lemma basic_addChord_notes st :
  Basic.notes (Basic.addChord st)
  = writeAll (Basic.notes st) (Basic.addChordWrites st).
Proof.
  unfold Basic.addChord, Basic.addChordWrites.
  destruct (indexOf NOTE_NAMES (Basic.selectedRoot st) =? -1); done.
Qed.

(** X25.  In the first version [addChord] writes whole beats: a key is
    assigned if and only if the root is a note name and the key is that of
    a chord tone whose octave lies in 1..6, at a beat from the cursor up to
    (not including) the smaller of cursor plus duration and the end of the
    grid.  The assigned keys read [true] afterwards, every other key reads
    as before, and the cursor and the number of measures are kept. *)
Theorem basic_addChord_cells st k :
  let rootIndex := indexOf NOTE_NAMES (Basic.selectedRoot st) in
  let endBeat :=
    Z.min (Basic.currentBeat st + Basic.chordDuration st)
      (Basic.measures st * 4) in
  (k ∈ Basic.addChordWrites st <->
   rootIndex <> -1 /\
   exists interval beat,
     interval ∈ chordIntervalsOf Basic.CHORDS (Basic.selectedChord st) /\
     Basic.currentBeat st <= beat < endBeat /\
     1 <= Basic.selectedOctave st + (rootIndex + interval) / 12 <= 6 /\
     k = noteId (nameAt NOTE_NAMES (Z.rem (rootIndex + interval) 12))
           (Basic.selectedOctave st + (rootIndex + interval) / 12) beat) /\
  Track.get (Basic.notes (Basic.addChord st)) k
  = (if bool_decide (k ∈ Basic.addChordWrites st) then Some true
     else Track.get (Basic.notes st) k) /\
  Basic.currentBeat (Basic.addChord st) = Basic.currentBeat st /\
  Basic.measures (Basic.addChord st) = Basic.measures st.
Proof.
  cbn zeta. split_and!.
  - destruct (decide (indexOf NOTE_NAMES (Basic.selectedRoot st) = -1)) as [He|Hne].
    + unfold Basic.addChordWrites. rewrite He. cbn. rewrite elem_of_nil.
      naive_solver.
    + rewrite basic_addChordWrites_eq by done. rewrite elem_of_chordWrites.
      change BEATS_PER_MEASURE with 4. naive_solver.
  - by rewrite basic_addChord_notes, get_writeAll.
  - unfold Basic.addChord.
    by destruct (indexOf NOTE_NAMES (Basic.selectedRoot st) =? -1).
  - unfold Basic.addChord.
    by destruct (indexOf NOTE_NAMES (Basic.selectedRoot st) =? -1).
Qed.

Lemma basic_attack_row cl time st a :
  a ∈ (Basic.repeat cl time st).2 ->
  exists note octave,
    (note, octave) ∈ Basic.rows /\ Basic.at_note a = noteName note octave.
Proof.
  unfold Basic.repeat.
  destruct (negb _); cbn [snd]; [|by intros ?%elem_of_nil].
  rewrite list_elem_of_In, in_flat_map.
  intros ([note octave] & Hrow & Ha). rewrite <- list_elem_of_In in Hrow.
  rewrite <- list_elem_of_In in Ha. exists note, octave. split; [done|].
  unfold Basic.playRow, Basic.attack in Ha. cbn [fst snd] in Ha.
  destruct (Track.truthy _); [|by apply elem_of_nil in Ha].
  destruct (Basic.synthCurrent st); [|by apply elem_of_nil in Ha].
  by apply list_elem_of_singleton in Ha as ->.
Qed.

(** X26.  The first version has the same gap between the octaves a chord
    may reach and the octaves of the grid: a chord tone in octave 5 or 6 is
    stored by [addChord], and no tick, whatever notes and measures its
    closure holds, ever attacks that pitch. *)
Theorem basic_high_octaves_silent st interval beat :
  let rootIndex := indexOf NOTE_NAMES (Basic.selectedRoot st) in
  let name := nameAt NOTE_NAMES (Z.rem (rootIndex + interval) 12) in
  let octave := Basic.selectedOctave st + (rootIndex + interval) / 12 in
  rootIndex <> -1 ->
  interval ∈ chordIntervalsOf Basic.CHORDS (Basic.selectedChord st) ->
  Basic.currentBeat st <= beat
    < Z.min (Basic.currentBeat st + Basic.chordDuration st)
        (Basic.measures st * 4) ->
  5 <= octave <= 6 ->
  Track.get (Basic.notes (Basic.addChord st)) (noteId name octave beat)
    = Some true /\
  (forall cl time st' a,
     a ∈ (Basic.repeat cl time st').2 ->
     Basic.at_note a <> noteName name octave).
Proof.
  cbn zeta. intros Hroot Hint Hbeat Hoct. split.
  - rewrite basic_addChord_notes, get_writeAll.
    rewrite bool_decide_eq_true_2; [done|].
    rewrite basic_addChordWrites_eq by done. apply elem_of_chordWrites.
    exists interval, beat. change BEATS_PER_MEASURE with 4.
    split_and!; try done; lia.
  - intros cl time st' a Ha.
    apply basic_attack_row in Ha as (note & octave & Hrow & ->).
    apply (high_pitch_not_in_rows piano); [apply nameAt_NOTE_NAMES|done|done].
Qed.

(** X27.  [updateMeasures] of the first version: the number of measures
    becomes the request clamped into [MIN_MEASURES, MAX_MEASURES]; the
    cursor is put back to beat 0 exactly when it is at or past the new end
    of the grid, so a cursor that was not negative lies within the new
    grid; the transport is rewound only if the cursor was reset during
    playback; the notes are kept, also those past the new end. *)
Theorem basic_updateMeasures_clamps newMeasures st :
  let st' := Basic.updateMeasures newMeasures st in
  let m := Z.min (Z.max newMeasures MIN_MEASURES) MAX_MEASURES in
  Basic.measures st' = m /\ MIN_MEASURES <= m <= MAX_MEASURES /\
  Basic.currentBeat st'
  = (if Basic.currentBeat st >=? m * 4 then 0 else Basic.currentBeat st) /\
  (0 <= Basic.currentBeat st -> 0 <= Basic.currentBeat st' < m * 4) /\
  Basic.transportPosition st'
  = (if (Basic.currentBeat st >=? m * 4) && Basic.isPlaying st then position0
     else Basic.transportPosition st) /\
  Basic.notes st' = Basic.notes st /\
  Basic.isPlaying st' = Basic.isPlaying st /\
  Basic.scheduled st' = Basic.scheduled st.
Proof.
  cbn zeta. unfold Basic.updateMeasures. change BEATS_PER_MEASURE with 4.
  assert (Hm : MIN_MEASURES <=
               Z.min (Z.max newMeasures MIN_MEASURES) MAX_MEASURES
               <= MAX_MEASURES).
  { unfold MIN_MEASURES, MAX_MEASURES. lia. }
  destruct (Z.geb_spec (Basic.currentBeat st)
              (Z.min (Z.max newMeasures MIN_MEASURES) MAX_MEASURES * 4))
    as [Hge|Hlt];
    destruct (Basic.isPlaying st) eqn:Hp; cbn;
    repeat split; try done; try apply Hm;
    unfold MIN_MEASURES, MAX_MEASURES in *; try lia; try (by rewrite Hp).
Qed.

Lemma beatOfPosition_of_beat m beat :
  0 <= beat < m * 4 ->
  Basic.beatOfPosition m (Basic.positionOfBeat beat) = beat.
Proof.
  intros H. unfold Basic.beatOfPosition, Basic.positionOfBeat.
  cbn [bars beats]. change BEATS_PER_MEASURE with 4.
  rewrite (Z.rem_mod_nonneg beat 4) by lia.
  replace (beat / 4 * 4 + beat mod 4) with beat
    by (pose proof (Z.div_mod beat 4); lia).
  apply Z.rem_small. lia.
Qed.

(** X28.  Seeking in the first version: a click on the header of a beat of
    the grid stops playback, moves the cursor and the transport to the beat
    and arms [lastPlayedBeat] with its predecessor; pressing play then
    starts the transport there, and the first tick, at that position, plays
    the clicked beat from the notes as they are, leaving the cursor on
    it. *)
Theorem basic_seek_then_play beat time st :
  0 <= beat < Basic.measures st * 4 ->
  let st1 := Basic.handleBeatHeaderClick beat st in
  let st2 := Basic.playPause st1 in
  let first := Basic.tick (Basic.transportPosition st2) time st2 in
  Basic.isPlaying st1 = false /\
  Basic.scheduled st1
  = (if Basic.isPlaying st then None else Basic.scheduled st) /\
  Basic.currentBeat st1 = beat /\ Basic.lastPlayedBeat st1 = beat - 1 /\
  Basic.transportPosition st1 = Basic.positionOfBeat beat /\
  Basic.isPlaying st2 = true /\ Basic.transportStarted st2 = true /\
  Basic.transportPosition st2 = Basic.positionOfBeat beat /\
  Basic.scheduled st2 = Some (Basic.mkClosure (Basic.notes st) (Basic.measures st)) /\
  Basic.currentBeat first.1 = beat /\ Basic.lastPlayedBeat first.1 = beat /\
  first.2
  = flat_map
      (fun row : string * Z =>
         if Track.truthy (Track.get (Basic.notes st) (noteId row.1 row.2 beat))
         then Basic.attack st (noteName row.1 row.2) (Some time) else [])
      Basic.rows.
Proof.
  intros Hb. cbn zeta.
  assert (Hp1 : Basic.isPlaying (Basic.handleBeatHeaderClick beat st) = false).
  { unfold Basic.handleBeatHeaderClick.
    destruct (Basic.isPlaying st) eqn:Hp; cbn; done. }
  assert (Hst2 : Basic.playPause (Basic.handleBeatHeaderClick beat st)
    = Basic.setPlaying true
        (Some (Basic.mkClosure (Basic.notes st) (Basic.measures st)))
        (Basic.setLastPlayedBeat (beat - 1)
           (Basic.setTransportPosition (Basic.positionOfBeat beat)
              (Basic.handleBeatHeaderClick beat st)))).
  { unfold Basic.playPause. rewrite Hp1.
    unfold Basic.handleBeatHeaderClick.
    destruct (Basic.isPlaying st); reflexivity. }
  rewrite Hst2.
  split_and!; try done.
  - unfold Basic.handleBeatHeaderClick. by destruct (Basic.isPlaying st).
  - unfold Basic.tick. cbn [Basic.scheduled Basic.setPlaying Basic.setTransportPosition].
    rewrite basic_repeat_state. cbn. by apply beatOfPosition_of_beat.
  - unfold Basic.tick. cbn [Basic.scheduled Basic.setPlaying Basic.setTransportPosition].
    rewrite basic_repeat_state. cbn. by apply beatOfPosition_of_beat.
  - unfold Basic.tick. cbn [Basic.scheduled Basic.setPlaying Basic.setTransportPosition].
    unfold Basic.repeat.
    cbn [Basic.transportPosition Basic.setPlaying Basic.setTransportPosition
         Basic.setLastPlayedBeat Basic.lastPlayedBeat Basic.cl_measures].
    rewrite beatOfPosition_of_beat by done.
    destruct (Z.eqb_spec beat (beat - 1)) as [?|_]; [lia|]. cbn [negb snd].
    apply flat_map_ext. intros [n o]. unfold Basic.playRow, Basic.attack.
    cbn [fst snd Basic.cl_notes Basic.synthCurrent Basic.setPlaying
         Basic.setTransportPosition Basic.setLastPlayedBeat].
    unfold Basic.handleBeatHeaderClick.
    destruct (Basic.isPlaying st); reflexivity.
Qed.

Lemma basic_toggleNote_state note octave beat forceState st :
  let newState :=
    match forceState with
    | Some b => b
    | None => negb (Track.truthy (Track.get (Basic.notes st) (noteId note octave beat)))
    end in
  (Basic.toggleNote note octave beat forceState st).1
  = Basic.setLastToggled (note, octave, beat)
      (Basic.setNotes (fun prev => Track.set prev (noteId note octave beat) newState) st).
Proof.
  cbn zeta. unfold Basic.toggleNote. destruct forceState as [[]|]; try done.
  by destruct (negb _).
Qed.

(** X29.  Dragging in the first version.  Entering a cell does nothing
    unless the mouse is down and some cell was toggled before, and nothing
    if the entered cell is the last toggled one.  Any other cell is forced
    to the negation of what the last toggled cell reads, and becomes the
    last toggled cell; the other cells keep their reading, and the note is
    sounded, with no time argument, exactly when the cell is switched
    on. *)
Theorem basic_drag note octave beat st :
  let key := noteId note octave beat in
  (Basic.isMouseDown st = false \/ Basic.lastToggled st = None \/
   Basic.lastToggled st = Some (note, octave, beat) ->
   Basic.handleCellMouseEnter note octave beat st = (st, [])) /\
  (forall lnote loctave lbeat,
     Basic.isMouseDown st = true ->
     Basic.lastToggled st = Some (lnote, loctave, lbeat) ->
     (lnote, loctave, lbeat) <> (note, octave, beat) ->
     let forced :=
       negb (Track.truthy
               (Track.get (Basic.notes st) (noteId lnote loctave lbeat))) in
     let r := Basic.handleCellMouseEnter note octave beat st in
     Track.get (Basic.notes r.1) key = Some forced /\
     (forall k, k <> key ->
        Track.get (Basic.notes r.1) k = Track.get (Basic.notes st) k) /\
     Basic.lastToggled r.1 = Some (note, octave, beat) /\
     r.2 = (if forced && Basic.synthCurrent st
            then [Basic.mkAttack (noteName note octave) None] else [])).
Proof.
  cbn zeta. split.
  - intros [H|[H|H]]; unfold Basic.handleCellMouseEnter; rewrite H.
    + done.
    + by destruct (Basic.isMouseDown st).
    + destruct (Basic.isMouseDown st); [|done].
      by rewrite String.eqb_refl, !Z.eqb_refl.
  - intros lnote loctave lbeat Hd Hl Hne.
    unfold Basic.handleCellMouseEnter. rewrite Hd, Hl.
    assert (Hg : negb (String.eqb lnote note) || negb (loctave =? octave)
                 || negb (lbeat =? beat) = true).
    { destruct (String.eqb_spec lnote note) as [->|]; [|done].
      destruct (Z.eqb_spec loctave octave) as [->|]; [|done].
      destruct (Z.eqb_spec lbeat beat) as [->|]; [|done]. done. }
    rewrite Hg. split_and!.
    + rewrite basic_toggleNote_state.
      cbn [Basic.notes Basic.setLastToggled Basic.setNotes].
      by rewrite get_set, String.eqb_refl.
    + intros k Hk. rewrite basic_toggleNote_state.
      cbn [Basic.notes Basic.setLastToggled Basic.setNotes]. rewrite get_set.
      destruct (String.eqb_spec (noteId note octave beat) k); [congruence|done].
    + by rewrite basic_toggleNote_state.
    + unfold Basic.toggleNote, Basic.attack.
      clear Hg.
      destruct (Track.truthy _), (Basic.synthCurrent st); reflexivity.
Qed.

(** X30.  What the first version plays is fixed when playback starts: the
    scheduled handler keeps the notes and the number of measures of the
    render that scheduled it, and no edit replaces it.  A tick after
    toggling a cell, dragging over one, clearing the grid, adding a chord
    or changing the number of measures attacks exactly what it attacks
    without the edit. *)
Theorem basic_edits_unheard pos time st :
  let heard := (Basic.tick pos time st).2 in
  (forall note octave beat forceState,
     (Basic.tick pos time (Basic.toggleNote note octave beat forceState st).1).2
     = heard) /\
  (forall note octave beat,
     (Basic.tick pos time (Basic.handleCellMouseEnter note octave beat st).1).2
     = heard) /\
  (Basic.tick pos time (Basic.clearAllNotes st)).2 = heard /\
  (Basic.tick pos time (Basic.addChord st)).2 = heard /\
  (forall newMeasures,
     (Basic.tick pos time (Basic.updateMeasures newMeasures st)).2 = heard).
Proof.
  cbn zeta.
  assert (Ht : forall note octave beat forceState,
     (Basic.tick pos time (Basic.toggleNote note octave beat forceState st).1).2
     = (Basic.tick pos time st).2).
  { intros. rewrite basic_toggleNote_state. unfold Basic.tick.
    cbn [Basic.scheduled Basic.setTransportPosition Basic.setLastToggled
         Basic.setNotes].
    destruct (Basic.scheduled st); [|done]. unfold Basic.repeat.
    cbn [Basic.transportPosition Basic.lastPlayedBeat
         Basic.setTransportPosition].
    destruct (negb _); done. }
  split_and!.
  - done.
  - intros note octave beat. unfold Basic.handleCellMouseEnter.
    destruct (Basic.isMouseDown st); [|done].
    destruct (Basic.lastToggled st) as [[[ln lo] lb]|]; [|done].
    destruct (_ || _); [apply Ht|done].
  - unfold Basic.tick, Basic.clearAllNotes.
    cbn [Basic.scheduled Basic.setTransportPosition Basic.setNotes].
    destruct (Basic.scheduled st); [|done]. unfold Basic.repeat.
    cbn [Basic.transportPosition Basic.lastPlayedBeat
         Basic.setTransportPosition].
    destruct (negb _); done.
  - unfold Basic.addChord.
    destruct (indexOf NOTE_NAMES (Basic.selectedRoot st) =? -1); [done|].
    unfold Basic.tick.
    cbn [Basic.scheduled Basic.setTransportPosition Basic.setNotes
         Basic.setShowChordSelector].
    destruct (Basic.scheduled st); [|done]. unfold Basic.repeat.
    cbn [Basic.transportPosition Basic.lastPlayedBeat
         Basic.setTransportPosition].
    destruct (negb _); done.
  - intros newMeasures. unfold Basic.updateMeasures.
    destruct (_ >=? _); [destruct (Basic.isPlaying st)|];
      unfold Basic.tick;
      cbn [Basic.scheduled Basic.setTransportPosition Basic.setMeasures
           Basic.setCurrentBeat];
      (destruct (Basic.scheduled st); [|done]); unfold Basic.repeat;
      cbn [Basic.transportPosition Basic.lastPlayedBeat
           Basic.setTransportPosition];
      destruct (negb _); done.
Qed.

(** ** Instances *)

(** The cell of C4 at step 5. *)
Lemma noteId_round_trip_witness :
  dashFree "C" = true /\ 0 <= 4 /\ 0 <= 5 /\
  Js.split Js.dash (noteId "C" 4 5) = [noteName "C" 4; Js.string_of_Z 5] /\
  Js.parseInt (Js.string_of_Z 5) = Some 5.
Proof.
  assert (h1 : dashFree "C" = true) by reflexivity.
  assert (h2 : 0 <= 4) by lia.
  assert (h3 : 0 <= 5) by lia.
  destruct (noteId_round_trip "C" 4 5 h1 h2 h3) as (Hs & Hp & _).
  exact (conj h1 (conj h2 (conj h3 (conj Hs Hp)))).
Defined.

(** The clock in the sixth bar of an arrangement of four measures: the
    cursor wraps into the grid. *)
Lemma tick_cursor_in_range_witness :
  clockPosition (mkPosition 5 1 0) /\
  1 <= cl_measures (capture Scenario.legato) /\
  0 <= currentStep
         (repeat (capture Scenario.legato) 0
            (setTransportPosition (mkPosition 5 1 0) Scenario.legatoPlaying)).1
    < cl_measures (capture Scenario.legato) * 16.
Proof.
  assert (h1 : clockPosition (mkPosition 5 1 0)).
  { unfold clockPosition. vm_compute. repeat split; discriminate. }
  assert (h2 : 1 <= cl_measures (capture Scenario.legato))
    by (vm_compute; discriminate).
  exact (conj h1 (conj h2
           (proj1 (tick_cursor_in_range (capture Scenario.legato)
                     (mkPosition 5 1 0) 0 Scenario.legatoPlaying h1 h2)))).
Defined.

(** The legato track played from its cursor. *)
Lemma playback_starts_at_cursor_witness :
  playbackType Scenario.legato <> Some current /\
  0 <= currentStep Scenario.legato < measures Scenario.legato * 16 /\
  currentStep
    (tick (transportPosition (startPlayback current Scenario.legato)) 0
       (startPlayback current Scenario.legato)).1
  = currentStep Scenario.legato.
Proof.
  assert (h1 : playbackType Scenario.legato <> Some current)
    by (vm_compute; discriminate).
  assert (h2 : 0 <= currentStep Scenario.legato
               < measures Scenario.legato * 16)
    by (vm_compute; split; [discriminate|reflexivity]).
  destruct (playback_starts_at_cursor current 0 Scenario.legato h1 h2)
    as (_ & _ & _ & _ & Hc & _).
  exact (conj h1 (conj h2 Hc)).
Defined.

(** The same button pressed while the legato track plays. *)
Lemma startPlayback_toggles_off_witness :
  playbackType Scenario.legatoPlaying = Some current /\
  (tick (mkPosition 0 1 0) 0
     (startPlayback current Scenario.legatoPlaying)).2 = [].
Proof.
  assert (h1 : playbackType Scenario.legatoPlaying = Some current)
    by (vm_compute; reflexivity).
  destruct (startPlayback_toggles_off current (mkPosition 0 1 0) 0
              Scenario.legatoPlaying h1)
    as (_ & _ & _ & _ & _ & _ & _ & Hs & _).
  exact (conj h1 Hs).
Defined.



(** The held C4 of the legato track at step 4. *)
Lemma melodic_dispatch_witness :
  piano <> drum /\
  wfTrack (track_of (cl_tracks (capture Scenario.legato)) piano) /\
  mkTrigger piano "C4" (DurSteps 3) (Some 0%Q)
    ∈ playInstrument (capture Scenario.legato) Scenario.legatoPlaying 4 0 piano.
Proof.
  assert (h1 : piano <> drum) by discriminate.
  split; [exact h1|]. split; [exact wfTrack_legato|].
  apply (proj2 (melodic_dispatch (capture Scenario.legato)
                  Scenario.legatoPlaying 4 0 piano
                  (mkTrigger piano "C4" (DurSteps 3) (Some 0%Q))
                  h1 wfTrack_legato)).
  split; [vm_compute; reflexivity|].
  exists "C4", 3. split; [reflexivity|]. split; [lia|].
  split; [vm_compute; reflexivity|].
  split; [right; vm_compute; reflexivity|].
  split; [vm_compute; reflexivity|reflexivity].
Defined.

(** The note the tick at step 4 of the legato track dispatches. *)
Lemma repeat_only_ready_voices_witness :
  mkTrigger piano "C4" (DurSteps 3) (Some 0%Q)
    ∈ (repeat (capture Scenario.legato) 0
         (setTransportPosition (mkPosition 0 1 0) Scenario.legatoPlaying)).2 /\
  voiceReady (capture Scenario.legato)
    (setTransportPosition (mkPosition 0 1 0) Scenario.legatoPlaying)
    (tr_inst (mkTrigger piano "C4" (DurSteps 3) (Some 0%Q))) = true.
Proof.
  assert (Hin : mkTrigger piano "C4" (DurSteps 3) (Some 0%Q)
                ∈ (repeat (capture Scenario.legato) 0
                     (setTransportPosition (mkPosition 0 1 0)
                        Scenario.legatoPlaying)).2).
  { vm_compute. apply list_elem_of_here. }
  destruct (repeat_only_ready_voices (capture Scenario.legato) 0
              (setTransportPosition (mkPosition 0 1 0) Scenario.legatoPlaying)
              (mkTrigger piano "C4" (DurSteps 3) (Some 0%Q)) Hin)
    as (_ & Hr & _).
  exact (conj Hin Hr).
Defined.

Lemma Reachable_splitOnce : Reachable Stage.splitOnce.
Proof. apply R_split, R_mount, R_initial. Qed.

(** The grid after one press of Split: the header of the third beat. *)
Lemma gridSteps_in_range_witness :
  (forall b, divisionOf (beatDivisions Stage.splitOnce) b ∈ [1; 2; 4]) /\
  2 * 4 ∈ gridSteps (beatDivisions Stage.splitOnce) 4.
Proof.
  assert (h1 : forall b, divisionOf (beatDivisions Stage.splitOnce) b ∈ [1; 2; 4])
    by exact (inv_divisions _ (Reachable_Invariant _ Reachable_splitOnce)).
  assert (h2 : 0 <= 2 < 4 * 4) by lia.
  exact (conj h1
           (proj2 (gridSteps_in_range (beatDivisions Stage.splitOnce) 4 h1)
              2 h2)).
Defined.

(** The dialog on the piano with its default selections. *)
Lemma addChord_writes_previewed_pitches_witness :
  ~ chordRefused Scenario.dialog /\
  synthsCurrent Scenario.dialog = true /\
  (settings_type (selectedInstrument Scenario.dialog) = sampler ->
   isSamplesLoaded Scenario.dialog = true) /\
  addChordWrites Scenario.dialog =
    flat_map
      (fun step =>
         (fun c => noteKey (pv_note c) step)
           <$> playChordPreview 0 Scenario.dialog)
      (seqZ (currentStep Scenario.dialog)
         (Z.min (currentStep Scenario.dialog + chordDuration Scenario.dialog * 4)
            (measures Scenario.dialog * 16)
          - currentStep Scenario.dialog)).
Proof.
  assert (h1 : ~ chordRefused Scenario.dialog).
  { intros [H|H]; vm_compute in H; discriminate. }
  assert (h2 : synthsCurrent Scenario.dialog = true) by (vm_compute; reflexivity).
  assert (h3 : settings_type (selectedInstrument Scenario.dialog) = sampler ->
               isSamplesLoaded Scenario.dialog = true).
  { intros H. vm_compute in H. discriminate. }
  exact (conj h1 (conj h2 (conj h3
           (addChord_writes_previewed_pitches 0 Scenario.dialog h1 h2 h3)))).
Defined.

(** The state after one press of Split. *)
Lemma reachable_invariant_witness :
  Reachable Stage.splitOnce /\
  wfTracks (tracks Stage.splitOnce) /\ 0 <= currentStep Stage.splitOnce /\
  1 <= measures Stage.splitOnce <= 16.
Proof.
  destruct (reachable_invariant Stage.splitOnce Reachable_splitOnce)
    as (Ht & Hc & Hm & _).
  exact (conj Reachable_splitOnce (conj Ht (conj Hc Hm))).
Defined.

(** In that state the dialog's chord is accepted, the piano being
    selected. *)
Lemma reachable_addChord_witness :
  Reachable Stage.splitOnce /\
  (chordRefused Stage.splitOnce <-> selectedInstrument Stage.splitOnce = drum).
Proof.
  exact (conj Reachable_splitOnce
           (proj1 (reachable_addChord Stage.splitOnce Reachable_splitOnce))).
Defined.



(** B major seventh in octave 6 in the first version: its root. *)
Lemma basic_high_octaves_silent_witness :
  indexOf NOTE_NAMES (Basic.selectedRoot Basic.highChord) <> -1 /\
  0 ∈ chordIntervalsOf Basic.CHORDS (Basic.selectedChord Basic.highChord) /\
  Basic.currentBeat Basic.highChord <= 0
    < Z.min (Basic.currentBeat Basic.highChord
             + Basic.chordDuration Basic.highChord)
        (Basic.measures Basic.highChord * 4) /\
  5 <= Basic.selectedOctave Basic.highChord
       + (indexOf NOTE_NAMES (Basic.selectedRoot Basic.highChord) + 0) / 12
    <= 6 /\
  Track.get (Basic.notes (Basic.addChord Basic.highChord))
    (noteId
       (nameAt NOTE_NAMES
          (Z.rem (indexOf NOTE_NAMES (Basic.selectedRoot Basic.highChord) + 0) 12))
       (Basic.selectedOctave Basic.highChord
        + (indexOf NOTE_NAMES (Basic.selectedRoot Basic.highChord) + 0) / 12)
       0)
  = Some true.
Proof.
  assert (h1 : indexOf NOTE_NAMES (Basic.selectedRoot Basic.highChord) <> -1)
    by (vm_compute; discriminate).
  assert (h2 : 0 ∈ chordIntervalsOf Basic.CHORDS
                     (Basic.selectedChord Basic.highChord)).
  { vm_compute. apply list_elem_of_here. }
  assert (h3 : Basic.currentBeat Basic.highChord <= 0
               < Z.min (Basic.currentBeat Basic.highChord
                        + Basic.chordDuration Basic.highChord)
                   (Basic.measures Basic.highChord * 4))
    by (vm_compute; split; [discriminate|reflexivity]).
  assert (h4 : 5 <= Basic.selectedOctave Basic.highChord
                    + (indexOf NOTE_NAMES (Basic.selectedRoot Basic.highChord) + 0) / 12
               <= 6)
    by (vm_compute; split; discriminate).
  exact (conj h1 (conj h2 (conj h3 (conj h4
           (proj1 (basic_high_octaves_silent Basic.highChord 0 0
                     h1 h2 h3 h4)))))).
Defined.

(** The header of beat 5 clicked and play pressed, with C4 on that beat. *)
Lemma basic_seek_then_play_witness :
  0 <= 5 < Basic.measures Basic.tune * 4 /\
  Basic.currentBeat
    (Basic.tick
       (Basic.transportPosition
          (Basic.playPause (Basic.handleBeatHeaderClick 5 Basic.tune)))
       0 (Basic.playPause (Basic.handleBeatHeaderClick 5 Basic.tune))).1
  = 5.
Proof.
  assert (h1 : 0 <= 5 < Basic.measures Basic.tune * 4)
    by (vm_compute; split; [discriminate|reflexivity]).
  destruct (basic_seek_then_play 5 0 Basic.tune h1)
    as (_ & _ & _ & _ & _ & _ & _ & _ & _ & Hc & _).
  exact (conj h1 Hc).
Defined.
